(** * The JSON document model of xgboost and its text and UBJSON codecs

    A shallow embedding of [src/common/json.cc]: the value model with its
    structural equality, the text reader and writer ([JsonReader],
    [JsonWriter]) and the binary reader and writer ([UBJReader], [UBJWriter]).

    Conventions of the embedding
    - a buffer ([std::string], [std::vector<char>], [StringView]) is a
      [list ascii];
    - [JsonReader::Char] is a signed 8-bit integer, modelled as a [Z] in
      [-128, 127]; the value [-1] doubles as the end-of-input sentinel, as it
      does in the source;
    - [int64_t] is a [Z] with wrap-around written out ([wrap64]);
    - [float] and [double] are carried as their IEEE-754 bit patterns, and
      arithmetic on them goes through [SpecFloat];
    - [LOG(FATAL)], [CHECK] and [Error] raise: they are the [Fail] outcome of
      the reader monad. *)

From Stdlib Require Import ZArith List Ascii Bool Lia Arith.
From Stdlib Require String.
Import String.StringSyntax.
Bind Scope string_scope with String.string.
From Stdlib Require Import Floats.SpecFloat.
Import ListNotations.

Local Open Scope Z_scope.

(** ** Characters and buffers *)

Definition buffer := list ascii.

(** The double quote character. *)
Definition quote : ascii := "034"%char.

(** A string literal as a buffer. *)
Definition lit (s : String.string) : buffer := String.list_ascii_of_string s.

(** The unsigned value of a byte. *)
Definition byte_val (a : ascii) : Z := Z.of_N (N_of_ascii a).

(** The byte holding the low eight bits of [z]. *)
Definition byte_of (z : Z) : ascii := ascii_of_N (Z.to_N (z mod 256)).

(** Two's complement reading of the low [w] bits of [z]. *)
Definition signed (w : Z) (z : Z) : Z :=
  let m := z mod 2 ^ w in
  if m <? 2 ^ (w - 1) then m else m - 2 ^ w.

(** [char] to [JsonReader::Char] ([std::int8_t]). *)
Definition to_Char (a : ascii) : Z := signed 8 (byte_val a).

(** A character constant of the source, as a [Char]. *)
Definition chr (a : ascii) : Z := to_Char a.

Definition EOF : Z := -1.

(** [int64_t] arithmetic wraps. *)
Definition wrap64 (z : Z) : Z := signed 64 z.

(** ** Floating point values *)

Module Float.

(** Fields of a binary32 pattern. *)
Definition sign32 (b : Z) : bool := Z.testbit b 31.
Definition exp32 (b : Z) : Z := Z.land (Z.shiftr b 23) 255.
Definition mant32 (b : Z) : Z := Z.land b (2 ^ 23 - 1).

(** Fields of a binary64 pattern. *)
Definition sign64 (b : Z) : bool := Z.testbit b 63.
Definition exp64 (b : Z) : Z := Z.land (Z.shiftr b 52) 2047.
Definition mant64 (b : Z) : Z := Z.land b (2 ^ 52 - 1).

(** Generic decoding of sign, biased exponent and fraction, for a format
    with [p] bits of precision whose exponent field is all ones at [emx]. *)
Definition decode (p emx : Z) (s : bool) (e m : Z) : spec_float :=
  if e =? emx then
    if m =? 0 then S754_infinity s else S754_nan
  else if e =? 0 then
    match m with
    | Zpos q => S754_finite s q (3 - (emx + 1) / 2 - p)
    | _ => S754_zero s
    end
  else
    match m + 2 ^ (p - 1) with
    | Zpos q => S754_finite s q (e - (emx + 1) / 2 + 2 - p)
    | _ => S754_nan
    end.

Definition of_bits32 (b : Z) : spec_float :=
  decode 24 255 (sign32 b) (exp32 b) (mant32 b).

Definition of_bits64 (b : Z) : spec_float :=
  decode 53 2047 (sign64 b) (exp64 b) (mant64 b).

(** [std::isnan], [common::CheckNAN] and [std::isinf]. *)
Definition is_nan (x : spec_float) : bool :=
  match x with S754_nan => true | _ => false end.
Definition is_inf (x : spec_float) : bool :=
  match x with S754_infinity _ => true | _ => false end.
Definition is_finite (x : spec_float) : bool :=
  match x with S754_zero _ | S754_finite _ _ _ => true | _ => false end.

Definition is_zero (x : spec_float) : bool :=
  match x with S754_zero _ => true | _ => false end.

Definition isnan32 (b : Z) : bool := is_nan (of_bits32 b).
Definition isinf32 (b : Z) : bool := is_inf (of_bits32 b).

(** [a - b == 0] on [float]: the difference is computed in binary32 and
    compared with zero. *)
Definition sub32_is_zero (a b : Z) : bool :=
  SFeqb (SFsub 24 128 (of_bits32 a) (of_bits32 b)) (S754_zero false).

(** [a == b] on [double]. *)
Definition eq64 (a b : Z) : bool := SFeqb (of_bits64 a) (of_bits64 b).

(** Bit patterns of the special values the text reader produces. *)
Definition quiet_NaN : Z := 0x7FC00000.
Definition infinity : Z := 0x7F800000.
Definition neg_infinity : Z := 0xFF800000.

(** Unary minus on [float] flips the sign bit. *)
Definition neg32 (b : Z) : Z := Z.lxor b (2 ^ 31).

(** Encoding of a binary32 value that is not a NaN. *)
Definition to_bits32 (x : spec_float) : Z :=
  match x with
  | S754_zero s => if s then 2 ^ 31 else 0
  | S754_infinity s => if s then neg_infinity else infinity
  | S754_nan => quiet_NaN
  | S754_finite s m e =>
      (if s then 2 ^ 31 else 0) +
      (if Z.pos m <? 2 ^ 23 then Z.pos m
       else Z.shiftl (e + 150) 23 + (Z.pos m - 2 ^ 23))
  end.

(** [static_cast<float>(double)]: round to nearest even; a NaN keeps its
    sign and the high bits of its payload and is made quiet. *)
Definition double_to_float (b : Z) : Z :=
  match of_bits64 b with
  | S754_nan =>
      (if sign64 b then 2 ^ 31 else 0) +
      Z.lor quiet_NaN (Z.shiftr (mant64 b) 29)
  | S754_finite s m e =>
      to_bits32 (binary_normalize 24 128 (cond_Zopp s (Z.pos m)) e s)
  | x => to_bits32 x
  end.

End Float.

(** ** The value model *)

(** Element types of the typed arrays, in the order of [Value::ValueKind]. *)
Inductive ElemType :=
| F32 | F64 | I8 | U8 | I16 | U16 | I32 | U32 | I64 | U64.

Definition ElemType_eqb (a b : ElemType) : bool :=
  match a, b with
  | F32, F32 | F64, F64 | I8, I8 | U8, U8 | I16, I16 | U16, U16
  | I32, I32 | U32, U32 | I64, I64 | U64, U64 => true
  | _, _ => false
  end.

(** A document. The classes are declared in [json.h], outside the excerpt;
    [Value::TypeStr] of [json.cc] lists the kinds, and the definitions of
    [operator==] there show the payloads. [JsonNumber] holds a binary32
    pattern, [JsonInteger] an [int64_t]; a typed array holds bit patterns
    for the two float types and integer values for the others.
    [Object::Map] is a [std::map]: the list of its entries in enumeration
    order, which is the order of the keys. *)
#[local] Unset Elimination Schemes.
Inductive Json :=
| JsonNull
| JsonBoolean (b : bool)
| JsonInteger (i : Z)
| JsonNumber (f : Z)
| JsonString (s : buffer)
| JsonArray (vec : list Json)
| JsonObject (object : list (buffer * Json))
| JsonTypedArray (t : ElemType) (vec : list Z).
#[local] Set Elimination Schemes.

(** *** [std::string] comparison and [std::map] operations *)

Fixpoint buffer_eqb (a b : buffer) : bool :=
  match a, b with
  | [], [] => true
  | x :: a', y :: b' => Ascii.eqb x y && buffer_eqb a' b'
  | _, _ => false
  end.

(** [std::less<>] on [std::string]: lexicographic on unsigned bytes. *)
Fixpoint buffer_ltb (a b : buffer) : bool :=
  match a, b with
  | [], [] => false
  | [], _ :: _ => true
  | _ :: _, [] => false
  | x :: a', y :: b' =>
      if byte_val x <? byte_val y then true
      else if byte_val y <? byte_val x then false
      else buffer_ltb a' b'
  end.

Section Map.
Context {V : Type}.

(** [m[k] = v]: insert, or overwrite the entry already there. *)
Fixpoint map_assign (k : buffer) (v : V) (m : list (buffer * V))
  : list (buffer * V) :=
  match m with
  | [] => [(k, v)]
  | (k', v') :: m' =>
      if buffer_ltb k k' then (k, v) :: m
      else if buffer_ltb k' k then (k', v') :: map_assign k v m'
      else (k, v) :: m'
  end.

(** [m.emplace(k, v)]: insert, unless the key is already there. *)
Fixpoint map_emplace (k : buffer) (v : V) (m : list (buffer * V))
  : list (buffer * V) :=
  match m with
  | [] => [(k, v)]
  | (k', v') :: m' =>
      if buffer_ltb k k' then (k, v) :: m
      else if buffer_ltb k' k then (k', v') :: map_emplace k v m'
      else m
  end.

Fixpoint map_find (k : buffer) (m : list (buffer * V)) : option V :=
  match m with
  | [] => None
  | (k', v') :: m' => if buffer_eqb k k' then Some v' else map_find k m'
  end.

(** The invariant of [std::map]: keys strictly increasing. *)
Fixpoint map_sorted (m : list (buffer * V)) : bool :=
  match m with
  | [] => true
  | (k, _) :: m' =>
      match m' with
      | [] => true
      | (k', _) :: _ => buffer_ltb k k' && map_sorted m'
      end
  end.
End Map.

(** *** Structural equality *)

(** [std::equal] over two ranges of the same length. *)
Section Equal.
Context {A B : Type}.
Variable eq : A -> B -> bool.

Fixpoint equal (a : list A) (b : list B) : bool :=
  match a, b with
  | [], [] => true
  | x :: a', y :: b' => eq x y && equal a' b'
  | _, _ => false
  end.
End Equal.

(** [JsonNumber::operator==], on the two stored floats. *)
Definition JsonNumber_eq (number_ r_num : Z) : bool :=
  if Float.isinf32 number_ then Float.isinf32 r_num
  else if Float.isnan32 number_ then Float.isnan32 r_num
  else Float.sub32_is_zero number_ r_num.

(** The element test of [JsonTypedArray<float>::operator==]: [v] is
    [vec_[i]], [a] is [arr[i]]. *)
Definition F32_elem_eq (v a : Z) : bool :=
  if Float.isnan32 v then Float.isnan32 a
  else if Float.isinf32 v then Float.isinf32 a
  else Float.sub32_is_zero a v.

(** [JsonTypedArray<T, kind>::operator==] once the kinds agree. *)
Definition JsonTypedArray_eq (t : ElemType) (vec_ arr : list Z) : bool :=
  if negb (Nat.eqb (length vec_) (length arr)) then false
  else match t with
       | F32 => equal F32_elem_eq vec_ arr
       | F64 => equal Float.eq64 arr vec_
       | _ => equal Z.eqb arr vec_
       end.

(** [Value::operator==], by kind. [JsonArray::operator==] hands the elements
    to [std::equal] with the right operand's range first, so each element
    comparison has the operands the other way round: [Value_eq true x y] is
    [y == x], and [Value_eq false x y] is [x == y]. *)
Fixpoint Value_eq (swapped : bool) (x y : Json) {struct x} : bool :=
  match x, y with
  | JsonNull, JsonNull => true
  | JsonBoolean a, JsonBoolean b =>
      if swapped then Bool.eqb b a else Bool.eqb a b
  | JsonInteger a, JsonInteger b =>
      if swapped then b =? a else a =? b
  | JsonNumber a, JsonNumber b =>
      if swapped then JsonNumber_eq b a else JsonNumber_eq a b
  | JsonString a, JsonString b =>
      if swapped then buffer_eqb a b else buffer_eqb b a
  | JsonArray xs, JsonArray ys =>
      if negb (Nat.eqb (length xs) (length ys)) then false
      else equal (Value_eq (negb swapped)) xs ys
  | JsonObject xs, JsonObject ys =>
      Nat.eqb (length xs) (length ys) &&
      equal (fun e e' =>
               (if swapped then buffer_eqb (fst e') (fst e)
                else buffer_eqb (fst e) (fst e'))
               && Value_eq swapped (snd e) (snd e'))
            xs ys
  | JsonTypedArray t xs, JsonTypedArray t' ys =>
      ElemType_eqb t t' &&
      (if swapped then JsonTypedArray_eq t' ys xs
       else JsonTypedArray_eq t xs ys)
  | _, _ => false
  end.

(** [lhs == rhs] on documents. *)
Definition Json_eq (lhs rhs : Json) : bool := Value_eq false lhs rhs.

(** ** Decimal rendering *)

Definition digit_char (d : Z) : ascii := byte_of (48 + d).

(** The decimal digits of [n >= 0], most significant first, in front of
    [acc]; [fuel] bounds the number of digits. *)
Fixpoint decimal_digits (fuel : nat) (n : Z) (acc : buffer) : buffer :=
  match fuel with
  | O => acc
  | S fuel' =>
      let acc' := digit_char (n mod 10) :: acc in
      if n / 10 =? 0 then acc' else decimal_digits fuel' (n / 10) acc'
  end.

(** [std::to_string] of an unsigned value below [10^20]. *)
Definition to_string_unsigned (n : Z) : buffer := decimal_digits 20 n [].

(** [std::to_string] of a signed value. *)
Definition to_string_int (n : Z) : buffer :=
  if n <? 0 then "-"%char :: to_string_unsigned (- n) else to_string_unsigned n.

(** Modelled from the spec: [to_chars] for [int64_t] lives in [charconv.h],
    which is not part of the excerpt; the spec fixes its output as "decimal
    digits, no leading zeros except literal 0", with a minus sign for a
    negative value. *)
Definition to_chars_int64 (i : Z) : buffer := to_string_int i.

(** ** The reader state and its outcomes *)

(** [raw_str_] and [cursor_.Pos()], together with the part of [raw_str_] the
    cursor has not passed, [unread = raw_str_.substr(Pos())]. *)
Record Reader := mkReader {
  raw_str_ : buffer;
  Pos : nat;
  unread : buffer
}.

(** A reader over [str], cursor at 0. *)
Definition reader (str : buffer) : Reader := mkReader str 0 str.

(** [cursor_.Forward(n)]. *)
Definition Forward (n : nat) (r : Reader) : Reader :=
  mkReader (raw_str_ r) (Pos r + n) (skipn n (unread r)).

(** How an operation can fail: [Error] of the reader (message, reported
    position, full text of the report), another [LOG(FATAL)] or C++
    exception, or a read past the end of the buffer, which the source does
    not check for. *)
Inductive failure :=
| SyntaxError (msg : buffer) (pos : nat) (what : buffer)
| Fatal (what : buffer)
| OutOfBounds.

Inductive result (A : Type) :=
| Ok (a : A) (r : Reader)
| Fail (e : failure)
| OutOfFuel.
Arguments Ok {A} a r.
Arguments Fail {A} e.
Arguments OutOfFuel {A}.

Definition M (A : Type) := Reader -> result A.

Definition ret {A} (a : A) : M A := fun r => Ok a r.

Definition bind {A B} (c : M A) (k : A -> M B) : M B :=
  fun r => match c r with
           | Ok a r' => k a r'
           | Fail e => Fail e
           | OutOfFuel => OutOfFuel
           end.

Definition raise {A} (e : failure) : M A := fun _ => Fail e.

Notation "x <- c ;; k" := (bind c (fun x => k))
  (at level 61, c at next level, right associativity).
Notation "c ;;; k" := (bind c (fun _ => k))
  (at level 61, right associativity).

(** *** [JsonReader::Error] *)

(** The excerpt of [Error]: newline and NUL are spelled out. *)
Fixpoint portion (raw_portion : buffer) : buffer :=
  match raw_portion with
  | [] => []
  | c :: rest =>
      (if Ascii.eqb c "010"%char then lit "\n"
       else if Ascii.eqb c "000"%char then lit "\0"
       else [c]) ++ portion rest
  end.

Definition kExtend : nat := 8.

(** The text [Error] hands to [LOG(FATAL)]. *)
Definition Error_what (msg : buffer) (r : Reader) : buffer :=
  let pos := Pos r in
  let size := length (raw_str_ r) in
  let msg := msg ++ lit ", around character position: "
                 ++ to_string_unsigned (Z.of_nat pos) ++ ["010"%char] in
  if Nat.eqb pos 0 then
    msg ++ lit ", " ++ [quote] ++ raw_str_ r ++ lit " " ++ [quote]
  else
    let beg := (pos - kExtend)%nat in
    let end_ := if (size <=? pos + kExtend)%nat then size
                else (pos + kExtend)%nat in
    let raw_portion := firstn (end_ - beg) (skipn beg (raw_str_ r)) in
    msg ++ lit "    " ++ portion raw_portion ++ ["010"%char]
        ++ lit "    " ++ repeat "~"%char (pos - 1 - beg) ++ lit "^"
        ++ repeat "~"%char (end_ - pos).

Definition Error_ {A} (msg : buffer) : M A :=
  fun r => Fail (SyntaxError msg (Pos r) (Error_what msg r)).

Definition Error {A} (msg : String.string) : M A := Error_ (lit msg).

(** *** Cursor primitives

    [PeekNextChar], [GetNextChar], [GetNextNonSpaceChar],
    [GetConsecutiveChar] and [Expect] are members of [JsonReader] declared
    in [json_io.h], which is not part of the excerpt; [json.cc] only calls
    them. *)

(** Modelled from the spec: [JsonReader::PeekNextChar], absent from the
    excerpt. The spec has a cursor over an immutable buffer with fixed
    lookahead; [Parse] compares the answer with [-1] to find the end of
    the buffer. *)
Definition PeekNextChar : M Z :=
  fun r => match unread r with
           | [] => Ok (-1) r
           | ch :: _ => Ok (to_Char ch) r
           end.

(** Modelled from the spec: [JsonReader::GetNextChar], absent from the
    excerpt: the character under the cursor, which then moves on by one;
    [-1] at the end of the buffer, where the cursor stays
    ([ParseString] compares the answer with [EOF]). *)
Definition GetNextChar : M Z :=
  fun r => match unread r with
           | [] => Ok (-1) r
           | ch :: _ => Ok (to_Char ch) (Forward 1 r)
           end.

(** Modelled from the spec: [JsonReader::Expect], absent from the excerpt.
    The spec makes any character other than the expected one a syntax
    error; the report goes through [Error] and names the expected
    character and the one found. *)
Definition Expect {A} (c got : Z) : M A :=
  fun r =>
    let msg := lit "Expecting: " ++ [quote; byte_of c; quote]
                 ++ lit ", got: " ++ [quote] ++
               (if got =? EOF then lit "EOF" ++ [quote]
                else if got =? 0 then lit "\0" ++ [quote]
                else to_string_int got ++ lit " " ++ [quote]) in
    Error_ msg r.

(** Modelled from the spec: [JsonReader::GetConsecutiveChar], absent from
    the excerpt: consume the next character, which has to be the expected
    one. *)
Definition GetConsecutiveChar (expected_char : ascii) : M Z :=
  result <- GetNextChar ;;
  if negb (result =? chr expected_char)
  then Expect (chr expected_char) result
  else ret result.

Definition IsSpace (c : Z) : bool :=
  (c =? chr " ") || (c =? chr "010") || (c =? chr "013") || (c =? chr "009").

(** [JsonReader::SkipSpaces], by recursion on the unread part. *)
Fixpoint skip_spaces (u : buffer) : nat :=
  match u with
  | [] => O
  | c :: u' => if IsSpace (to_Char c) then S (skip_spaces u') else O
  end.

Definition SkipSpaces : M unit :=
  fun r => Ok tt (Forward (skip_spaces (unread r)) r).

(** Modelled from the spec: [JsonReader::GetNextNonSpaceChar], absent from
    the excerpt: skip white space, then consume the next character. *)
Definition GetNextNonSpaceChar : M Z :=
  SkipSpaces ;;; GetNextChar.

(** [std::isdigit] on a [Char]. *)
Definition isdigit (c : Z) : bool := (chr "0" <=? c) && (c <=? chr "9").

(** ** The text reader, [JsonReader] *)

Module Text.
Section Reader.

(** [from_chars] and [std::strtof] convert a decimal literal to a [float];
    they come from [charconv.h] and the C library. [from_chars] gets the
    characters of the literal and may report an error; [strtof] gets the
    buffer from the start of the literal on. *)
Variable from_chars : buffer -> option Z.
Variable strtof : buffer -> Z.

(** [JsonReader::ParseString]: the loop after the opening quote, by
    recursion on the unread part; [n] counts the characters consumed. *)
Fixpoint ParseString_loop (u : buffer) (n : nat) (str : buffer)
  : M Json :=
  fun r =>
  match u with
  | [] =>
      (* GetNextChar answers -1, which is appended and then reported *)
      Expect (chr quote) EOF (Forward n r)
  | c :: u' =>
      let ch := to_Char c in
      if ch =? chr "\" then
        match u' with
        | [] => Error "Unknown escape" (Forward (S n) r)
        | c' :: u'' =>
            let next := to_Char c' in
            if next =? chr "r" then
              ParseString_loop u'' (S (S n)) (str ++ ["013"%char]) r
            else if next =? chr "n" then
              ParseString_loop u'' (S (S n)) (str ++ ["010"%char]) r
            else if next =? chr "\" then
              ParseString_loop u'' (S (S n)) (str ++ ["\"%char]) r
            else if next =? chr "t" then
              ParseString_loop u'' (S (S n)) (str ++ ["009"%char]) r
            else if next =? chr quote then
              ParseString_loop u'' (S (S n)) (str ++ [quote]) r
            else if next =? chr "u" then
              ParseString_loop u'' (S (S n)) (str ++ [c; "u"%char]) r
            else Error "Unknown escape" (Forward (S (S n)) r)
        end
      else if ch =? chr quote then
        Ok (JsonString str) (Forward (S n) r)
      else if (ch =? EOF) || (ch =? chr "013") || (ch =? chr "010") then
        Expect (chr quote) ch (Forward (S n) r)
      else ParseString_loop u' (S n) (str ++ [c]) r
  end.

Definition ParseString : M Json :=
  GetConsecutiveChar quote ;;;
  (fun r => ParseString_loop (unread r) 0 [] r).

(** [JsonReader::ParseNull]. *)
Definition ParseNull : M Json :=
  ch <- GetNextNonSpaceChar ;;
  c1 <- GetNextChar ;;
  c2 <- GetNextChar ;;
  c3 <- GetNextChar ;;
  if negb (equal Z.eqb [ch; c1; c2; c3] (map chr (lit "null")))
  then Error_ (lit "Expecting null value " ++ [quote] ++ lit "null" ++ [quote])
  else ret JsonNull.

(** [JsonReader::ParseBoolean]. *)
Definition ParseBoolean : M Json :=
  ch <- GetNextNonSpaceChar ;;
  if ch =? chr "t" then
    GetConsecutiveChar "r" ;;; GetConsecutiveChar "u" ;;;
    GetConsecutiveChar "e" ;;; ret (JsonBoolean true)
  else
    GetConsecutiveChar "a" ;;; GetConsecutiveChar "l" ;;;
    GetConsecutiveChar "s" ;;; GetConsecutiveChar "e" ;;;
    ret (JsonBoolean false).

(** *** [JsonReader::ParseNumber]

    The source scans with a [char const*] into the buffer; [*p] past the
    last character is the terminating NUL of the C string. *)
Definition deref (p : buffer) : Z :=
  match p with [] => 0 | c :: _ => to_Char c end.

(** The digit loop of [ParseNumber]: while [p] points at a digit, [i]
    becomes [i * 10 + digit] and [p] moves on; the result is [i], the new
    [p] and the number of steps. *)
Fixpoint scan_digits (p : buffer) (i : Z) : Z * buffer * nat :=
  match p with
  | [] => (i, p, O)
  | c :: p' =>
      if (chr "0" <=? to_Char c) && (to_Char c <=? chr "9") then
        let '(i', q, n) :=
          scan_digits p' (wrap64 (i * 10 + (to_Char c - chr "0"))) in
        (i', q, S n)
      else (i, p, O)
  end.

(** [GetConsecutiveChar] over each character of [s] in turn. *)
Fixpoint GetConsecutiveChars (s : buffer) : M unit :=
  match s with
  | [] => ret tt
  | c :: s' => GetConsecutiveChar c ;;; GetConsecutiveChars s'
  end.

Definition ParseNumber : M Json :=
  fun r =>
  let beg := unread r in
  if deref beg =? chr "N" then
    (GetConsecutiveChar "N" ;;; GetConsecutiveChar "a" ;;;
     GetConsecutiveChar "N" ;;; ret (JsonNumber Float.quiet_NaN)) r
  else
    (* sign *)
    let '(negative, p, d) :=
      if deref beg =? chr "-" then (true, tl beg, 1%nat)
      else if deref beg =? chr "+" then (false, tl beg, 1%nat)
      else (false, beg, 0%nat) in
    if deref p =? chr "I" then
      (GetConsecutiveChars (lit "Infinity") ;;;
       ret (JsonNumber (if negative then Float.neg32 Float.infinity
                        else Float.infinity))) (Forward d r)
    else
      let '(p, d) := if deref p =? chr "0" then (tl p, S d) else (p, d) in
      let '(i, p, n) := scan_digits p 0 in
      let d := (d + n)%nat in
      let '(is_float, i, p, d) :=
        if deref p =? chr "." then
          let '(i, p, n) := scan_digits (tl p) i in
          (true, i, p, (S d + n)%nat)
        else (false, i, p, d) in
      (* exponent: [None] when no digit follows *)
      let exponent :=
        if (deref p =? chr "E") || (deref p =? chr "e") then
          let '(p, d) := (tl p, S d) in
          let '(p, d) :=
            if (deref p =? chr "-") || (deref p =? chr "+")
            then (tl p, S d) else (p, d) in
          if (chr "0" <=? deref p) && (deref p <=? chr "9") then
            let '(_, p, n) := scan_digits (tl p) 0 in
            Some (true, p, (S d + n)%nat)
          else None
        else Some (is_float, p, d) in
      match exponent with
      | None => Error "Expecting digit" r
      | Some (is_float, p, moved) =>
          let r' := Forward moved r in
          if is_float then
            let f := match from_chars (firstn moved beg) with
                     | Some f => f
                     | None => strtof beg
                     end in
            Ok (JsonNumber f) r'
          else
            Ok (JsonInteger (if negative then wrap64 (- i) else i)) r'
      end.

(** *** [Parse], [ParseArray] and [ParseObject]

    The three call each other. Each is written here over the functions it
    calls; the recursion is tied below. *)

(** One turn of the [while (true)] of [ParseArray]; [data] holds the
    elements so far, [again] is the next turn. *)
Definition ParseArray_turn (Parse : M Json) (again : list Json -> M Json)
           (data : list Json) : M Json :=
  c <- PeekNextChar ;;
  if c =? chr "]" then
    GetConsecutiveChar "]" ;;; ret (JsonArray data)
  else
    obj <- Parse ;;
    let data := data ++ [obj] in
    ch <- GetNextNonSpaceChar ;;
    if ch =? chr "]" then ret (JsonArray data)
    else if negb (ch =? chr ",") then Expect (chr ",") ch
    else again data.

Definition ParseArray (loop : list Json -> M Json) : M Json :=
  GetConsecutiveChar "[" ;;; loop [].

(** One turn of the [while (true)] of [ParseObject]; [data] is the map so
    far. *)
Definition ParseObject_turn (Parse : M Json)
           (again : list (buffer * Json) -> M Json)
           (data : list (buffer * Json)) : M Json :=
  SkipSpaces ;;;
  ch <- PeekNextChar ;;
  if ch =? -1 then raise (Fatal (lit "Check failed: ch != -1"))
  else if negb (ch =? chr quote) then Expect (chr quote) ch
  else
    key <- ParseString ;;
    ch <- GetNextNonSpaceChar ;;
    if negb (ch =? chr ":") then Expect (chr ":") ch
    else
      value <- Parse ;;
      let data :=
        match key with
        | JsonString k => map_assign k value data
        | _ => data
        end in
      ch <- GetNextNonSpaceChar ;;
      if ch =? chr "}" then ret (JsonObject data)
      else if negb (ch =? chr ",") then Expect (chr ",") ch
      else again data.

Definition ParseObject (loop : list (buffer * Json) -> M Json) : M Json :=
  GetConsecutiveChar "{" ;;;
  SkipSpaces ;;;
  ch <- PeekNextChar ;;
  if ch =? chr "}" then
    GetConsecutiveChar "}" ;;; ret (JsonObject [])
  else loop [].

(** [JsonReader::Parse]. Every branch of its [while (true)] returns or
    raises, so the loop has a single turn: skip white space, look at the
    next character [c], and dispatch on it. *)
Definition Parse_dispatch (ParseObject ParseArray : M Json) (c : Z)
  : M Json :=
  if c =? -1 then ret JsonNull
  else if c =? chr "{" then ParseObject
  else if c =? chr "[" then ParseArray
  else if (c =? chr "-") || isdigit c || (c =? chr "N") || (c =? chr "I")
  then ParseNumber
  else if c =? chr quote then ParseString
  else if (c =? chr "t") || (c =? chr "f") then ParseBoolean
  else if c =? chr "n" then ParseNull
  else Error "Unknown construct".

Definition Parse_ (ParseObject ParseArray : M Json) : M Json :=
  SkipSpaces ;;;
  c <- PeekNextChar ;;
  Parse_dispatch ParseObject ParseArray c.

(** [fuel] bounds the calls to [Parse] and the turns of the two loops
    along one path. *)
Fixpoint Parse (fuel : nat) : M Json :=
  match fuel with
  | O => fun _ => OutOfFuel
  | S fuel' =>
      fun r => Parse_ (ParseObject (ParseObject_loop fuel'))
                      (ParseArray (ParseArray_loop fuel')) r
  end
with ParseArray_loop (fuel : nat) (data : list Json) : M Json :=
  match fuel with
  | O => fun _ => OutOfFuel
  | S fuel' =>
      fun r => ParseArray_turn (Parse fuel') (ParseArray_loop fuel') data r
  end
with ParseObject_loop (fuel : nat) (data : list (buffer * Json)) : M Json :=
  match fuel with
  | O => fun _ => OutOfFuel
  | S fuel' =>
      fun r => ParseObject_turn (Parse fuel') (ParseObject_loop fuel') data r
  end.

(** [JsonReader::Load] over a buffer. *)
Definition Load (fuel : nat) (str : buffer) : result Json :=
  Parse fuel (reader str).

End Reader.
Section Writer.

(** [to_chars] for [float] and [common::EscapeU8] come from [charconv.h]
    and [common.h]. *)
Variable to_chars_float : Z -> buffer.
Variable EscapeU8 : buffer -> buffer.

Section WriteArray.
Context {A : Type}.
Variable save : A -> buffer.

(** The elements of an array or the members of an object, each rendered by
    [save], with a comma after each but the last, as the loop of
    [JsonWriter::Visit] for [JsonObject] writes them. *)
Fixpoint comma_joined (vec : list A) : buffer :=
  match vec with
  | [] => []
  | [v] => save v
  | v :: vec' => save v ++ ","%char :: comma_joined vec'
  end.

(** Modelled from the spec: [JsonWriter::WriteArray], a template of
    [json_io.h], which is not part of the excerpt; the spec gives an array
    as "[ + comma-joined elements + ]". [save] stands for the call to
    [Save] on the element, boxed by the function [Visit] passes. *)
Definition WriteArray (vec : list A) : buffer :=
  "["%char :: comma_joined vec ++ ["]"%char].
End WriteArray.

(** [to_i64]: [static_cast<int64_t>] of an integer element. *)
Definition to_i64 (v : Z) : Z := wrap64 v.

Definition Visit_Number (f : Z) : buffer := to_chars_float f.
Definition Visit_Integer (i : Z) : buffer := to_chars_int64 i.
Definition Visit_String (str : buffer) : buffer :=
  [quote] ++ EscapeU8 str ++ [quote].

(** [JsonWriter::Save]: the characters the visit of [json] appends to
    [stream_]. No [JsonWriter::Visit] is defined for [F64Array]. *)
Fixpoint Save (json : Json) : buffer :=
  match json with
  | JsonArray vec => WriteArray Save vec
  | JsonTypedArray F32 vec => WriteArray Visit_Number vec
  | JsonTypedArray F64 vec => []
  | JsonTypedArray _ vec =>
      WriteArray (fun v => Visit_Integer (to_i64 v)) vec
  | JsonObject obj =>
      "{"%char ::
      comma_joined
        (fun value => Visit_String (fst value) ++ ":"%char :: Save (snd value))
        obj
      ++ ["}"%char]
  | JsonNumber num => Visit_Number num
  | JsonInteger num => Visit_Integer num
  | JsonNull => lit "null"
  | JsonString str => Visit_String str
  | JsonBoolean val => if val then lit "true" else lit "false"
  end.

(** Whether the text writer has a visit for every node of [json]. *)
Fixpoint writable (json : Json) : bool :=
  match json with
  | JsonArray vec => forallb writable vec
  | JsonObject obj => forallb (fun value => writable (snd value)) obj
  | JsonTypedArray F64 _ => false
  | _ => true
  end.

(** [Json::Dump(json, &str)] in text mode. *)
Definition Dump (json : Json) : option buffer :=
  if writable json then Some (Save json) else None.

End Writer.
End Text.

(** ** Big-endian primitives *)

(** [sizeof(T)] for the element types. *)
Definition sizeof (t : ElemType) : nat :=
  match t with
  | I8 | U8 => 1
  | I16 | U16 => 2
  | F32 | I32 | U32 => 4
  | F64 | I64 | U64 => 8
  end%nat.

Definition is_signed (t : ElemType) : bool :=
  match t with
  | I8 | I16 | I32 | I64 => true
  | _ => false
  end.

(** The value of type [T] whose object representation, read as an unsigned
    number, is [u]. *)
Definition of_unsigned (t : ElemType) (u : Z) : Z :=
  if is_signed t then signed (8 * Z.of_nat (sizeof t)) u else u.

(** The values a [T] can hold: bit patterns for the float types. *)
Definition in_range (t : ElemType) (v : Z) : bool :=
  let w := 8 * Z.of_nat (sizeof t) in
  if is_signed t then (- 2 ^ (w - 1) <=? v) && (v <? 2 ^ (w - 1))
  else (0 <=? v) && (v <? 2 ^ w).

(** [ToBigEndian] followed by [memcpy]: the [n] low bytes of [v], most
    significant first. *)
Fixpoint big_endian (n : nat) (v : Z) : buffer :=
  match n with
  | O => []
  | S n' => byte_of (Z.shiftr v (8 * Z.of_nat n')) :: big_endian n' v
  end.

(** The unsigned number a run of bytes spells, most significant first. *)
Fixpoint from_big_endian (bs : buffer) (acc : Z) : Z :=
  match bs with
  | [] => acc
  | b :: bs' => from_big_endian bs' (acc * 256 + byte_val b)
  end.

(** [WritePrimitive]. *)
Definition WritePrimitive (t : ElemType) (v : Z) : buffer :=
  big_endian (sizeof t) v.

(** ** The binary reader, [UBJReader] *)

Module UBJ.

(** Modelled from the spec: [UBJReader::ReadPrimitive], a template of
    [json_io.h], which is not part of the excerpt. The spec gives every
    multi-byte primitive as fixed-width big-endian; [WritePrimitive] of
    [json.cc] is the mirror image. The source copies [sizeof(T)] bytes from
    the cursor without looking at the size of the buffer: a read that would
    pass its end is the [OutOfBounds] failure here. *)
Definition ReadPrimitive (t : ElemType) : M Z :=
  fun r =>
    if (length (unread r) <? sizeof t)%nat then Fail OutOfBounds
    else Ok (of_unsigned t (from_big_endian (firstn (sizeof t) (unread r)) 0))
            (Forward (sizeof t) r).

(** [n] primitives of type [t], one after the other. *)
Fixpoint ReadElements (t : ElemType) (n : nat) : M (list Z) :=
  match n with
  | O => ret []
  | S n' =>
      v <- ReadPrimitive t ;;
      vs <- ReadElements t n' ;;
      ret (v :: vs)
  end.

(** A container sized by a negative count: [static_cast<size_t>] makes the
    size exceed [max_size()]. *)
Definition length_error {A} : M A := raise (Fatal (lit "std::length_error")).

(** Modelled from the spec: [UBJReader::ParseTypedArray], a template of
    [json_io.h], which is not part of the excerpt. The spec gives a typed
    array as the count followed by the "raw big-endian elements packed
    contiguously with no padding"; [WriteTypedArray] of [json.cc] is the
    mirror image. *)
Definition ParseTypedArray (t : ElemType) (n : Z) : M Json :=
  if n <? 0 then length_error
  else
    vs <- ReadElements t (Z.to_nat n) ;;
    ret (JsonTypedArray t vs).

(** [UBJReader::DecodeStr]. *)
Definition DecodeStr : M buffer :=
  GetConsecutiveChar "L" ;;;
  bsize <- ReadPrimitive I64 ;;
  if bsize <? 0 then length_error
  else
    fun r =>
      if (length (unread r) <? Z.to_nat bsize)%nat then Fail OutOfBounds
      else Ok (firstn (Z.to_nat bsize) (unread r))
              (Forward (Z.to_nat bsize) r).

(** The typed branch of [UBJReader::ParseArray], after [$] was seen. *)
Definition ParseArray_typed : M Json :=
  GetNextChar ;;;
  type <- GetNextChar ;;
  GetConsecutiveChar "#" ;;;
  GetConsecutiveChar "L" ;;;
  n <- ReadPrimitive I64 ;;
  if type =? chr "d" then ParseTypedArray F32 n
  else if type =? chr "D" then ParseTypedArray F64 n
  else if type =? chr "i" then ParseTypedArray I8 n
  else if type =? chr "U" then ParseTypedArray U8 n
  else if type =? chr "I" then ParseTypedArray I16 n
  else if type =? chr "l" then ParseTypedArray I32 n
  else if type =? chr "L" then ParseTypedArray I64 n
  else raise (Fatal ([ "`"%char; byte_of type; "`"%char ]
                     ++ lit " is not supported for typed array.")).

(** *** [Parse], [ParseArray] and [ParseObject]

    Each is written over the functions it calls; the recursion is tied
    below. *)

(** The counted loop of [ParseArray]: [results[i] = Parse()], [k] times. *)
Definition ParseArray_counted (Parse : M Json)
  : nat -> list Json -> M Json :=
  fix counted (k : nat) (results : list Json) : M Json :=
    match k with
    | O => ret (JsonArray results)
    | S k' =>
        v <- Parse ;;
        counted k' (results ++ [v])
    end.

(** One turn of the uncounted loop of [ParseArray],
    [while (marker != ']')], and what follows it. *)
Definition ParseArray_turn (Parse : M Json) (again : list Json -> M Json)
           (results : list Json) : M Json :=
  marker <- PeekNextChar ;;
  if marker =? chr "]" then
    GetConsecutiveChar "]" ;;; ret (JsonArray results)
  else
    v <- Parse ;;
    again (results ++ [v]).

Definition ParseArray (Parse : M Json) (loop : list Json -> M Json)
  : M Json :=
  marker <- PeekNextChar ;;
  if marker =? chr "$" then ParseArray_typed
  else if marker =? chr "#" then
    GetNextChar ;;;
    GetConsecutiveChar "L" ;;;
    n <- ReadPrimitive I64 ;;
    if n <? 0 then length_error
    else ParseArray_counted Parse (Z.to_nat n) []
  else loop [].

(** One turn of the loop of [ParseObject], [while (marker != '}')], and
    what follows it. *)
Definition ParseObject_turn (Parse : M Json)
           (again : list (buffer * Json) -> M Json)
           (results : list (buffer * Json)) : M Json :=
  marker <- PeekNextChar ;;
  if marker =? chr "}" then
    GetConsecutiveChar "}" ;;; ret (JsonObject results)
  else
    str <- DecodeStr ;;
    v <- Parse ;;
    again (map_emplace str v results).

(** [UBJReader::Parse]. *)
Definition Parse_ (ParseObject ParseArray : M Json) : M Json :=
  c <- PeekNextChar ;;
  if c =? -1 then ret JsonNull
  else
    GetNextChar ;;;
    if c =? chr "{" then ParseObject
    else if c =? chr "[" then ParseArray
    else if c =? chr "Z" then ret JsonNull
    else if c =? chr "T" then ret (JsonBoolean true)
    else if c =? chr "F" then ret (JsonBoolean false)
    else if c =? chr "d" then
      v <- ReadPrimitive F32 ;; ret (JsonNumber v)
    else if c =? chr "D" then
      v <- ReadPrimitive F64 ;; ret (JsonNumber (Float.double_to_float v))
    else if c =? chr "S" then
      str <- DecodeStr ;; ret (JsonString str)
    else if c =? chr "i" then
      i <- ReadPrimitive I8 ;; ret (JsonInteger i)
    else if c =? chr "U" then
      i <- ReadPrimitive U8 ;; ret (JsonInteger i)
    else if c =? chr "I" then
      i <- ReadPrimitive I16 ;; ret (JsonInteger i)
    else if c =? chr "l" then
      i <- ReadPrimitive I32 ;; ret (JsonInteger i)
    else if c =? chr "L" then
      i <- ReadPrimitive I64 ;; ret (JsonInteger i)
    else if c =? chr "C" then
      i <- ReadPrimitive I8 ;; ret (JsonInteger i)
    else if c =? chr "H" then
      raise (Fatal (lit "High precision number is not supported."))
    else Error "Unknown construct".

(** [fuel] bounds the calls to [Parse] and the turns of the two uncounted
    loops along one path. *)
Fixpoint Parse (fuel : nat) : M Json :=
  match fuel with
  | O => fun _ => OutOfFuel
  | S fuel' =>
      fun r => Parse_ (ParseObject_loop fuel' [])
                      (ParseArray (Parse fuel') (ParseArray_loop fuel')) r
  end
with ParseArray_loop (fuel : nat) (results : list Json) : M Json :=
  match fuel with
  | O => fun _ => OutOfFuel
  | S fuel' =>
      fun r =>
        ParseArray_turn (Parse fuel') (ParseArray_loop fuel') results r
  end
with ParseObject_loop (fuel : nat) (results : list (buffer * Json))
  : M Json :=
  match fuel with
  | O => fun _ => OutOfFuel
  | S fuel' =>
      fun r =>
        ParseObject_turn (Parse fuel') (ParseObject_loop fuel') results r
  end.

(** [UBJReader::Load] over a buffer. *)
Definition Load (fuel : nat) (str : buffer) : result Json :=
  Parse fuel (reader str).

(** *** The binary writer, [UBJWriter] *)

(** [EncodeStr]. *)
Definition EncodeStr (string : buffer) : buffer :=
  ["L"%char] ++ WritePrimitive I64 (Z.of_nat (length string)) ++ string.

(** The marker [WriteTypedArray] picks for [T]; none for the three element
    types that end in [LOG(FATAL) << "Not implemented"], for which no
    [Visit] calls it. *)
Definition type_marker (t : ElemType) : option ascii :=
  match t with
  | F32 => Some "d"%char
  | F64 => Some "D"%char
  | I8 => Some "i"%char
  | U8 => Some "U"%char
  | I16 => Some "I"%char
  | I32 => Some "l"%char
  | I64 => Some "L"%char
  | U16 | U32 | U64 => None
  end.

(** [WriteTypedArray]: what it appends to the stream. For an element type
    without a marker the source stops in [LOG(FATAL)] behind the first two
    bytes; [Save] below never gets there. *)
Definition WriteTypedArray (t : ElemType) (vec : list Z) : buffer :=
  match type_marker t with
  | Some m =>
      ["["%char; "$"%char; m; "#"%char; "L"%char]
      ++ WritePrimitive I64 (Z.of_nat (length vec))
      ++ concat (map (WritePrimitive t) vec)
  | None => ["["%char; "$"%char]
  end.

(** [UBJWriter::Visit(JsonInteger const* )]. *)
Definition Visit_Integer (i : Z) : buffer :=
  if (-128 <? i) && (i <? 127) then "i"%char :: WritePrimitive I8 i
  else if (-32768 <? i) && (i <? 32767) then "I"%char :: WritePrimitive I16 i
  else if (-2147483648 <? i) && (i <? 2147483647)
  then "l"%char :: WritePrimitive I32 i
  else "L"%char :: WritePrimitive I64 i.

(** [UBJWriter::Save]: the bytes the visit of [json] appends to
    [stream_]. [UBJWriter] has a [Visit] of its own for seven of the typed
    arrays, which goes to [WriteTypedArray]. A [U16Array], a [U32Array] and
    a [U64Array] are visited by the [JsonWriter::Visit] it inherits:
    [WriteArray] with [to_i64], where the [Save] of each element is the
    one of [UBJWriter]. *)
Fixpoint Save (json : Json) : buffer :=
  match json with
  | JsonArray vec =>
      ["["%char; "#"%char; "L"%char]
      ++ WritePrimitive I64 (Z.of_nat (length vec))
      ++ flat_map Save vec
  | JsonTypedArray t vec =>
      match t with
      | U16 | U32 | U64 =>
          Text.WriteArray (fun v => Visit_Integer (Text.to_i64 v)) vec
      | _ => WriteTypedArray t vec
      end
  | JsonObject obj =>
      ["{"%char]
      ++ flat_map (fun value => EncodeStr (fst value) ++ Save (snd value)) obj
      ++ ["}"%char]
  | JsonNumber val => "d"%char :: WritePrimitive F32 val
  | JsonInteger i => Visit_Integer i
  | JsonNull => ["Z"%char]
  | JsonString str => "S"%char :: EncodeStr str
  | JsonBoolean b => [if b then "T"%char else "F"%char]
  end.

(** Whether every typed array of [json] is of one of the seven kinds
    [UBJWriter] has a [Visit] of its own for, the kinds [WriteTypedArray]
    has a type code for: these are written as typed arrays. *)
Fixpoint writable (json : Json) : bool :=
  match json with
  | JsonArray vec => forallb writable vec
  | JsonObject obj => forallb (fun value => writable (snd value)) obj
  | JsonTypedArray t _ =>
      match type_marker t with Some _ => true | None => false end
  | _ => true
  end.

(** [Json::Dump(json, &str, std::ios::binary)]: every kind of node has a
    visit, of [UBJWriter] or inherited, and none of them raises. *)
Definition Dump (json : Json) : option buffer := Some (Save json).

End UBJ.

(** ** Vocabulary of the properties *)

(** [std::string::find]: the index of the first [c] in [s]. *)
Fixpoint index_of (c : ascii) (s : buffer) : option nat :=
  match s with
  | [] => None
  | x :: s' =>
      if Ascii.eqb x c then Some O
      else match index_of c s' with
           | Some n => Some (S n)
           | None => None
           end
  end.

Definition newline : ascii := "010"%char.

(** The input of the error-locality property: an object whose only member
    has no value. *)
Definition missing_value : buffer :=
  lit "{" ++ [quote] ++ lit "a" ++ [quote] ++ lit ": }".

(** A buffer of spaces, tabs, carriage returns and newlines only. *)
Definition whitespace_only (s : buffer) : bool :=
  forallb (fun c => IsSpace (to_Char c)) s.

(** The largest of [f x] over the elements of a list. *)
Section MaxOf.
Context {A : Type}.
Variable f : A -> nat.

Fixpoint max_of (l : list A) : nat :=
  match l with
  | [] => O
  | x :: l' => Nat.max (f x) (max_of l')
  end.
End MaxOf.

(** A container size that fits [int64_t], as the writer assumes when it
    stores [size()] in one. *)
Definition fits_int64 (n : nat) : bool := Z.of_nat n <? 2 ^ 63.

(** Documents the value model can hold: every integer in the range of its
    type, every float a bit pattern of its width, every map ordered by its
    keys, every size within [int64_t]. *)
Fixpoint well_formed (json : Json) : bool :=
  match json with
  | JsonInteger i => in_range I64 i
  | JsonNumber f => in_range F32 f
  | JsonString s => fits_int64 (length s)
  | JsonArray vec => fits_int64 (length vec) && forallb well_formed vec
  | JsonObject obj =>
      map_sorted obj &&
      forallb (fun e => fits_int64 (length (fst e)) && well_formed (snd e)) obj
  | JsonTypedArray t vec =>
      fits_int64 (length vec) && forallb (in_range t) vec
  | _ => true
  end.

(** Fuel that suffices for the binary reader to read back the dump of a
    document: one unit per level of nesting, and one per member of an
    object. *)
Fixpoint fuel_of (json : Json) : nat :=
  match json with
  | JsonArray vec => S (max_of fuel_of vec)
  | JsonObject obj =>
      S (length obj + S (max_of (fun e => fuel_of (snd e)) obj))
  | _ => 1
  end.

(** No [F64Array] of the document holds a NaN. *)
Fixpoint nan_free (json : Json) : bool :=
  match json with
  | JsonArray vec => forallb nan_free vec
  | JsonObject obj => forallb (fun e => nan_free (snd e)) obj
  | JsonTypedArray F64 vec =>
      forallb (fun v => negb (Float.is_nan (Float.of_bits64 v))) vec
  | _ => true
  end.

(** The integer type a marker of the binary format announces. *)
Definition marker_type (m : ascii) : option ElemType :=
  if Ascii.eqb m "i" then Some I8
  else if Ascii.eqb m "I" then Some I16
  else if Ascii.eqb m "l" then Some I32
  else if Ascii.eqb m "L" then Some I64
  else None.

(** In the words of the spec: the smallest marker whose range holds the
    value, in the ascending order [i], [I], [l], [L]. *)
Definition smallest_marker (v : Z) : ascii :=
  if in_range I8 v then "i"%char
  else if in_range I16 v then "I"%char
  else if in_range I32 v then "l"%char
  else "L"%char.

(** The least and the greatest value of the three narrow integer types. *)
Definition is_limit (v : Z) : bool :=
  existsb (Z.eqb v) [-128; 127; -32768; 32767; -2147483648; 2147483647].

(** With [fuel], the binary reader reads [d] back from its dump, whatever
    surrounds the dump in the buffer, and stops right behind it. *)
Definition reads_back (fuel : nat) (d : Json) : Prop :=
  forall raw pos rest,
    UBJ.Parse fuel (mkReader raw pos (UBJ.Save d ++ rest))
    = Ok d (mkReader raw (pos + length (UBJ.Save d)) rest).

(** A document with a member of each shape the binary writer handles. *)
Definition sample_document : Json :=
  JsonObject
    [ (lit "a", JsonArray [JsonInteger 200; JsonNumber Float.quiet_NaN;
                           JsonNull; JsonBoolean true]);
      (lit "b", JsonTypedArray F32 [0x3F800000; Float.infinity]);
      (lit "c", JsonTypedArray I16 [-5; 300]);
      (lit "d", JsonString (lit "text")) ].

(** A binary buffer for an object with the key [a] twice: first with the
    value 1, then with the value 2. *)
Definition duplicate_key_binary : buffer :=
  lit "{" ++ UBJ.EncodeStr (lit "a") ++ UBJ.Save (JsonInteger 1)
          ++ UBJ.EncodeStr (lit "a") ++ UBJ.Save (JsonInteger 2) ++ lit "}".

(** The same object as text. *)
Definition duplicate_key_text : buffer :=
  lit "{" ++ [quote] ++ lit "a" ++ [quote] ++ lit ":1,"
          ++ [quote] ++ lit "a" ++ [quote] ++ lit ":2}".

(** [text] is an element the text reader reads as [v]: wherever [text] is
    followed by a comma or by a closing bracket, [Parse] consumes exactly
    [text] and answers [v]. *)
Definition element (from_chars : buffer -> option Z) (strtof : buffer -> Z)
           (fuel : nat) (text : buffer) (v : Json) : Prop :=
  forall c raw pos rest,
    c = ","%char \/ c = "]"%char ->
    Text.Parse from_chars strtof fuel (mkReader raw pos (text ++ c :: rest))
    = Ok v (mkReader raw (pos + length text) (c :: rest)).

(** A decimal digit. *)
Definition is_digit (c : ascii) : bool :=
  (chr "0" <=? to_Char c) && (to_Char c <=? chr "9").

(** The number a run of digits spells after the digits that gave [a]. *)
Fixpoint horner (digits : buffer) (a : Z) : Z :=
  match digits with
  | [] => a
  | c :: digits' => horner digits' (a * 10 + (to_Char c - chr "0"))
  end.

(** The same in [int64_t] arithmetic, as [ParseNumber] accumulates it. *)
Fixpoint horner64 (digits : buffer) (a : Z) : Z :=
  match digits with
  | [] => a
  | c :: digits' => horner64 digits' (wrap64 (a * 10 + (to_Char c - chr "0")))
  end.

(** The ordinary [Array] a typed array degrades to: each element boxed as
    the text writer boxes it, a [float] as [Number], an integer as
    [Integer] through [static_cast<int64_t>]; a [double] would be narrowed
    to the [float] of [Number]. *)
Definition reboxed (t : ElemType) (vec : list Z) : Json :=
  JsonArray
    (map (fun v => match t with
                   | F32 => JsonNumber v
                   | F64 => JsonNumber (Float.double_to_float v)
                   | _ => JsonInteger (Text.to_i64 v)
                   end) vec).

(** Every answer of [c] satisfies [P]. *)
Definition yields {A} (P : A -> Prop) (c : M A) : Prop :=
  forall r a r', c r = Ok a r' -> P a.

(** A document whose typed arrays are of the seven kinds with a type
    code. *)
Definition writable_answer (v : Json) : Prop := UBJ.writable v = true.

(** A character the text reader takes into a string as it stands: not a
    backslash, a double quote, a line break or the byte that reads as
    [EOF]. *)
Definition plain_char (c : ascii) : bool :=
  negb ((to_Char c =? chr "\") || (to_Char c =? chr quote)
        || (to_Char c =? EOF) || (to_Char c =? chr "013")
        || (to_Char c =? chr "010")).

Definition plain_string (s : buffer) : bool := forallb plain_char s.

(** A string written with the five escapes [ParseString] decodes. *)
Fixpoint escaped (s : buffer) : buffer :=
  match s with
  | [] => []
  | c :: s' =>
      (if Ascii.eqb c "013" then lit "\r"
       else if Ascii.eqb c "010" then lit "\n"
       else if Ascii.eqb c "\" then lit "\\"
       else if Ascii.eqb c "009" then lit "\t"
       else if Ascii.eqb c quote then ["\"%char; quote]
       else [c]) ++ escaped s'
  end.

(** No byte of the string reads as [EOF]. *)
Definition no_EOF (s : buffer) : bool :=
  forallb (fun c => negb (to_Char c =? EOF)) s.

(** What ends a value in a text: the end of the buffer, a comma, a closing
    bracket, a closing brace or white space. *)
Definition delimited (rest : buffer) : bool :=
  match rest with
  | [] => true
  | c :: _ =>
      Ascii.eqb c "," || Ascii.eqb c "]" || Ascii.eqb c "}"
      || IsSpace (to_Char c)
  end.

(** Every object of the document has its keys in strictly increasing
    order, so none of them twice. *)
Fixpoint maps_sorted (json : Json) : bool :=
  match json with
  | JsonArray vec => forallb maps_sorted vec
  | JsonObject obj =>
      map_sorted obj && forallb (fun e => maps_sorted (snd e)) obj
  | _ => true
  end.

(** [x] is below the first key of [m]. *)
Definition below_keys {V} (x : buffer) (m : list (buffer * V)) : Prop :=
  match m with
  | [] => True
  | (k, _) :: _ => buffer_ltb x k = true
  end.

(** A document with its objects in order. *)
Definition sorted_answer (v : Json) : Prop := maps_sorted v = true.

(** An object with its members out of order, as text and in binary. *)
Definition unordered_text : buffer :=
  lit "{" ++ [quote] ++ lit "b" ++ [quote] ++ lit ":1,"
          ++ [quote] ++ lit "a" ++ [quote] ++ lit ":2}".

Definition unordered_binary : buffer :=
  lit "{" ++ UBJ.EncodeStr (lit "b") ++ UBJ.Save (JsonInteger 1)
          ++ UBJ.EncodeStr (lit "a") ++ UBJ.Save (JsonInteger 2) ++ lit "}".

(** Documents the text codec carries unchanged: built from [Null],
    [Boolean], [Integer], [String], [Array] and [Object], every string a
    plain one that [EscapeU8] leaves as it is, every map ordered by its
    keys. A [Number] goes through the conversions of [charconv.h], and a
    typed array comes back as an [Array]. *)
Section TextSafe.
Variable EscapeU8 : buffer -> buffer.

Definition unescaped (s : buffer) : bool :=
  plain_string s && buffer_eqb (EscapeU8 s) s.

Fixpoint text_safe (json : Json) : bool :=
  match json with
  | JsonNull | JsonBoolean _ => true
  | JsonInteger i => in_range I64 i
  | JsonString s => unescaped s
  | JsonArray vec => forallb text_safe vec
  | JsonObject obj =>
      map_sorted obj &&
      forallb (fun e => unescaped (fst e) && text_safe (snd e)) obj
  | JsonNumber _ | JsonTypedArray _ _ => false
  end.
End TextSafe.

(** Fuel that suffices for the text reader to read back the text of a
    document: one unit per level of nesting, and one per element of an
    array and per member of an object. *)
Fixpoint text_fuel_of (json : Json) : nat :=
  match json with
  | JsonArray vec => S (length vec + S (max_of text_fuel_of vec))
  | JsonObject obj =>
      S (length obj + S (max_of (fun e => text_fuel_of (snd e)) obj))
  | _ => 1
  end.

(** With [fuel], the text reader reads [d] back from its text wherever the
    text is followed by something that ends a value, and stops right
    behind it. *)
Definition reads_text (to_chars_float : Z -> buffer)
           (EscapeU8 : buffer -> buffer) (from_chars : buffer -> option Z)
           (strtof : buffer -> Z) (fuel : nat) (d : Json) : Prop :=
  forall raw pos rest,
    delimited rest = true ->
    Text.Parse from_chars strtof fuel
      (mkReader raw pos (Text.Save to_chars_float EscapeU8 d ++ rest))
    = Ok d (mkReader raw
              (pos + length (Text.Save to_chars_float EscapeU8 d)) rest).

(** A member of an object as the text writer renders it: the key between
    double quotes, a colon, the value. *)
Definition written_member (to_chars_float : Z -> buffer)
           (EscapeU8 : buffer -> buffer) (e : buffer * Json) : buffer :=
  Text.Visit_String EscapeU8 (fst e)
  ++ ":"%char :: Text.Save to_chars_float EscapeU8 (snd e).

(** A document with a member of each shape the text codec carries
    unchanged. *)
Definition text_sample : Json :=
  JsonObject
    [ (lit "a", JsonArray [JsonInteger (-12); JsonNull; JsonBoolean true;
                           JsonArray []]);
      (lit "b", JsonString (lit "text"));
      (lit "c", JsonObject [(lit "d", JsonInteger 0)]) ].

(** The markers [UBJReader::Parse] has a case for. *)
Definition known_markers : buffer := lit "{[ZTFdDSiUIlLCH".

(** The type codes of the typed arrays [UBJReader::ParseArray] has a case
    for. *)
Definition known_types : buffer := lit "dDiUIlL".

(** A character [Error] spells out with two characters in its excerpt: a
    newline or a NUL. *)
Definition spelled_out (c : ascii) : bool :=
  Ascii.eqb c "010" || Ascii.eqb c "000".






(** * Properties *)

(** ** Induction over documents *)

Section Json_induction.
Variable P : Json -> Prop.
Hypothesis HNull : P JsonNull.
Hypothesis HBoolean : forall b, P (JsonBoolean b).
Hypothesis HInteger : forall i, P (JsonInteger i).
Hypothesis HNumber : forall f, P (JsonNumber f).
Hypothesis HString : forall s, P (JsonString s).
Hypothesis HArray : forall vec, Forall P vec -> P (JsonArray vec).
Hypothesis HObject :
  forall obj, Forall (fun e => P (snd e)) obj -> P (JsonObject obj).
Hypothesis HTyped : forall t vec, P (JsonTypedArray t vec).

Fixpoint Json_ind (j : Json) : P j :=
  match j with
  | JsonNull => HNull
  | JsonBoolean b => HBoolean b
  | JsonInteger i => HInteger i
  | JsonNumber f => HNumber f
  | JsonString s => HString s
  | JsonArray vec =>
      HArray vec
        ((fix all (l : list Json) : Forall P l :=
            match l with
            | [] => Forall_nil _
            | x :: l' => Forall_cons x (Json_ind x) (all l')
            end) vec)
  | JsonObject obj =>
      HObject obj
        ((fix all (l : list (buffer * Json))
            : Forall (fun e => P (snd e)) l :=
            match l with
            | [] => Forall_nil _
            | e :: l' => Forall_cons e (Json_ind (snd e)) (all l')
            end) obj)
  | JsonTypedArray t vec => HTyped t vec
  end.
End Json_induction.

(** ** Fuel: more of it never changes an answer *)

(** [x] is [OutOfFuel], or already the answer [y]. *)
Definition below {A} (x y : result A) : Prop := x = OutOfFuel \/ x = y.

Definition below_M {A} (c d : M A) : Prop := forall r, below (c r) (d r).

Lemma below_refl {A} (x : result A) : below x x.
Proof. now right. Qed.

Lemma below_M_refl {A} (c : M A) : below_M c c.
Proof. intro r. apply below_refl. Qed.

Lemma below_M_bind {A B} (c d : M A) (k l : A -> M B) :
  below_M c d -> (forall a, below_M (k a) (l a)) ->
  below_M (bind c k) (bind d l).
Proof.
  intros Hc Hk r. unfold bind.
  destruct (Hc r) as [E | E]; rewrite E.
  - now left.
  - destruct (d r); try apply below_refl. apply Hk.
Qed.

Lemma below_M_out {A} (d : M A) : below_M (fun _ => OutOfFuel) d.
Proof. intro r. now left. Qed.

Lemma below_answer {A} (x y : result A) :
  below x y -> x <> OutOfFuel -> y = x.
Proof. intros [E | E] N; congruence. Qed.

(** Goals of the shape [below_M body body'], the two bodies differing only
    in the callees. *)
Ltac below_step :=
  first
    [ assumption
    | match goal with H : forall x, below_M _ _ |- _ => apply H end
    | apply below_M_refl
    | apply below_M_bind; [ | intros ? ]
    | match goal with
      | |- below_M (if ?b then _ else _) (if ?b then _ else _) => destruct b
      end ].

Ltac below_auto := repeat below_step.

Module TextFuel.
Section Fuel.
Variable from_chars : buffer -> option Z.
Variable strtof : buffer -> Z.

Abbreviation Parse := (Text.Parse from_chars strtof).
Abbreviation ParseArray_loop := (Text.ParseArray_loop from_chars strtof).
Abbreviation ParseObject_loop := (Text.ParseObject_loop from_chars strtof).

Lemma Text_ParseArray_turn_below P P' a a' data :
  below_M P P' -> (forall d, below_M (a d) (a' d)) ->
  below_M (Text.ParseArray_turn P a data) (Text.ParseArray_turn P' a' data).
Proof. intros HP Ha. unfold Text.ParseArray_turn. below_auto. Qed.

Lemma Text_ParseObject_turn_below P P' a a' data :
  below_M P P' -> (forall d, below_M (a d) (a' d)) ->
  below_M (Text.ParseObject_turn P a data)
          (Text.ParseObject_turn P' a' data).
Proof. intros HP Ha. unfold Text.ParseObject_turn. below_auto. Qed.

Lemma Text_Parse__below po po' pa pa' :
  below_M po po' -> below_M pa pa' ->
  below_M (Text.Parse_ from_chars strtof po pa)
          (Text.Parse_ from_chars strtof po' pa').
Proof.
  intros Ho Ha. unfold Text.Parse_, Text.Parse_dispatch. below_auto.
Qed.

Lemma Text_Parse_step fuel :
  below_M (Parse fuel) (Parse (S fuel)) /\
  (forall d, below_M (ParseArray_loop fuel d) (ParseArray_loop (S fuel) d)) /\
  (forall d, below_M (ParseObject_loop fuel d)
                     (ParseObject_loop (S fuel) d)).
Proof.
  induction fuel as [| fuel (IHP & IHA & IHO)].
  - repeat split; intros; apply below_M_out.
  - repeat split; intros.
    + change (below_M
        (Text.Parse_ from_chars strtof
           (Text.ParseObject (ParseObject_loop fuel))
           (Text.ParseArray (ParseArray_loop fuel)))
        (Text.Parse_ from_chars strtof
           (Text.ParseObject (ParseObject_loop (S fuel)))
           (Text.ParseArray (ParseArray_loop (S fuel))))).
      apply Text_Parse__below.
      * unfold Text.ParseObject. below_auto.
      * unfold Text.ParseArray. below_auto.
    + change (below_M
        (Text.ParseArray_turn (Parse fuel) (ParseArray_loop fuel) d)
        (Text.ParseArray_turn (Parse (S fuel)) (ParseArray_loop (S fuel)) d)).
      now apply Text_ParseArray_turn_below.
    + change (below_M
        (Text.ParseObject_turn (Parse fuel)
           (ParseObject_loop fuel) d)
        (Text.ParseObject_turn (Parse (S fuel))
           (ParseObject_loop (S fuel)) d)).
      now apply Text_ParseObject_turn_below.
Qed.

(** An answer reached with [fuel] stands with any larger fuel. *)
Lemma Text_Parse_more fuel k r :
  Parse fuel r <> OutOfFuel -> Parse (k + fuel) r = Parse fuel r.
Proof.
  intros N. induction k as [| k IH]; [reflexivity |].
  simpl Nat.add. rewrite <- IH.
  apply below_answer; [apply Text_Parse_step | congruence].
Qed.

Lemma Text_Load_more fuel k str :
  Text.Load from_chars strtof fuel str <> OutOfFuel ->
  Text.Load from_chars strtof (k + fuel) str
  = Text.Load from_chars strtof fuel str.
Proof. apply Text_Parse_more. Qed.

End Fuel.
End TextFuel.

Module UBJFuel.

Lemma UBJ_ParseArray_counted_below P P' k :
  below_M P P' ->
  forall results,
    below_M (UBJ.ParseArray_counted P k results)
            (UBJ.ParseArray_counted P' k results).
Proof.
  intros HP. induction k as [| k IH]; intros results; simpl.
  - apply below_M_refl.
  - below_auto.
Qed.

Lemma UBJ_ParseArray_below P P' l l' :
  below_M P P' -> (forall d, below_M (l d) (l' d)) ->
  below_M (UBJ.ParseArray P l) (UBJ.ParseArray P' l').
Proof.
  intros HP Hl. unfold UBJ.ParseArray.
  do 7 below_step; try apply below_M_refl.
  now apply UBJ_ParseArray_counted_below.
Qed.

Lemma UBJ_ParseArray_turn_below P P' a a' results :
  below_M P P' -> (forall d, below_M (a d) (a' d)) ->
  below_M (UBJ.ParseArray_turn P a results)
          (UBJ.ParseArray_turn P' a' results).
Proof. intros HP Ha. unfold UBJ.ParseArray_turn. below_auto. Qed.

Lemma UBJ_ParseObject_turn_below P P' a a' results :
  below_M P P' -> (forall d, below_M (a d) (a' d)) ->
  below_M (UBJ.ParseObject_turn P a results)
          (UBJ.ParseObject_turn P' a' results).
Proof. intros HP Ha. unfold UBJ.ParseObject_turn. below_auto. Qed.

Lemma UBJ_Parse__below po po' pa pa' :
  below_M po po' -> below_M pa pa' ->
  below_M (UBJ.Parse_ po pa) (UBJ.Parse_ po' pa').
Proof. intros Ho Ha. unfold UBJ.Parse_. below_auto. Qed.

Lemma UBJ_Parse_step fuel :
  below_M (UBJ.Parse fuel) (UBJ.Parse (S fuel)) /\
  (forall d, below_M (UBJ.ParseArray_loop fuel d)
                     (UBJ.ParseArray_loop (S fuel) d)) /\
  (forall d, below_M (UBJ.ParseObject_loop fuel d)
                     (UBJ.ParseObject_loop (S fuel) d)).
Proof.
  induction fuel as [| fuel (IHP & IHA & IHO)].
  - repeat split; intros; apply below_M_out.
  - repeat split; intros.
    + change (below_M
        (UBJ.Parse_ (UBJ.ParseObject_loop fuel [])
           (UBJ.ParseArray (UBJ.Parse fuel) (UBJ.ParseArray_loop fuel)))
        (UBJ.Parse_ (UBJ.ParseObject_loop (S fuel) [])
           (UBJ.ParseArray (UBJ.Parse (S fuel))
              (UBJ.ParseArray_loop (S fuel))))).
      apply UBJ_Parse__below; [apply IHO | now apply UBJ_ParseArray_below].
    + change (below_M
        (UBJ.ParseArray_turn (UBJ.Parse fuel) (UBJ.ParseArray_loop fuel) d)
        (UBJ.ParseArray_turn (UBJ.Parse (S fuel))
           (UBJ.ParseArray_loop (S fuel)) d)).
      now apply UBJ_ParseArray_turn_below.
    + change (below_M
        (UBJ.ParseObject_turn (UBJ.Parse fuel) (UBJ.ParseObject_loop fuel) d)
        (UBJ.ParseObject_turn (UBJ.Parse (S fuel))
           (UBJ.ParseObject_loop (S fuel)) d)).
      now apply UBJ_ParseObject_turn_below.
Qed.

(** An answer reached with [fuel] stands with any larger fuel. *)
Lemma UBJ_Parse_more fuel k r :
  UBJ.Parse fuel r <> OutOfFuel -> UBJ.Parse (k + fuel) r = UBJ.Parse fuel r.
Proof.
  intros N. induction k as [| k IH]; [reflexivity |].
  simpl Nat.add. rewrite <- IH.
  apply below_answer; [apply UBJ_Parse_step | congruence].
Qed.

Lemma UBJ_Parse_le fuel fuel' r :
  (fuel <= fuel')%nat -> UBJ.Parse fuel r <> OutOfFuel ->
  UBJ.Parse fuel' r = UBJ.Parse fuel r.
Proof.
  intros L N. replace fuel' with ((fuel' - fuel) + fuel)%nat by lia.
  now apply UBJ_Parse_more.
Qed.

Lemma UBJ_Load_more fuel k str :
  UBJ.Load fuel str <> OutOfFuel ->
  UBJ.Load (k + fuel) str = UBJ.Load fuel str.
Proof. apply UBJ_Parse_more. Qed.

End UBJFuel.

(** ** Equality of numbers *)

(** [SpecFloat] subtracts with the core library's [Z.sub]. *)
Lemma core_sub_diag (n : Z) : IntDef.Z.sub n n = 0.
Proof. apply Z.sub_diag. Qed.

Lemma SFsub_self_zero x :
  Float.is_finite x = true ->
  SFeqb (SFsub 24 128 x x) (S754_zero false) = true.
Proof.
  destruct x as [s | s | | s m e]; simpl; try discriminate; intros _.
  - now destruct s.
  - rewrite Z.min_id, core_sub_diag. reflexivity.
Qed.

Lemma JsonNumber_eq_refl a : JsonNumber_eq a a = true.
Proof.
  unfold JsonNumber_eq, Float.isinf32, Float.isnan32, Float.sub32_is_zero.
  generalize (SFsub_self_zero (Float.of_bits32 a)).
  destruct (Float.of_bits32 a); cbn [Float.is_inf Float.is_nan Float.is_finite];
    auto.
Qed.

Lemma F32_elem_eq_refl a : F32_elem_eq a a = true.
Proof.
  unfold F32_elem_eq, Float.isinf32, Float.isnan32, Float.sub32_is_zero.
  generalize (SFsub_self_zero (Float.of_bits32 a)).
  destruct (Float.of_bits32 a); cbn [Float.is_inf Float.is_nan Float.is_finite];
    auto.
Qed.

(** ** When the difference of two floats is zero *)


Lemma digits2_pos_lower m : 2 ^ (Z.pos (digits2_pos m) - 1) <= Z.pos m.
Proof.
  induction m as [m IH | m IH |]; cbn [digits2_pos].
  - rewrite Pos2Z.inj_succ.
    replace (Z.succ (Z.pos (digits2_pos m)) - 1)
      with (Z.succ (Z.pos (digits2_pos m) - 1)) by lia.
    rewrite Z.pow_succ_r by lia. lia.
  - rewrite Pos2Z.inj_succ.
    replace (Z.succ (Z.pos (digits2_pos m)) - 1)
      with (Z.succ (Z.pos (digits2_pos m) - 1)) by lia.
    rewrite Z.pow_succ_r by lia. lia.
  - simpl. lia.
Qed.

Lemma digits2_pos_upper m : Z.pos m < 2 ^ Z.pos (digits2_pos m).
Proof.
  induction m as [m IH | m IH |]; cbn [digits2_pos].
  - rewrite Pos2Z.inj_succ, Z.pow_succ_r by lia. lia.
  - rewrite Pos2Z.inj_succ, Z.pow_succ_r by lia. lia.
  - simpl. lia.
Qed.

Lemma shr_1_m mrs : 0 <= shr_m mrs -> shr_m (shr_1 mrs) = shr_m mrs / 2.
Proof.
  destruct mrs as [m r s]. cbn [shr_m shr_1]. intros H.
  destruct m as [| [p | p |] | p]; cbn [shr_m].
  - reflexivity.
  - rewrite Pos2Z.inj_xI. apply (Z.div_unique _ _ _ 1); lia.
  - rewrite Pos2Z.inj_xO. apply (Z.div_unique _ _ _ 0); lia.
  - reflexivity.
  - lia.
Qed.

Lemma iter_shr_1_m p mrs :
  0 <= shr_m mrs ->
  shr_m (iter_pos shr_1 p mrs) = shr_m mrs / 2 ^ Z.pos p.
Proof.
  revert mrs. induction p as [p IH | p IH |]; intros mrs H; cbn [iter_pos].
  - assert (H1 : 0 <= shr_m (shr_1 mrs))
      by (rewrite shr_1_m by lia; apply Z.div_pos; lia).
    assert (H2 : 0 <= shr_m (iter_pos shr_1 p (shr_1 mrs)))
      by (rewrite IH by lia; apply Z.div_pos; lia).
    rewrite IH, IH, shr_1_m by lia.
    rewrite !Z.div_div by lia. f_equal.
    replace (Z.pos p~1) with (1 + Z.pos p + Z.pos p) by lia.
    rewrite !Z.pow_add_r by lia. change (2 ^ 1) with 2. ring.
  - assert (H2 : 0 <= shr_m (iter_pos shr_1 p mrs))
      by (rewrite IH by lia; apply Z.div_pos; lia).
    rewrite IH, IH by lia. rewrite Z.div_div by lia. f_equal.
    replace (Z.pos p~0) with (Z.pos p + Z.pos p) by lia.
    rewrite !Z.pow_add_r by lia. ring.
  - rewrite shr_1_m by lia. reflexivity.
Qed.

Section Format.
Variables prec emax : Z.
Hypothesis prec_pos : 0 < prec.

Abbreviation emin := (SpecFloat.emin prec emax).
Abbreviation fexp := (SpecFloat.fexp prec emax).

Lemma fexp_ge_emin e : emin <= fexp e.
Proof. unfold SpecFloat.fexp. lia. Qed.

(** A positive mantissa above the least exponent survives the shift to its
    canonical exponent. *)
Lemma shr_fexp_pos m e l :
  0 < m -> emin <= e ->
  0 < shr_m (fst (shr_fexp prec emax m e l)) /\
  emin <= snd (shr_fexp prec emax m e l).
Proof.
  intros Hm He. unfold shr_fexp, shr.
  destruct m as [| p | p]; try lia. cbn [Zdigits2].
  set (d := Z.pos (digits2_pos p)).
  assert (Hr : shr_m (shr_record_of_loc (Z.pos p) l) = Z.pos p)
    by (destruct l as [| []]; reflexivity).
  destruct (SpecFloat.fexp prec emax (d + e) - e) as [| n | n] eqn:En;
    cbn [fst snd]; rewrite ?Hr; try lia.
  rewrite iter_shr_1_m by (rewrite Hr; lia). rewrite Hr.
  assert (Hn : Z.pos n <= d - 1)
    by (unfold SpecFloat.fexp in En; fold d in En |- *; lia).
  split; [| lia].
  apply Z.div_str_pos. split; [apply Z.pow_pos_nonneg; lia |].
  pose proof (digits2_pos_lower p). fold d in H.
  assert (2 ^ Z.pos n <= 2 ^ (d - 1)) by (apply Z.pow_le_mono_r; lia).
  lia.
Qed.

Lemma round_nearest_even_pos m l : 0 < m -> 0 < round_nearest_even m l.
Proof.
  intros H. unfold round_nearest_even.
  destruct l as [| []]; try lia. destruct (Z.even m); lia.
Qed.

Lemma binary_round_aux_nonzero s m e l :
  0 < m -> emin <= e -> Float.is_zero (binary_round_aux prec emax s m e l) = false.
Proof.
  intros Hm He. unfold binary_round_aux.
  pose proof (shr_fexp_pos m e l Hm He) as [H1 H2].
  destruct (shr_fexp prec emax m e l) as [mrs' e']. cbn [fst snd] in H1, H2.
  pose proof (round_nearest_even_pos _ (loc_of_shr_record mrs') H1) as H3.
  pose proof (shr_fexp_pos _ e' loc_Exact H3 H2) as [H4 _].
  destruct (shr_fexp prec emax _ e' loc_Exact) as [mrs'' e''].
  cbn [fst] in H4. destruct (shr_m mrs''); try lia.
  now destruct (e'' <=? emax - prec).
Qed.

Lemma binary_round_nonzero s m e :
  emin <= e -> Float.is_zero (binary_round prec emax s m e) = false.
Proof.
  intros He. unfold binary_round, shl_align.
  pose proof (fexp_ge_emin (Z.pos (digits2_pos m) + e)) as Hf.
  destruct (SpecFloat.fexp prec emax (Z.pos (digits2_pos m) + e) - e) eqn:E;
    apply binary_round_aux_nonzero; lia.
Qed.

Lemma binary_normalize_zero m e sz :
  emin <= e -> Float.is_zero (binary_normalize prec emax m e sz) = (m =? 0).
Proof.
  intros He. destruct m; cbn [binary_normalize Z.eqb]; try reflexivity;
    now apply binary_round_nonzero.
Qed.

End Format.


Lemma SFeqb_zero r : SFeqb r (S754_zero false) = Float.is_zero r.
Proof. destruct r as [s | s | | s m e]; try reflexivity; now destruct s. Qed.

Lemma iter_xO_value m d : Z.pos (Pos.iter xO m d) = Z.pos m * 2 ^ Z.pos d.
Proof.
  apply (Pos.iter_ind positive xO m
           (fun p r => Z.pos r = Z.pos m * 2 ^ Z.pos p)).
  - change (2 ^ 1) with 2. lia.
  - intros p r H. rewrite Pos2Z.inj_xO, H, Pos2Z.inj_succ, Z.pow_succ_r by lia.
    ring.
Qed.

Lemma shl_align_value m e ez :
  ez <= e -> Z.pos (fst (shl_align m e ez)) = Z.pos m * 2 ^ (e - ez).
Proof.
  intros H. unfold shl_align.
  destruct (ez - e) as [| d | d] eqn:E; cbn [fst].
  - replace (e - ez) with 0 by lia. lia.
  - lia.
  - rewrite iter_xO_value. f_equal. f_equal. lia.
Qed.

(** What validity says about a finite binary32 value. *)
Lemma bounded_inv m e :
  bounded 24 128 m e = true ->
  -149 <= e /\ Z.pos m < 2 ^ 24 /\ (-149 < e -> 2 ^ 23 <= Z.pos m).
Proof.
  unfold bounded, canonical_mantissa, SpecFloat.fexp, SpecFloat.emin.
  intros H. apply andb_prop in H as [H _]. apply Z.eqb_eq in H.
  pose proof (digits2_pos_lower m) as L.
  pose proof (digits2_pos_upper m) as U.
  set (d := Z.pos (digits2_pos m)) in *.
  assert (Hd : d <= 24) by lia.
  split; [lia |]. split.
  - assert (2 ^ d <= 2 ^ 24) by (apply Z.pow_le_mono_r; lia). lia.
  - intros He. assert (d = 24) as E by lia. rewrite E in L. exact L.
Qed.

Lemma SFsub_zero x y :
  valid_binary 24 128 x = true -> valid_binary 24 128 y = true ->
  Float.is_finite x = true ->
  Float.is_zero (SFsub 24 128 x y) = SFeqb x y.
Proof.
  destruct x as [sx | sx | | sx mx ex]; try discriminate;
    destruct y as [sy | sy | | sy my ey]; intros Vx Vy _;
    try (destruct sx; reflexivity); try (destruct sx, sy; reflexivity).
  cbn [valid_binary] in Vx, Vy.
  apply bounded_inv in Vx as (Ex & Ux & Lx).
  apply bounded_inv in Vy as (Ey & Uy & Ly).
  cbn [SFsub]. rewrite binary_normalize_zero
    by (unfold SpecFloat.emin; lia).
  rewrite !shl_align_value by lia.
  unfold SFeqb. cbn [SFcompare].
  assert (P1 : 0 < 2 ^ (ex - Z.min ex ey)) by (apply Z.pow_pos_nonneg; lia).
  assert (P2 : 0 < 2 ^ (ey - Z.min ex ey)) by (apply Z.pow_pos_nonneg; lia).
  destruct (Z.compare_spec ex ey) as [E | E | E].
  - subst ey. rewrite Z.min_id, Z.sub_diag in *. change (2 ^ 0) with 1.
    rewrite !Z.mul_1_r, Pos.compare_cont_spec. cbn [Pos.switch_Eq].
    destruct (Pos.compare_spec mx my) as [C | C | C];
      destruct sx, sy; cbn [cond_Zopp CompOpp]; apply Z.eqb_neq || apply Z.eqb_eq;
      lia.
  - rewrite Z.min_l, Z.sub_diag in * by lia. change (2 ^ 0) with 1.
    rewrite Z.mul_1_r.
    assert (2 * 1 <= 2 ^ (ey - ex)).
    { replace (ey - ex) with (1 + (ey - ex - 1)) by lia.
      rewrite Z.pow_add_r by lia. change (2 ^ 1) with 2.
      assert (0 < 2 ^ (ey - ex - 1)) by (apply Z.pow_pos_nonneg; lia). lia. }
    specialize (Ly ltac:(lia)).
    assert (2 ^ 24 <= Z.pos my * 2 ^ (ey - ex)) by nia.
    destruct sx, sy; cbn [cond_Zopp]; apply Z.eqb_neq; lia.
  - rewrite Z.min_r, Z.sub_diag in * by lia. change (2 ^ 0) with 1.
    rewrite Z.mul_1_r.
    assert (2 * 1 <= 2 ^ (ex - ey)).
    { replace (ex - ey) with (1 + (ex - ey - 1)) by lia.
      rewrite Z.pow_add_r by lia. change (2 ^ 1) with 2.
      assert (0 < 2 ^ (ex - ey - 1)) by (apply Z.pow_pos_nonneg; lia). lia. }
    specialize (Lx ltac:(lia)).
    assert (2 ^ 24 <= Z.pos mx * 2 ^ (ex - ey)) by nia.
    destruct sx, sy; cbn [cond_Zopp]; apply Z.eqb_neq; lia.
Qed.



Lemma exp32_range b : 0 <= Float.exp32 b < 256.
Proof.
  unfold Float.exp32. change 255 with (Z.ones 8).
  rewrite Z.land_ones by lia. apply Z.mod_pos_bound. lia.
Qed.

Lemma mant32_range b : 0 <= Float.mant32 b < 2 ^ 23.
Proof.
  unfold Float.mant32. change (2 ^ 23 - 1) with (Z.ones 23).
  rewrite Z.land_ones by lia. apply Z.mod_pos_bound. lia.
Qed.

(** The five shapes of a binary32 pattern. *)
Lemma decode32_cases s e m :
  0 <= e < 256 -> 0 <= m < 2 ^ 23 ->
  (e = 255 /\ m = 0 /\ Float.decode 24 255 s e m = S754_infinity s) \/
  (e = 255 /\ m <> 0 /\ Float.decode 24 255 s e m = S754_nan) \/
  (e = 0 /\ m = 0 /\ Float.decode 24 255 s e m = S754_zero s) \/
  (e = 0 /\ exists q, m = Z.pos q /\
                      Float.decode 24 255 s e m = S754_finite s q (-149)) \/
  (0 < e < 255 /\ exists q, Z.pos q = m + 2 ^ 23 /\
                            Float.decode 24 255 s e m
                            = S754_finite s q (e - 150)).
Proof.
  intros He Hm. unfold Float.decode.
  change (3 - (255 + 1) / 2 - 24) with (-149).
  change ((255 + 1) / 2) with 128.
  change (2 ^ (24 - 1)) with (2 ^ 23).
  destruct (Z.eqb_spec e 255) as [E | E].
  - destruct (Z.eqb_spec m 0) as [M | M]; [left | right; left]; auto.
  - destruct (Z.eqb_spec e 0) as [Z | Z].
    + destruct m as [| q | q]; try lia.
      * right; right; left. auto.
      * right; right; right; left. split; [assumption |].
        exists q. split; reflexivity.
    + right; right; right; right. split; [lia |].
      destruct (m + 2 ^ 23) as [| q | q] eqn:M; try lia.
      exists q. split; [reflexivity |]. f_equal. lia.
Qed.

Lemma of_bits32_cases b :
  (Float.exp32 b = 255 /\ Float.mant32 b = 0 /\
   Float.of_bits32 b = S754_infinity (Float.sign32 b)) \/
  (Float.exp32 b = 255 /\ Float.mant32 b <> 0 /\
   Float.of_bits32 b = S754_nan) \/
  (Float.exp32 b = 0 /\ Float.mant32 b = 0 /\
   Float.of_bits32 b = S754_zero (Float.sign32 b)) \/
  (Float.exp32 b = 0 /\
   exists q, Float.mant32 b = Z.pos q /\
             Float.of_bits32 b = S754_finite (Float.sign32 b) q (-149)) \/
  (0 < Float.exp32 b < 255 /\
   exists q, Z.pos q = Float.mant32 b + 2 ^ 23 /\
             Float.of_bits32 b
             = S754_finite (Float.sign32 b) q (Float.exp32 b - 150)).
Proof. apply decode32_cases; [apply exp32_range | apply mant32_range]. Qed.

Lemma of_bits32_valid b : valid_binary 24 128 (Float.of_bits32 b) = true.
Proof.
  pose proof (mant32_range b) as Hm. pose proof (exp32_range b) as He.
  destruct (of_bits32_cases b)
    as [(_ & _ & ->) | [(_ & _ & ->) | [(_ & _ & ->)
       | [(_ & q & M & ->) | (E & q & M & ->)]]]]; try reflexivity;
    cbn [valid_binary]; unfold bounded, canonical_mantissa, SpecFloat.fexp,
      SpecFloat.emin;
    pose proof (digits2_pos_lower q) as L;
    pose proof (digits2_pos_upper q) as U;
    set (d := Z.pos (digits2_pos q)) in *;
    apply andb_true_intro.
  - assert (d <= 23).
    { destruct (Z.le_gt_cases d 23) as [? | G]; [assumption |].
      assert (2 ^ 23 <= 2 ^ (d - 1)) by (apply Z.pow_le_mono_r; lia). lia. }
    split; [apply Z.eqb_eq | apply Z.leb_le]; lia.
  - assert (d = 24).
    { destruct (Z.lt_trichotomy d 24) as [G | [G | G]]; [| assumption |].
      - assert (2 ^ d <= 2 ^ 23) by (apply Z.pow_le_mono_r; lia). lia.
      - assert (2 ^ 24 <= 2 ^ (d - 1)) by (apply Z.pow_le_mono_r; lia). lia. }
    split; [apply Z.eqb_eq | apply Z.leb_le]; lia.
Qed.

Lemma testbit_high a n m : 0 <= a < 2 ^ n -> 0 <= n <= m -> Z.testbit a m = false.
Proof.
  intros Ha Hn. rewrite <- (Z.mod_small a (2 ^ n)) by lia.
  apply Z.mod_pow2_bits_high. lia.
Qed.

Lemma mant32_bit b n : 0 <= n < 23 -> Z.testbit (Float.mant32 b) n = Z.testbit b n.
Proof.
  intros H. unfold Float.mant32. change (2 ^ 23 - 1) with (Z.ones 23).
  rewrite Z.land_spec, Z.ones_spec_low by lia. apply andb_true_r.
Qed.

Lemma exp32_bit b n :
  23 <= n < 31 -> Z.testbit (Float.exp32 b) (n - 23) = Z.testbit b n.
Proof.
  intros H. unfold Float.exp32. change 255 with (Z.ones 8).
  rewrite Z.land_spec, Z.ones_spec_low, Z.shiftr_spec by lia.
  rewrite andb_true_r. f_equal. lia.
Qed.

Lemma bits32_fields_inj a b :
  0 <= a < 2 ^ 32 -> 0 <= b < 2 ^ 32 ->
  Float.sign32 a = Float.sign32 b -> Float.exp32 a = Float.exp32 b ->
  Float.mant32 a = Float.mant32 b -> a = b.
Proof.
  intros Ha Hb Hs He Hm. apply Z.bits_inj'. intros n Hn.
  destruct (Z.lt_ge_cases n 23) as [C1 | C1].
  - rewrite <- (mant32_bit a), <- (mant32_bit b) by lia. now rewrite Hm.
  - destruct (Z.lt_ge_cases n 31) as [C2 | C2].
    + rewrite <- (exp32_bit a), <- (exp32_bit b) by lia. now rewrite He.
    + destruct (Z.eq_dec n 31) as [-> | C3]; [exact Hs |].
      rewrite (testbit_high a 32 n), (testbit_high b 32 n) by lia.
      reflexivity.
Qed.

(** The patterns of the two zeros. *)
Lemma zero_fields a :
  0 <= a < 2 ^ 32 ->
  (Float.exp32 a = 0 /\ Float.mant32 a = 0) <-> a mod 2 ^ 31 = 0.
Proof.
  intros Ha. split.
  - intros [He Hm]. apply Z.bits_inj'. intros n Hn. rewrite Z.bits_0.
    destruct (Z.lt_ge_cases n 31) as [C | C].
    + rewrite Z.mod_pow2_bits_low by lia.
      destruct (Z.lt_ge_cases n 23) as [C1 | C1].
      * rewrite <- (mant32_bit a), Hm by lia. apply Z.bits_0.
      * rewrite <- (exp32_bit a), He by lia. apply Z.bits_0.
    + apply Z.mod_pow2_bits_high. lia.
  - intros H.
    assert (E : a = 0 \/ a = 2 ^ 31).
    { pose proof (Z.div_mod a (2 ^ 31) ltac:(lia)) as D. rewrite H in D.
      assert (a / 2 ^ 31 < 2) by (apply Z.div_lt_upper_bound; lia).
      assert (0 <= a / 2 ^ 31) by (apply Z.div_pos; lia). lia. }
    destruct E as [-> | ->]; split; reflexivity.
Qed.

Lemma SFeqb_refl x : Float.is_nan x = false -> SFeqb x x = true.
Proof.
  unfold SFeqb. destruct x as [s | s | | s m e];
    cbn [Float.is_nan SFcompare]; intros H; try discriminate;
    try (now destruct s).
  rewrite Z.compare_refl, Pos.compare_cont_refl. now destruct s.
Qed.

Lemma SFeqb_finite_inv s m e s' m' e' :
  SFeqb (S754_finite s m e) (S754_finite s' m' e') = true ->
  s = s' /\ m = m' /\ e = e'.
Proof.
  unfold SFeqb. cbn [SFcompare]. rewrite Pos.compare_cont_spec.
  cbn [Pos.switch_Eq].
  destruct (Z.compare_spec e e'), (Pos.compare_spec m m'), s, s';
    cbn [CompOpp]; intros E; try discriminate E; auto.
Qed.

(** The difference of a finite [float] and another [float] compares equal
    to zero exactly when the two have the same bits or are both zeros. *)
Lemma sub32_is_zero_bits a b :
  0 <= a < 2 ^ 32 -> 0 <= b < 2 ^ 32 ->
  Float.is_finite (Float.of_bits32 a) = true ->
  Float.sub32_is_zero a b = true <->
  a = b \/ (a mod 2 ^ 31 = 0 /\ b mod 2 ^ 31 = 0).
Proof.
  intros Ha Hb Fa. unfold Float.sub32_is_zero.
  rewrite SFeqb_zero, SFsub_zero by (apply of_bits32_valid || assumption).
  split.
  - intros H.
    destruct (of_bits32_cases a)
      as [(_ & _ & Ea) | [(_ & _ & Ea) | [(Ea1 & Ea2 & Ea)
         | [(Ea1 & qa & Ma & Ea) | (Ea1 & qa & Ma & Ea)]]]];
      rewrite Ea in H, Fa; try discriminate Fa;
      destruct (of_bits32_cases b)
        as [(_ & _ & Eb) | [(_ & _ & Eb) | [(Eb1 & Eb2 & Eb)
           | [(Eb1 & qb & Mb & Eb) | (Eb1 & qb & Mb & Eb)]]]];
      rewrite Eb in H;
      try (destruct (Float.sign32 a), (Float.sign32 b); discriminate H);
      try (destruct (Float.sign32 a); discriminate H).
    + right. split; apply zero_fields; auto.
    + apply SFeqb_finite_inv in H as (Hs & Hq & _). subst qb.
      left. apply bits32_fields_inj; auto; congruence.
    + apply SFeqb_finite_inv in H as (Hs & Hq & He). subst qb.
      pose proof (mant32_range a). pose proof (mant32_range b). lia.
    + apply SFeqb_finite_inv in H as (Hs & Hq & He). subst qb.
      pose proof (mant32_range a). pose proof (mant32_range b). lia.
    + apply SFeqb_finite_inv in H as (Hs & Hq & He). subst qb.
      left. apply bits32_fields_inj; auto; lia.
  - intros [<- | [Za Zb]].
    + apply SFeqb_refl. now destruct (Float.of_bits32 a).
    + apply zero_fields in Za as [Za1 Za2]; [| assumption].
      apply zero_fields in Zb as [Zb1 Zb2]; [| assumption].
      destruct (of_bits32_cases a)
        as [(? & _) | [(? & _) | [(_ & _ & ->) | [(_ & q & ? & _)
           | (? & _)]]]]; try lia.
      destruct (of_bits32_cases b)
        as [(? & _) | [(? & _) | [(_ & _ & ->) | [(_ & q & ? & _)
           | (? & _)]]]]; try lia.
      reflexivity.
Qed.


(** [JsonNumber::operator==] case by case. *)
Lemma JsonNumber_eq_cases a b :
  JsonNumber_eq a b = true <->
  (Float.isnan32 a = true /\ Float.isnan32 b = true) \/
  (Float.isinf32 a = true /\ Float.isinf32 b = true) \/
  (Float.is_finite (Float.of_bits32 a) = true /\
   Float.sub32_is_zero a b = true).
Proof.
  unfold JsonNumber_eq, Float.isinf32, Float.isnan32.
  destruct (Float.of_bits32 a);
    cbn [Float.is_inf Float.is_nan Float.is_finite]; split; intros H;
    repeat match goal with
           | H : _ \/ _ |- _ => destruct H
           | H : _ /\ _ |- _ => destruct H
           end;
    try discriminate; try assumption; auto.
Qed.

(** C2, as the code has it. Two [Number] nodes are equal exactly when both
    are NaN, or both are infinite (the signs are not looked at), or the left
    one is finite and the [float] difference compares equal to zero, which
    is the case exactly when the two have the same bits or are both zeros.
    So [NaN == NaN] and [+Inf == +Inf] hold, every value equals itself,
    and [+0 == -0]; [+Inf == -Inf] holds too, against the claim, which has
    the two infinities differ. *)
Theorem C2_number_equality :
  forall a b,
    in_range F32 a = true -> in_range F32 b = true ->
    (Json_eq (JsonNumber a) (JsonNumber b) = true <->
     (Float.isnan32 a = true /\ Float.isnan32 b = true) \/
     (Float.isinf32 a = true /\ Float.isinf32 b = true) \/
     (Float.is_finite (Float.of_bits32 a) = true /\
      Float.sub32_is_zero a b = true)) /\
    (Float.is_finite (Float.of_bits32 a) = true ->
     (Float.sub32_is_zero a b = true <->
      a = b \/ (a mod 2 ^ 31 = 0 /\ b mod 2 ^ 31 = 0))) /\
    Json_eq (JsonNumber a) (JsonNumber a) = true /\
    Json_eq (JsonNumber Float.quiet_NaN) (JsonNumber Float.quiet_NaN) = true /\
    Json_eq (JsonNumber Float.infinity) (JsonNumber Float.infinity) = true /\
    Json_eq (JsonNumber Float.infinity) (JsonNumber Float.neg_infinity) = true /\
    Json_eq (JsonNumber 0) (JsonNumber (2 ^ 31)) = true.
Proof.
  intros a b Ha Hb.
  assert (R : forall x, in_range F32 x = true -> 0 <= x < 2 ^ 32).
  { intros x H. unfold in_range in H. cbn [is_signed sizeof] in H.
    change (8 * Z.of_nat 4) with 32 in H. apply andb_prop in H as [L U].
    apply Z.leb_le in L. apply Z.ltb_lt in U. lia. }
  split; [| split; [| split; [| split; [| split; [| split]]]]].
  4, 5, 6, 7: vm_compute; reflexivity.
  - apply JsonNumber_eq_cases.
  - intros F. apply sub32_is_zero_bits; auto.
  - apply JsonNumber_eq_refl.
Qed.

Lemma C2_witness :
  Json_eq (JsonNumber 0x3F800000) (JsonNumber 0x3F800000) = true /\
  (Float.sub32_is_zero 0x3F800000 0x3F800001 = true <->
   0x3F800000 = 0x3F800001 \/
   (0x3F800000 mod 2 ^ 31 = 0 /\ 0x3F800001 mod 2 ^ 31 = 0)).
Proof.
  destruct (C2_number_equality 0x3F800000 0x3F800001 eq_refl eq_refl)
    as (_ & H & E & _).
  split; [exact E | exact (H eq_refl)].
Defined.

(** [JsonNumber::operator==] finds [+Inf] and [-Inf] equal: once
    [number_] is infinite it answers [isinf(r_num)], and the signs are
    never compared. *)
Lemma Number_infinities_equal :
  ~ (Json_eq (JsonNumber Float.infinity) (JsonNumber Float.neg_infinity)
     = false).
Proof. vm_compute. discriminate. Qed.

(** [JsonTypedArray<double>::operator==] compares with [std::equal], so
    an [F64Array] tells the two infinities apart, as it does two values
    that differ in anything but the sign of a zero. The same two values
    as [Number]s, and as the elements of an [F32Array], are equal. *)
Lemma F64Array_infinities_differ :
  Json_eq (JsonTypedArray F64 [0x7FF0000000000000])
          (JsonTypedArray F64 [0xFFF0000000000000]) = false
  /\ Float.of_bits64 0x7FF0000000000000 = S754_infinity false
  /\ Float.of_bits64 0xFFF0000000000000 = S754_infinity true
  /\ Json_eq (JsonTypedArray F32 [Float.infinity])
             (JsonTypedArray F32 [Float.neg_infinity]) = true.
Proof. repeat split; vm_compute; reflexivity. Qed.

(** ** The text reader on particular inputs *)

(** C7. Parsing the text of [missing_value] fails, whatever the fuel from 3
    on: no document is returned, and the position the error reports is 6,
    the index of the offending closing brace. *)
Theorem C7_error_locality :
  forall from_chars strtof fuel,
    index_of "}" missing_value = Some 6%nat /\
    Text.Load from_chars strtof (fuel + 3) missing_value
    = Fail (SyntaxError
              (lit "Unknown construct") 6
              (lit "Unknown construct, around character position: 6"
               ++ [newline] ++ lit "    " ++ missing_value ++ [newline]
               ++ lit "    ~~~~~^~")).
Proof.
  intros. split; [reflexivity |].
  rewrite TextFuel.Text_Load_more; vm_compute; [reflexivity | discriminate].
Qed.

(** C8, at the input [+5]: [Parse] does not send a leading plus sign to
    [ParseNumber] and reports an unknown construct at position 0, although
    [ParseNumber], started on the same input, reads the sign and answers
    [Integer 5]. *)
Theorem C8_plus_is_rejected :
  forall from_chars strtof fuel,
    Text.Load from_chars strtof (fuel + 1) (lit "+5")
    = Fail (SyntaxError
              (lit "Unknown construct") 0
              (lit "Unknown construct, around character position: 0"
               ++ [newline] ++ lit ", " ++ [quote] ++ lit "+5 " ++ [quote]))
    /\ Text.ParseNumber from_chars strtof (reader (lit "+5"))
       = Ok (JsonInteger 5) (mkReader (lit "+5") 2 []).
Proof.
  intros. split; [| reflexivity].
  rewrite TextFuel.Text_Load_more; vm_compute; [reflexivity | discriminate].
Qed.

(** *** Buffers without a value *)

Lemma skip_spaces_all s :
  whitespace_only s = true -> skip_spaces s = length s.
Proof.
  induction s as [| c s IH]; simpl; [reflexivity |].
  intros H. apply andb_prop in H as [Hc Hs]. rewrite Hc.
  now rewrite IH.
Qed.

(** C9, as the code has it. In text mode a buffer that is empty or holds
    only spaces, tabs, carriage returns and newlines parses to [Null], the
    cursor at its end. In binary mode the empty buffer parses to [Null]. *)
Theorem C9_no_value_is_null :
  forall from_chars strtof s fuel,
    whitespace_only s = true ->
    Text.Load from_chars strtof (S fuel) s
    = Ok JsonNull (mkReader s (length s) [])
    /\ UBJ.Load (S fuel) [] = Ok JsonNull (reader []).
Proof.
  intros fc sf s fuel H. split; [| reflexivity].
  unfold Text.Load. simpl. unfold Text.Parse_, bind, SkipSpaces, Forward.
  simpl. rewrite (skip_spaces_all s H), skipn_all. reflexivity.
Qed.

Lemma C9_witness :
  whitespace_only (lit "  ") = true /\
  Text.Load (fun _ => None) (fun _ => 0) 1 (lit "  ")
  = Ok JsonNull (mkReader (lit "  ") 2 []) /\
  UBJ.Load 1 [] = Ok JsonNull (reader []).
Proof.
  split; [reflexivity |].
  apply (C9_no_value_is_null (fun _ => None) (fun _ => 0) (lit "  ") 0).
  reflexivity.
Defined.

(** C9 as stated fails in binary mode: the binary reader does not skip
    white space, and a buffer of one space is an unknown construct. *)
Lemma C9_counterexample :
  ~ (forall s, whitespace_only s = true ->
               exists fuel r, UBJ.Load fuel s = Ok JsonNull r).
Proof.
  intros H. destruct (H (lit " ") eq_refl) as (fuel & r & E).
  destruct fuel as [| fuel]; [discriminate |].
  vm_compute in E. discriminate.
Qed.

(** ** Big-endian primitives read back *)

Lemma byte_val_byte_of z : byte_val (byte_of z) = z mod 256.
Proof.
  unfold byte_val, byte_of.
  assert (H : 0 <= z mod 256 < 256) by (apply Z.mod_pos_bound; lia).
  rewrite N_ascii_embedding.
  - apply Z2N.id. lia.
  - apply N2Z.inj_lt. rewrite Z2N.id by lia. simpl. lia.
Qed.

Lemma length_big_endian n v : length (big_endian n v) = n.
Proof. induction n; simpl; congruence. Qed.

Lemma from_big_endian_big_endian n v acc :
  from_big_endian (big_endian n v) acc
  = acc * 2 ^ (8 * Z.of_nat n) + v mod 2 ^ (8 * Z.of_nat n).
Proof.
  revert acc. induction n as [| n IH]; intros acc.
  - simpl. rewrite Z.mod_1_r. lia.
  - cbn [big_endian from_big_endian]. rewrite IH, byte_val_byte_of.
    rewrite Z.shiftr_div_pow2 by lia.
    replace (8 * Z.of_nat (S n)) with (8 * Z.of_nat n + 8) by lia.
    rewrite Z.pow_add_r by lia.
    rewrite (Z.rem_mul_r v (2 ^ (8 * Z.of_nat n)) (2 ^ 8)) by lia.
    change (2 ^ 8) with 256. ring.
Qed.

Lemma signed_mod w v :
  0 < w -> - 2 ^ (w - 1) <= v < 2 ^ (w - 1) -> signed w (v mod 2 ^ w) = v.
Proof.
  intros Hw Hv. unfold signed.
  assert (E : 2 ^ w = 2 * 2 ^ (w - 1)).
  { replace w with (1 + (w - 1)) at 1 by lia. rewrite Z.pow_add_r by lia.
    reflexivity. }
  rewrite Z.mod_mod by lia.
  destruct (Z.ltb_spec v 0) as [N | N].
  - rewrite <- (Z.mod_add v 1) by lia. rewrite Z.mod_small by lia.
    destruct (Z.ltb_spec (v + 1 * 2 ^ w) (2 ^ (w - 1))); lia.
  - rewrite Z.mod_small by lia.
    destruct (Z.ltb_spec v (2 ^ (w - 1))); lia.
Qed.

Lemma of_unsigned_mod t v :
  in_range t v = true ->
  of_unsigned t (v mod 2 ^ (8 * Z.of_nat (sizeof t))) = v.
Proof.
  unfold in_range, of_unsigned. intros H.
  destruct (is_signed t).
  - apply andb_prop in H as [L U]. apply Z.leb_le in L. apply Z.ltb_lt in U.
    apply signed_mod; [destruct t; simpl; lia | lia].
  - apply andb_prop in H as [L U]. apply Z.leb_le in L. apply Z.ltb_lt in U.
    apply Z.mod_small. lia.
Qed.

Lemma firstn_exact {A} n (a b : list A) :
  length a = n -> firstn n (a ++ b) = a.
Proof. intros <-. induction a; simpl; congruence. Qed.

Lemma skipn_exact {A} n (a b : list A) :
  length a = n -> skipn n (a ++ b) = b.
Proof. intros <-. induction a; simpl; congruence. Qed.

Lemma ReadPrimitive_WritePrimitive t v raw pos u :
  in_range t v = true ->
  UBJ.ReadPrimitive t (mkReader raw pos (WritePrimitive t v ++ u))
  = Ok v (mkReader raw (pos + sizeof t) u).
Proof.
  intros H. unfold UBJ.ReadPrimitive, WritePrimitive, Forward.
  cbn [unread raw_str_ Pos].
  pose proof (length_big_endian (sizeof t) v) as L.
  replace (length (big_endian (sizeof t) v ++ u) <? sizeof t)%nat with false.
  2: { symmetry. apply Nat.ltb_ge. rewrite length_app. lia. }
  rewrite (firstn_exact _ _ _ L), (skipn_exact _ _ _ L).
  rewrite from_big_endian_big_endian, Z.mul_0_l, Z.add_0_l.
  now rewrite of_unsigned_mod.
Qed.

(** ** The binary reader, marker by marker *)

Section Markers.
Variables (po pa : M Json) (raw : buffer) (pos : nat) (u : buffer).

Lemma marker_object :
  UBJ.Parse_ po pa (mkReader raw pos ("{"%char :: u))
  = po (mkReader raw (pos + 1) u).
Proof. reflexivity. Qed.

Lemma marker_array :
  UBJ.Parse_ po pa (mkReader raw pos ("["%char :: u))
  = pa (mkReader raw (pos + 1) u).
Proof. reflexivity. Qed.

Lemma marker_Z :
  UBJ.Parse_ po pa (mkReader raw pos ("Z"%char :: u))
  = Ok JsonNull (mkReader raw (pos + 1) u).
Proof. reflexivity. Qed.

Lemma marker_T :
  UBJ.Parse_ po pa (mkReader raw pos ("T"%char :: u))
  = Ok (JsonBoolean true) (mkReader raw (pos + 1) u).
Proof. reflexivity. Qed.

Lemma marker_F :
  UBJ.Parse_ po pa (mkReader raw pos ("F"%char :: u))
  = Ok (JsonBoolean false) (mkReader raw (pos + 1) u).
Proof. reflexivity. Qed.

Lemma marker_d :
  UBJ.Parse_ po pa (mkReader raw pos ("d"%char :: u))
  = (v <- UBJ.ReadPrimitive F32 ;; ret (JsonNumber v))
      (mkReader raw (pos + 1) u).
Proof. reflexivity. Qed.

Lemma marker_S :
  UBJ.Parse_ po pa (mkReader raw pos ("S"%char :: u))
  = (str <- UBJ.DecodeStr ;; ret (JsonString str)) (mkReader raw (pos + 1) u).
Proof. reflexivity. Qed.

Lemma marker_i :
  UBJ.Parse_ po pa (mkReader raw pos ("i"%char :: u))
  = (i <- UBJ.ReadPrimitive I8 ;; ret (JsonInteger i))
      (mkReader raw (pos + 1) u).
Proof. reflexivity. Qed.

Lemma marker_I :
  UBJ.Parse_ po pa (mkReader raw pos ("I"%char :: u))
  = (i <- UBJ.ReadPrimitive I16 ;; ret (JsonInteger i))
      (mkReader raw (pos + 1) u).
Proof. reflexivity. Qed.

Lemma marker_l :
  UBJ.Parse_ po pa (mkReader raw pos ("l"%char :: u))
  = (i <- UBJ.ReadPrimitive I32 ;; ret (JsonInteger i))
      (mkReader raw (pos + 1) u).
Proof. reflexivity. Qed.

Lemma marker_L :
  UBJ.Parse_ po pa (mkReader raw pos ("L"%char :: u))
  = (i <- UBJ.ReadPrimitive I64 ;; ret (JsonInteger i))
      (mkReader raw (pos + 1) u).
Proof. reflexivity. Qed.

End Markers.

(** What [bind] does once its first action has answered. *)
Lemma bind_Ok {A B} (c : M A) (k : A -> M B) r a r' :
  c r = Ok a r' -> bind c k r = k a r'.
Proof. unfold bind. now intros ->. Qed.

Lemma GetConsecutiveChar_head c raw pos u :
  GetConsecutiveChar c (mkReader raw pos (c :: u))
  = Ok (to_Char c) (mkReader raw (pos + 1) u).
Proof.
  unfold GetConsecutiveChar, bind, GetNextChar, chr. cbn [unread].
  rewrite Z.eqb_refl. reflexivity.
Qed.

Lemma fits_int64_range n : fits_int64 n = true -> in_range I64 (Z.of_nat n) = true.
Proof.
  unfold fits_int64, in_range. cbn [is_signed sizeof]. intros H.
  apply Z.ltb_lt in H. apply andb_true_intro. split.
  - apply Z.leb_le. change (8 * Z.of_nat 8 - 1) with 63. lia.
  - apply Z.ltb_lt. exact H.
Qed.

Lemma length_WritePrimitive t v : length (WritePrimitive t v) = sizeof t.
Proof. apply length_big_endian. Qed.

Lemma DecodeStr_EncodeStr s raw pos u :
  fits_int64 (length s) = true ->
  UBJ.DecodeStr (mkReader raw pos (UBJ.EncodeStr s ++ u))
  = Ok s (mkReader raw (pos + length (UBJ.EncodeStr s)) u).
Proof.
  intros H. unfold UBJ.DecodeStr, UBJ.EncodeStr.
  cbn [app]. rewrite <- app_assoc.
  erewrite bind_Ok by apply GetConsecutiveChar_head.
  erewrite bind_Ok
    by (apply ReadPrimitive_WritePrimitive; now apply fits_int64_range).
  destruct (Z.ltb_spec (Z.of_nat (length s)) 0) as [N | _]; [lia |].
  rewrite Nat2Z.id. unfold Forward. cbn [unread raw_str_ Pos].
  replace (length (s ++ u) <? length s)%nat with false
    by (symmetry; apply Nat.ltb_ge; rewrite length_app; lia).
  rewrite (firstn_exact _ s u eq_refl), (skipn_exact _ s u eq_refl).
  do 2 f_equal. cbn [length]. rewrite length_app, length_WritePrimitive.
  cbn [sizeof]. lia.
Qed.

Lemma ReadElements_spec t vec raw pos u :
  forallb (in_range t) vec = true ->
  UBJ.ReadElements t (length vec)
    (mkReader raw pos (concat (map (WritePrimitive t) vec) ++ u))
  = Ok vec
       (mkReader raw (pos + length (concat (map (WritePrimitive t) vec))) u).
Proof.
  revert pos. induction vec as [| v vec IH]; intros pos H.
  - cbn. now rewrite Nat.add_0_r.
  - cbn [forallb] in H. apply andb_prop in H as [Hv Hvec].
    cbn [length UBJ.ReadElements map concat]. rewrite <- app_assoc.
    erewrite bind_Ok by (now apply ReadPrimitive_WritePrimitive).
    erewrite bind_Ok by (now apply IH).
    unfold ret. do 2 f_equal. rewrite length_app, length_WritePrimitive. lia.
Qed.

(** ** The binary round trip *)

Lemma Parse_unfold fuel r :
  UBJ.Parse (S fuel) r
  = UBJ.Parse_ (UBJ.ParseObject_loop fuel [])
      (UBJ.ParseArray (UBJ.Parse fuel) (UBJ.ParseArray_loop fuel)) r.
Proof. reflexivity. Qed.

Lemma ParseObject_loop_unfold fuel results r :
  UBJ.ParseObject_loop (S fuel) results r
  = UBJ.ParseObject_turn (UBJ.Parse fuel) (UBJ.ParseObject_loop fuel)
      results r.
Proof. reflexivity. Qed.

Lemma peek_cons {B} (k : Z -> M B) c raw pos u :
  bind PeekNextChar k (mkReader raw pos (c :: u))
  = k (to_Char c) (mkReader raw pos (c :: u)).
Proof. reflexivity. Qed.

Lemma next_cons {B} (k : Z -> M B) c raw pos u :
  bind GetNextChar k (mkReader raw pos (c :: u))
  = k (to_Char c) (mkReader raw (pos + 1) u).
Proof. reflexivity. Qed.

Lemma consecutive_cons {B} (k : Z -> M B) c raw pos u :
  bind (GetConsecutiveChar c) k (mkReader raw pos (c :: u))
  = k (to_Char c) (mkReader raw (pos + 1) u).
Proof. apply bind_Ok, GetConsecutiveChar_head. Qed.

(** Comparisons between character constants are settled by evaluation. *)
Ltac settle_markers :=
  repeat match goal with
         | |- context [Z.eqb (to_Char ?a) (chr ?b)] =>
             let v := eval vm_compute in (Z.eqb (to_Char a) (chr b)) in
             match v with
             | true => idtac
             | false => idtac
             end;
             change (Z.eqb (to_Char a) (chr b)) with v; cbv iota
         end.

Lemma reads_back_more fuel fuel' d :
  reads_back fuel d -> (fuel <= fuel')%nat -> reads_back fuel' d.
Proof.
  intros H L raw pos rest. rewrite <- (H raw pos rest).
  apply UBJFuel.UBJ_Parse_le; [exact L | rewrite H; discriminate].
Qed.

Lemma reads_back_Integer fuel i :
  in_range I64 i = true -> reads_back (S fuel) (JsonInteger i).
Proof.
  intros H raw pos rest. rewrite Parse_unfold. cbn [UBJ.Save].
  unfold UBJ.Visit_Integer.
  destruct ((-128 <? i) && (i <? 127)) eqn:E8;
    [| destruct ((-32768 <? i) && (i <? 32767)) eqn:E16;
       [| destruct ((-2147483648 <? i) && (i <? 2147483647)) eqn:E32]];
    cbn [app];
    [rewrite marker_i | rewrite marker_I | rewrite marker_l | rewrite marker_L];
    (erewrite bind_Ok;
     [| apply ReadPrimitive_WritePrimitive;
        try exact H;
        match goal with
        | E : _ && _ = true |- _ =>
            apply andb_prop in E as [L U];
            apply Z.ltb_lt in L; apply Z.ltb_lt in U;
            unfold in_range; cbn [is_signed sizeof];
            apply andb_true_intro; split;
            [apply Z.leb_le | apply Z.ltb_lt]; cbn; lia
        end]);
    unfold ret; do 2 f_equal; cbn [length];
    rewrite length_WritePrimitive; cbn [sizeof]; lia.
Qed.

Lemma ParseArray_typed_array P l t vec raw pos rest :
  UBJ.writable (JsonTypedArray t vec) = true ->
  well_formed (JsonTypedArray t vec) = true ->
  UBJ.ParseArray P l
    (mkReader raw pos (tl (UBJ.WriteTypedArray t vec) ++ rest))
  = Ok (JsonTypedArray t vec)
       (mkReader raw (pos + length (tl (UBJ.WriteTypedArray t vec))) rest).
Proof.
  intros W F. cbn [well_formed] in F. apply andb_prop in F as [Fn Fv].
  cbn [UBJ.writable] in W. unfold UBJ.WriteTypedArray.
  destruct (UBJ.type_marker t) as [m |] eqn:Em; [clear W | discriminate].
  cbn [tl app]. unfold UBJ.ParseArray. rewrite peek_cons.
  settle_markers. unfold UBJ.ParseArray_typed.
  rewrite next_cons, next_cons, consecutive_cons, consecutive_cons.
  rewrite <- app_assoc.
  erewrite bind_Ok
    by (apply ReadPrimitive_WritePrimitive; now apply fits_int64_range).
  assert (E : UBJ.ParseTypedArray t (Z.of_nat (length vec))
                (mkReader raw (pos + 1 + 1 + 1 + 1 + sizeof I64)
                   (concat (map (WritePrimitive t) vec) ++ rest))
              = Ok (JsonTypedArray t vec)
                  (mkReader raw
                     (pos + 1 + 1 + 1 + 1 + sizeof I64
                      + length (concat (map (WritePrimitive t) vec))) rest)).
  { unfold UBJ.ParseTypedArray.
    destruct (Z.ltb_spec (Z.of_nat (length vec)) 0) as [N | _]; [lia |].
    rewrite Nat2Z.id. erewrite bind_Ok by (now apply ReadElements_spec).
    reflexivity. }
  destruct t; try discriminate; injection Em as <-; settle_markers;
    rewrite E; do 2 f_equal; cbn [length];
    rewrite length_app, length_WritePrimitive; cbn [sizeof]; lia.
Qed.

Lemma peek_head {B} (k : Z -> M B) c r :
  hd_error (unread r) = Some c -> bind PeekNextChar k r = k (to_Char c) r.
Proof.
  unfold bind, PeekNextChar. destruct (unread r); simpl; [discriminate |].
  now intros [= ->].
Qed.

Lemma ParseArray_counted_spec P vec :
  Forall (fun d => forall raw pos rest,
              P (mkReader raw pos (UBJ.Save d ++ rest))
              = Ok d (mkReader raw (pos + length (UBJ.Save d)) rest)) vec ->
  forall acc raw pos rest,
    UBJ.ParseArray_counted P (length vec) acc
      (mkReader raw pos (flat_map UBJ.Save vec ++ rest))
    = Ok (JsonArray (acc ++ vec))
         (mkReader raw (pos + length (flat_map UBJ.Save vec)) rest).
Proof.
  induction 1 as [| d vec Hd _ IH]; intros acc raw pos rest.
  - cbn. now rewrite app_nil_r, Nat.add_0_r.
  - cbn [length UBJ.ParseArray_counted flat_map]. rewrite <- app_assoc.
    erewrite bind_Ok by apply Hd. rewrite IH, <- app_assoc.
    do 2 f_equal. rewrite length_app. lia.
Qed.

Lemma reads_back_Array fuel vec :
  fits_int64 (length vec) = true ->
  Forall (reads_back fuel) vec ->
  reads_back (S fuel) (JsonArray vec).
Proof.
  intros Hn Hv raw pos rest. rewrite Parse_unfold. cbn [UBJ.Save app].
  rewrite marker_array. unfold UBJ.ParseArray. rewrite peek_cons.
  settle_markers. rewrite next_cons, consecutive_cons, <- app_assoc.
  erewrite bind_Ok
    by (apply ReadPrimitive_WritePrimitive; now apply fits_int64_range).
  destruct (Z.ltb_spec (Z.of_nat (length vec)) 0) as [N | _]; [lia |].
  rewrite Nat2Z.id, ParseArray_counted_spec by exact Hv.
  do 2 f_equal. cbn [length].
  rewrite length_app, length_WritePrimitive. cbn [sizeof]. lia.
Qed.

(** *** Keys in increasing order land at the end of the map *)

Lemma buffer_ltb_asym a b : buffer_ltb a b = true -> buffer_ltb b a = false.
Proof.
  revert b. induction a as [| x a IH]; intros [| y b]; simpl; try easy.
  destruct (Z.ltb_spec (byte_val x) (byte_val y)),
           (Z.ltb_spec (byte_val y) (byte_val x)); try easy; try lia.
  apply IH.
Qed.

Lemma buffer_ltb_trans a b c :
  buffer_ltb a b = true -> buffer_ltb b c = true -> buffer_ltb a c = true.
Proof.
  revert b c. induction a as [| x a IH]; intros [| y b] [| z c]; simpl;
    try easy.
  destruct (Z.ltb_spec (byte_val x) (byte_val y)),
           (Z.ltb_spec (byte_val y) (byte_val x)),
           (Z.ltb_spec (byte_val y) (byte_val z)),
           (Z.ltb_spec (byte_val z) (byte_val y)),
           (Z.ltb_spec (byte_val x) (byte_val z)),
           (Z.ltb_spec (byte_val z) (byte_val x));
    try easy; try lia.
  apply IH.
Qed.

Section Emplace.
Context {V : Type}.
Implicit Types (m acc : list (buffer * V)) (e : buffer * V).

Lemma map_emplace_last acc k (v : V) :
  Forall (fun e => buffer_ltb (fst e) k = true) acc ->
  map_emplace k v acc = acc ++ [(k, v)].
Proof.
  induction 1 as [| [k' v'] acc Hk _ IH]; simpl; [reflexivity |].
  simpl in Hk. rewrite (buffer_ltb_asym _ _ Hk), Hk. now rewrite IH.
Qed.

Lemma map_sorted_app acc e m :
  map_sorted (acc ++ e :: m) = true ->
  Forall (fun e' => buffer_ltb (fst e') (fst e) = true) acc.
Proof.
  induction acc as [| [k v] acc IH]; intros H; [constructor |].
  destruct acc as [| [k' v'] acc].
  - destruct e as [ke ve]. cbn [app map_sorted] in H.
    apply andb_prop in H as [Hk _]. now repeat constructor.
  - change (buffer_ltb k k' && map_sorted (((k', v') :: acc) ++ e :: m) = true)
      in H.
    apply andb_prop in H as [Hk Hs]. specialize (IH Hs).
    constructor; [| exact IH]. inversion IH as [| ? ? Ha _]; subst.
    exact (buffer_ltb_trans _ _ _ Hk Ha).
Qed.

Lemma fold_emplace_sorted m acc :
  map_sorted (acc ++ m) = true ->
  fold_left (fun a e => map_emplace (fst e) (snd e) a) m acc = acc ++ m.
Proof.
  revert acc. induction m as [| [k v] m IH]; intros acc H; cbn [fold_left].
  - now rewrite app_nil_r.
  - cbn [fst snd]. rewrite map_emplace_last.
    + rewrite IH; rewrite <- app_assoc; [reflexivity | exact H].
    + exact (map_sorted_app _ _ _ H).
Qed.
End Emplace.

Lemma ParseObject_loop_spec m obj :
  (1 <= m)%nat ->
  Forall (fun e => fits_int64 (length (fst e)) = true /\
                   reads_back m (snd e)) obj ->
  forall fuel acc raw pos rest,
    (length obj + m <= fuel)%nat ->
    UBJ.ParseObject_loop fuel acc
      (mkReader raw pos
         (flat_map (fun e => UBJ.EncodeStr (fst e) ++ UBJ.Save (snd e)) obj
          ++ "}"%char :: rest))
    = Ok (JsonObject
            (fold_left (fun a e => map_emplace (fst e) (snd e) a) obj acc))
         (mkReader raw
            (pos + length (flat_map (fun e => UBJ.EncodeStr (fst e)
                                              ++ UBJ.Save (snd e)) obj) + 1)
            rest).
Proof.
  intros Hm. induction 1 as [| [k v] obj [Hk Hv] _ IH];
    intros fuel acc raw pos rest Hf.
  - destruct fuel as [| fuel]; [cbn in Hf; lia |].
    rewrite ParseObject_loop_unfold. unfold UBJ.ParseObject_turn.
    cbn [flat_map app]. rewrite peek_cons. settle_markers.
    rewrite consecutive_cons. unfold ret. cbn [fold_left length].
    now rewrite Nat.add_0_r.
  - destruct fuel as [| fuel]; [cbn in Hf; lia |].
    cbn [length fst snd] in *.
    rewrite ParseObject_loop_unfold. unfold UBJ.ParseObject_turn.
    cbn [flat_map fst snd]. rewrite <- !app_assoc.
    erewrite peek_head by reflexivity. settle_markers.
    erewrite bind_Ok by (now apply DecodeStr_EncodeStr).
    assert (Hv' : reads_back fuel v)
      by (apply (reads_back_more m); [exact Hv | lia]).
    erewrite bind_Ok by apply Hv'.
    cbn [fold_left fst snd]. rewrite IH by lia.
    do 2 f_equal. rewrite !length_app. lia.
Qed.

Lemma reads_back_Object m obj :
  (1 <= m)%nat ->
  map_sorted obj = true ->
  Forall (fun e => fits_int64 (length (fst e)) = true /\
                   reads_back m (snd e)) obj ->
  reads_back (S (length obj + m)) (JsonObject obj).
Proof.
  intros Hm Hs Ho raw pos rest. rewrite Parse_unfold. cbn [UBJ.Save app].
  rewrite marker_object, <- app_assoc. cbn [app].
  rewrite (ParseObject_loop_spec m obj Hm Ho) by apply Nat.le_refl.
  rewrite fold_emplace_sorted by exact Hs. cbn [app].
  do 2 f_equal. cbn [length]. rewrite length_app. cbn [length]. lia.
Qed.

Lemma max_of_ge {A} (f : A -> nat) l x : In x l -> (f x <= max_of f l)%nat.
Proof.
  induction l as [| y l IH]; cbn [In max_of]; [easy |].
  intros [-> | H]; [lia | specialize (IH H); lia].
Qed.

(** The binary reader reads every well-formed document whose typed arrays
    are of the seven kinds with a type code back from its dump. *)
Lemma reads_back_all d :
  well_formed d = true -> UBJ.writable d = true ->
  forall fuel, (fuel_of d <= fuel)%nat -> reads_back fuel d.
Proof.
  induction d as [| b | i | f | s | vec IH | obj IH | t vec] using Json_ind;
    intros F W fuel Hf; cbn [fuel_of] in Hf.
  - destruct fuel as [| fuel]; [lia |]. intros raw pos rest.
    rewrite Parse_unfold. cbn [UBJ.Save app]. now rewrite marker_Z.
  - destruct fuel as [| fuel]; [lia |]. intros raw pos rest.
    rewrite Parse_unfold. cbn [UBJ.Save app].
    destruct b; [now rewrite marker_T | now rewrite marker_F].
  - destruct fuel as [| fuel]; [lia |]. now apply reads_back_Integer.
  - destruct fuel as [| fuel]; [lia |]. intros raw pos rest.
    rewrite Parse_unfold. cbn [UBJ.Save app]. rewrite marker_d.
    erewrite bind_Ok by (now apply ReadPrimitive_WritePrimitive).
    unfold ret. do 2 f_equal. cbn [length].
    rewrite length_WritePrimitive. cbn [sizeof]. lia.
  - destruct fuel as [| fuel]; [lia |]. intros raw pos rest.
    rewrite Parse_unfold. cbn [UBJ.Save app]. rewrite marker_S.
    erewrite bind_Ok by (now apply DecodeStr_EncodeStr).
    unfold ret. do 2 f_equal. cbn [length]. lia.
  - cbn [well_formed] in F. apply andb_prop in F as [Fn Fv].
    cbn [UBJ.writable] in W.
    apply (reads_back_more (S (max_of fuel_of vec))); [| exact Hf].
    apply reads_back_Array; [exact Fn |].
    rewrite forallb_forall in Fv, W. rewrite Forall_forall in IH |- *.
    intros x Hx. apply IH; auto. now apply max_of_ge.
  - cbn [well_formed] in F. apply andb_prop in F as [Fs Fv].
    cbn [UBJ.writable] in W.
    apply (reads_back_more
             (S (length obj + S (max_of (fun e => fuel_of (snd e)) obj))));
      [| exact Hf].
    apply reads_back_Object; [lia | exact Fs |].
    rewrite forallb_forall in Fv, W. rewrite Forall_forall in IH |- *.
    intros x Hx. specialize (Fv x Hx). apply andb_prop in Fv as [Fk Fx].
    split; [exact Fk |].
    apply IH; auto.
    pose proof (max_of_ge (fun e => fuel_of (snd e)) obj x Hx). cbn beta in *.
    lia.
  - destruct fuel as [| fuel]; [lia |]. intros raw pos rest.
    rewrite Parse_unfold.
    assert (E : UBJ.Save (JsonTypedArray t vec)
                = "["%char :: tl (UBJ.WriteTypedArray t vec)).
    { cbn [UBJ.writable] in W. destruct t; try discriminate W; reflexivity. }
    rewrite E. cbn [app]. rewrite marker_array.
    rewrite ParseArray_typed_array by assumption.
    do 2 f_equal. cbn [length]. lia.
Qed.

(** *** Every document without a NaN in an [F64Array] equals itself *)

Lemma buffer_eqb_refl a : buffer_eqb a a = true.
Proof. induction a; simpl; [reflexivity |]. now rewrite Ascii.eqb_refl. Qed.

Lemma equal_refl {A} (eq : A -> A -> bool) l :
  Forall (fun x => eq x x = true) l -> equal eq l l = true.
Proof. induction 1; simpl; [reflexivity |]. now apply andb_true_intro. Qed.

Lemma eq64_refl v :
  Float.is_nan (Float.of_bits64 v) = false -> Float.eq64 v v = true.
Proof.
  unfold Float.eq64, SFeqb. destruct (Float.of_bits64 v) as [s | s | | s m e];
    cbn [Float.is_nan SFcompare]; intros H; try discriminate;
    try (now destruct s).
  rewrite Z.compare_refl, Pos.compare_cont_refl. now destruct s.
Qed.

Lemma JsonTypedArray_eq_refl t vec :
  nan_free (JsonTypedArray t vec) = true -> JsonTypedArray_eq t vec vec = true.
Proof.
  intros H. unfold JsonTypedArray_eq. rewrite Nat.eqb_refl. cbn [negb].
  destruct t; try (apply equal_refl, Forall_forall; intros; apply Z.eqb_refl).
  - apply equal_refl, Forall_forall. intros. apply F32_elem_eq_refl.
  - apply equal_refl, Forall_forall. intros x Hx. apply eq64_refl.
    cbn [nan_free] in H. rewrite forallb_forall in H.
    specialize (H x Hx). now destruct (Float.is_nan (Float.of_bits64 x)).
Qed.

Lemma Value_eq_refl d :
  nan_free d = true -> forall swapped, Value_eq swapped d d = true.
Proof.
  induction d as [| b | i | f | s | vec IH | obj IH | t vec] using Json_ind;
    intros N swapped; cbn [Value_eq].
  - reflexivity.
  - destruct swapped; apply Bool.eqb_reflx.
  - destruct swapped; apply Z.eqb_refl.
  - destruct swapped; apply JsonNumber_eq_refl.
  - destruct swapped; apply buffer_eqb_refl.
  - rewrite Nat.eqb_refl. cbn [negb]. apply equal_refl.
    cbn [nan_free] in N. rewrite forallb_forall in N.
    rewrite Forall_forall in IH |- *. intros x Hx. apply IH; auto.
  - rewrite Nat.eqb_refl. cbn [andb]. apply equal_refl.
    cbn [nan_free] in N. rewrite forallb_forall in N.
    rewrite Forall_forall in IH |- *. intros x Hx.
    rewrite IH by auto. rewrite buffer_eqb_refl. now destruct swapped.
  - assert (E : ElemType_eqb t t = true) by now destruct t.
    rewrite E. cbn [andb].
    destruct swapped; now apply JsonTypedArray_eq_refl.
Qed.

(** ** What the binary reader can answer *)

Lemma yields_ret {A} (P : A -> Prop) a : P a -> yields P (ret a).
Proof. intros H r a' r' [= <- _]. exact H. Qed.

Lemma yields_raise {A} (P : A -> Prop) e : yields P (raise e).
Proof. intros r a r' E. discriminate E. Qed.

Lemma yields_Error {A} (P : A -> Prop) msg : yields P (Error msg).
Proof. intros r a r' E. discriminate E. Qed.

Lemma yields_out {A} (P : A -> Prop) : yields P (fun _ => OutOfFuel).
Proof. intros r a r' E. discriminate E. Qed.

Lemma yields_bind {A B} (Q : A -> Prop) (P : B -> Prop) c k :
  yields Q c -> (forall a, Q a -> yields P (k a)) -> yields P (bind c k).
Proof.
  intros Hc Hk r b r' E. unfold bind in E.
  destruct (c r) as [a r1 | e |] eqn:Ec; try discriminate E.
  exact (Hk a (Hc _ _ _ Ec) _ _ _ E).
Qed.

Lemma yields_any {A} (c : M A) : yields (fun _ => True) c.
Proof. now intros r a r' _. Qed.

Lemma yields_bind_any {A B} (P : B -> Prop) (c : M A) k :
  (forall a, yields P (k a)) -> yields P (bind c k).
Proof.
  intros Hk. apply (yields_bind (fun _ => True)); [apply yields_any | auto].
Qed.

Ltac yields_step :=
  first
    [ assumption
    | apply yields_ret
    | apply yields_raise
    | apply yields_Error
    | apply yields_out
    | match goal with
      | |- yields _ (if ?b then _ else _) => destruct b
      end
    | apply yields_bind_any; intros ? ].

Lemma ParseTypedArray_writable t n :
  UBJ.type_marker t <> None ->
  yields writable_answer (UBJ.ParseTypedArray t n).
Proof.
  intros H. unfold UBJ.ParseTypedArray, UBJ.length_error.
  repeat yields_step. unfold writable_answer. cbn [UBJ.writable].
  now destruct (UBJ.type_marker t).
Qed.

Lemma ParseArray_typed_writable : yields writable_answer UBJ.ParseArray_typed.
Proof.
  unfold UBJ.ParseArray_typed.
  repeat first [ apply ParseTypedArray_writable; discriminate | yields_step ].
Qed.

Lemma forallb_snoc {A} (f : A -> bool) l x :
  forallb f l = true -> f x = true -> forallb f (l ++ [x]) = true.
Proof. intros Hl Hx. rewrite forallb_app, Hl. cbn. now rewrite Hx. Qed.

Lemma ParseArray_counted_writable P k :
  yields writable_answer P ->
  forall results,
    forallb UBJ.writable results = true ->
    yields writable_answer (UBJ.ParseArray_counted P k results).
Proof.
  intros HP. induction k as [| k IH]; intros results Hr;
    cbn [UBJ.ParseArray_counted].
  - now apply yields_ret.
  - apply (yields_bind writable_answer); [exact HP |].
    intros v Hv. apply IH. now apply forallb_snoc.
Qed.

Lemma map_emplace_forallb {V} (f : buffer * V -> bool) k v m :
  forallb f m = true -> f (k, v) = true ->
  forallb f (map_emplace k v m) = true.
Proof.
  intros Hm Hv. induction m as [| [k' v'] m IH]; cbn [map_emplace forallb].
  - now rewrite Hv.
  - cbn [forallb] in Hm. apply andb_prop in Hm as [H1 H2].
    destruct (buffer_ltb k k'); [| destruct (buffer_ltb k' k)];
      cbn [forallb]; rewrite ?Hv, ?H1, ?H2, ?IH; auto.
Qed.

(** Every document the binary reader answers is one the binary writer can
    dump: its typed arrays are of the seven kinds with a type code. *)
Lemma Parse_writable fuel :
  yields writable_answer (UBJ.Parse fuel) /\
  (forall results,
      forallb UBJ.writable results = true ->
      yields writable_answer (UBJ.ParseArray_loop fuel results)) /\
  (forall results,
      forallb (fun e => UBJ.writable (snd e)) results = true ->
      yields writable_answer (UBJ.ParseObject_loop fuel results)).
Proof.
  induction fuel as [| fuel (IHP & IHA & IHO)].
  - repeat split; intros; apply yields_out.
  - split; [| split].
    + change (yields writable_answer
                (UBJ.Parse_ (UBJ.ParseObject_loop fuel [])
                   (UBJ.ParseArray (UBJ.Parse fuel)
                      (UBJ.ParseArray_loop fuel)))).
      unfold UBJ.Parse_.
      assert (HO : yields writable_answer (UBJ.ParseObject_loop fuel []))
        by now apply IHO.
      assert (HA : yields writable_answer
                     (UBJ.ParseArray (UBJ.Parse fuel)
                        (UBJ.ParseArray_loop fuel))).
      { unfold UBJ.ParseArray, UBJ.length_error.
        repeat first [ apply ParseArray_typed_writable
                     | apply ParseArray_counted_writable;
                       [exact IHP | reflexivity]
                     | apply IHA; reflexivity
                     | yields_step ]. }
      repeat yields_step; reflexivity.
    + intros results Hr.
      change (yields writable_answer
                (UBJ.ParseArray_turn (UBJ.Parse fuel)
                   (UBJ.ParseArray_loop fuel) results)).
      unfold UBJ.ParseArray_turn.
      do 2 yields_step.
      * repeat yields_step.
      * apply (yields_bind writable_answer); [exact IHP |].
        intros v Hv. apply IHA. now apply forallb_snoc.
    + intros results Hr.
      change (yields writable_answer
                (UBJ.ParseObject_turn (UBJ.Parse fuel)
                   (UBJ.ParseObject_loop fuel) results)).
      unfold UBJ.ParseObject_turn.
      do 2 yields_step.
      * repeat yields_step.
      * yields_step.
        apply (yields_bind writable_answer); [exact IHP |].
        intros v Hv. apply IHO. now apply map_emplace_forallb.
Qed.

(** No buffer at all is read as a document [==] to a [U16Array], a
    [U32Array] or a [U64Array]. *)
Lemma no_buffer_reads_as t vec fuel str d r :
  UBJ.type_marker t = None ->
  UBJ.Load fuel str = Ok d r ->
  Json_eq d (JsonTypedArray t vec) = false.
Proof.
  intros Ht E.
  assert (W : UBJ.writable d = true)
    by exact (proj1 (Parse_writable fuel) _ _ _ E).
  destruct d as [| | | | | | | t' vec']; try reflexivity.
  unfold Json_eq. cbn [Value_eq].
  destruct (ElemType_eqb t' t) eqn:Et; [| reflexivity].
  assert (t' = t) as -> by (destruct t', t; easy).
  cbn [UBJ.writable] in W. rewrite Ht in W. discriminate W.
Qed.

(** C1, as the code has it. Every well-formed document whose typed arrays
    are of the seven kinds the binary writer has a visit of its own for
    (F32, F64, I8, U8, I16, I32, I64) has a binary dump, and the binary
    reader, given fuel for the nesting of the document, reads from that
    dump the very same document, the cursor at the end of the buffer; the
    result is [==] to the document when no [F64Array] of it holds a NaN. *)
Theorem C1_binary_round_trip :
  forall d fuel,
    well_formed d = true -> UBJ.writable d = true ->
    UBJ.Dump d = Some (UBJ.Save d) /\
    UBJ.Load (fuel + fuel_of d) (UBJ.Save d)
    = Ok d (mkReader (UBJ.Save d) (length (UBJ.Save d)) []) /\
    (nan_free d = true -> Json_eq d d = true).
Proof.
  intros d fuel F W. split; [| split].
  - reflexivity.
  - unfold UBJ.Load, reader.
    pose proof (reads_back_all d F W (fuel + fuel_of d)%nat ltac:(lia)
                  (UBJ.Save d) 0%nat []) as H.
    rewrite app_nil_r in H. exact H.
  - intros N. now apply Value_eq_refl.
Qed.

Lemma C1_witness :
  UBJ.Load (fuel_of sample_document) (UBJ.Save sample_document)
  = Ok sample_document
       (mkReader (UBJ.Save sample_document)
          (length (UBJ.Save sample_document)) [])
  /\ Json_eq sample_document sample_document = true.
Proof.
  destruct (C1_binary_round_trip sample_document 0 eq_refl eq_refl)
    as (_ & H & E).
  split; [exact H | exact (E eq_refl)].
Defined.

(** C1 as stated fails at the [U16Array] of the single element 1. The
    binary writer has no visit of its own for it: the inherited
    [JsonWriter::Visit] writes a bracket, the element as the binary
    [Integer] it is boxed to, and a bracket. The binary reader reads these
    four bytes as an uncounted [Array] of one [Integer], which is not [==]
    to the typed array. Nor is anything else the reader can answer. *)
Lemma C1_counterexample :
  UBJ.Dump (JsonTypedArray U16 [1])
  = Some ("["%char :: "i"%char :: byte_of 1 :: lit "]")
  /\ UBJ.Load 3 ("["%char :: "i"%char :: byte_of 1 :: lit "]")
     = Ok (JsonArray [JsonInteger 1])
          (mkReader ("["%char :: "i"%char :: byte_of 1 :: lit "]") 4 [])
  /\ Json_eq (JsonArray [JsonInteger 1]) (JsonTypedArray U16 [1]) = false
  /\ ~ (forall d, well_formed d = true ->
                  exists bytes fuel d' r,
                    UBJ.Dump d = Some bytes /\
                    UBJ.Load fuel bytes = Ok d' r /\
                    Json_eq d' d = true).
Proof.
  split; [reflexivity |]. split; [vm_compute; reflexivity |].
  split; [reflexivity |].
  intros H.
  destruct (H (JsonTypedArray U16 [1]) eq_refl) as (b & f & d' & r & _ & L & E).
  rewrite (no_buffer_reads_as U16 [1] f b d' r eq_refl L) in E.
  discriminate E.
Qed.

(** With two elements the inherited visit puts a comma between them, which
    is no marker: the binary reader rejects the dump. *)
Lemma U16Array_dump_rejected :
  UBJ.Save (JsonTypedArray U16 [1; 2])
  = "["%char :: "i"%char :: byte_of 1 :: ","%char :: "i"%char :: byte_of 2
    :: lit "]"
  /\ UBJ.Load 4 (UBJ.Save (JsonTypedArray U16 [1; 2]))
     = Error "Unknown construct"
         (mkReader (UBJ.Save (JsonTypedArray U16 [1; 2])) 4
            ("i"%char :: byte_of 2 :: lit "]")).
Proof. split; vm_compute; reflexivity. Qed.

(** A second way C1 as stated fails: an [F64Array] holding a NaN is read
    back bit for bit, and still is not [==] to itself. *)
Lemma F64Array_NaN_not_equal :
  let d := JsonTypedArray F64 [0x7FF8000000000000] in
  UBJ.Load 1 (UBJ.Save d) = Ok d (mkReader (UBJ.Save d) 21 []) /\
  Json_eq d d = false.
Proof. split; vm_compute; reflexivity. Qed.

(** C3, as the code has it. For every 64-bit integer the writer emits one
    of the markers [i], [I], [l], [L] followed by the value in the width of
    that marker, the range of the marker holds the value, and the binary
    reader reads the same integer back. Unless the value is the least or the
    greatest value of [int8], [int16] or [int32], the marker is the smallest
    one whose range holds the value. 200 gets [I], 40000 gets [l] and
    3000000000 gets [L]. *)
Theorem C3_integer_markers :
  forall i,
    in_range I64 i = true ->
    (exists m t,
        marker_type m = Some t /\
        UBJ.Save (JsonInteger i) = m :: WritePrimitive t i /\
        in_range t i = true /\
        (is_limit i = false -> m = smallest_marker i)) /\
    (forall fuel,
        UBJ.Load (S fuel) (UBJ.Save (JsonInteger i))
        = Ok (JsonInteger i)
             (mkReader (UBJ.Save (JsonInteger i))
                (length (UBJ.Save (JsonInteger i))) [])) /\
    hd_error (UBJ.Save (JsonInteger 200)) = Some "I"%char /\
    hd_error (UBJ.Save (JsonInteger 40000)) = Some "l"%char /\
    hd_error (UBJ.Save (JsonInteger 3000000000)) = Some "L"%char.
Proof.
  intros i H. split; [| split; [| repeat split]].
  - cbn [UBJ.Save]. unfold UBJ.Visit_Integer.
    assert (R := H). unfold in_range in R. cbn [is_signed sizeof] in R.
    change (8 * Z.of_nat 8) with 64 in R.
    apply andb_prop in R as [R1 R2]. apply Z.leb_le in R1.
    apply Z.ltb_lt in R2.
    assert (L : is_limit i = false ->
                i <> -128 /\ i <> 127 /\ i <> -32768 /\ i <> 32767 /\
                i <> -2147483648 /\ i <> 2147483647).
    { unfold is_limit. cbn [existsb]. intros E.
      repeat (apply orb_false_elim in E as [?%Z.eqb_neq E]). tauto. }
    destruct (Z.ltb_spec (-128) i), (Z.ltb_spec i 127); cbn [andb];
      [exists "i"%char, I8 | | |];
      [| destruct (Z.ltb_spec (-32768) i), (Z.ltb_spec i 32767); cbn [andb];
         [exists "I"%char, I16 | | |];
         [| destruct (Z.ltb_spec (-2147483648) i),
                     (Z.ltb_spec i 2147483647); cbn [andb];
            [exists "l"%char, I32 | exists "L"%char, I64
             | exists "L"%char, I64 | exists "L"%char, I64] ..] ..];
      (split; [reflexivity |]; split; [reflexivity |]; split;
       [ unfold in_range; cbn [is_signed sizeof]; apply andb_true_intro;
         split; [apply Z.leb_le | apply Z.ltb_lt]; cbn; lia
       | intros E; apply L in E; unfold smallest_marker, in_range;
         cbn [is_signed sizeof];
         change (8 * Z.of_nat 1) with 8; change (8 * Z.of_nat 2) with 16;
         change (8 * Z.of_nat 4) with 32;
         change (2 ^ (8 - 1)) with 128; change (2 ^ (16 - 1)) with 32768;
         change (2 ^ (32 - 1)) with 2147483648;
         repeat match goal with
                | |- context [Z.leb ?a ?b] => destruct (Z.leb_spec a b)
                | |- context [Z.ltb ?a ?b] => destruct (Z.ltb_spec a b)
                end; cbn [andb]; try reflexivity; lia ]).
  - intros fuel. unfold UBJ.Load, reader.
    pose proof (reads_back_Integer fuel i H (UBJ.Save (JsonInteger i))
                  0%nat []) as E.
    rewrite app_nil_r in E. exact E.
Qed.

Lemma C3_witness :
  hd_error (UBJ.Save (JsonInteger 200)) = Some "I"%char /\
  UBJ.Load 1 (UBJ.Save (JsonInteger 200))
  = Ok (JsonInteger 200) (mkReader (UBJ.Save (JsonInteger 200)) 3 []).
Proof.
  destruct (C3_integer_markers 200 eq_refl) as (_ & R & M & _).
  split; [exact M | exact (R 0%nat)].
Defined.

(** C3 as stated fails: 200 does not get the marker [i], and 40000 does
    not get [I]. *)
Lemma C3_counterexample :
  ~ (hd_error (UBJ.Save (JsonInteger 200)) = Some "i"%char /\
     hd_error (UBJ.Save (JsonInteger 40000)) = Some "I"%char).
Proof. vm_compute. intros [E _]. discriminate E. Qed.




(** ** Inserting a key twice *)

Lemma buffer_ltb_irrefl a : buffer_ltb a a = false.
Proof.
  induction a as [| x a IH]; simpl; [reflexivity |].
  now rewrite Z.ltb_irrefl.
Qed.

Lemma buffer_ltb_not_eqb a b : buffer_ltb a b = true -> buffer_eqb b a = false.
Proof.
  revert b. induction a as [| x a IH]; intros [| y b]; simpl; try easy.
  destruct (Ascii.eqb_spec y x) as [-> | N]; [| reflexivity].
  rewrite Z.ltb_irrefl. apply IH.
Qed.

Section Twice.
Context {V : Type}.
Implicit Types (m : list (buffer * V)) (k : buffer) (v : V).

(** [emplace] of a key that is there leaves the map as it is. *)
Lemma map_emplace_twice m k v v' :
  map_emplace k v' (map_emplace k v m) = map_emplace k v m.
Proof.
  induction m as [| [k0 v0] m IH]; simpl.
  - now rewrite buffer_ltb_irrefl.
  - destruct (buffer_ltb k k0) eqn:E1; simpl.
    + now rewrite buffer_ltb_irrefl.
    + destruct (buffer_ltb k0 k) eqn:E2; simpl; rewrite E1, E2;
        [now rewrite IH | reflexivity].
Qed.

(** Assignment of a key that is there replaces its value. *)
Lemma map_assign_twice m k v v' :
  map_assign k v' (map_assign k v m) = map_assign k v' m.
Proof.
  induction m as [| [k0 v0] m IH]; simpl.
  - now rewrite buffer_ltb_irrefl.
  - destruct (buffer_ltb k k0) eqn:E1; simpl.
    + now rewrite buffer_ltb_irrefl.
    + destruct (buffer_ltb k0 k) eqn:E2; simpl.
      * now rewrite E1, E2, IH.
      * now rewrite buffer_ltb_irrefl.
Qed.

Lemma map_find_assign m k v : map_find k (map_assign k v m) = Some v.
Proof.
  induction m as [| [k0 v0] m IH]; simpl.
  - now rewrite buffer_eqb_refl.
  - destruct (buffer_ltb k k0) eqn:E1; simpl.
    + now rewrite buffer_eqb_refl.
    + destruct (buffer_ltb k0 k) eqn:E2; simpl.
      * now rewrite (buffer_ltb_not_eqb _ _ E2).
      * now rewrite buffer_eqb_refl.
Qed.
End Twice.

(** C4, at a binary buffer that holds the key [a] twice. The binary reader
    inserts with [emplace], which leaves a key that is already there alone:
    the object maps [a] to the first value, 1, not to the later one. The
    text reader assigns, and maps [a] to the later value, 2. Either way the
    object has one entry for the key. *)
Theorem C4_binary_reader_keeps_first :
  (forall fuel,
      UBJ.Load (fuel + 4) duplicate_key_binary
      = Ok (JsonObject [(lit "a", JsonInteger 1)])
           (mkReader duplicate_key_binary (length duplicate_key_binary) []))
  /\ (forall from_chars strtof fuel,
         Text.Load from_chars strtof (fuel + 4) duplicate_key_text
         = Ok (JsonObject [(lit "a", JsonInteger 2)])
              (mkReader duplicate_key_text (length duplicate_key_text) []))
  /\ (forall (m : list (buffer * Json)) k v v',
         map_emplace k v' (map_emplace k v m) = map_emplace k v m)
  /\ (forall (m : list (buffer * Json)) k v v',
         map_assign k v' (map_assign k v m) = map_assign k v' m /\
         map_find k (map_assign k v' (map_assign k v m)) = Some v').
Proof.
  split; [| split; [| split]].
  - intros fuel.
    rewrite UBJFuel.UBJ_Load_more; vm_compute; [reflexivity | discriminate].
  - intros fc sf fuel.
    rewrite TextFuel.Text_Load_more; vm_compute; [reflexivity | discriminate].
  - intros. apply map_emplace_twice.
  - intros. split; [apply map_assign_twice |].
    rewrite map_assign_twice. apply map_find_assign.
Qed.

(** ** The array loop of the text reader *)

Section TextArray.
Variable from_chars : buffer -> option Z.
Variable strtof : buffer -> Z.

Abbreviation TParse := (Text.Parse from_chars strtof).
Abbreviation TLoop := (Text.ParseArray_loop from_chars strtof).

Lemma Text_Parse_unfold fuel r :
  TParse (S fuel) r
  = Text.Parse_ from_chars strtof
      (Text.ParseObject (Text.ParseObject_loop from_chars strtof fuel))
      (Text.ParseArray (TLoop fuel)) r.
Proof. reflexivity. Qed.

Lemma Text_ParseArray_loop_unfold fuel data r :
  TLoop (S fuel) data r = Text.ParseArray_turn (TParse fuel) (TLoop fuel) data r.
Proof. reflexivity. Qed.

Lemma Text_Parse_le fuel fuel' r :
  (fuel <= fuel')%nat -> TParse fuel r <> OutOfFuel ->
  TParse fuel' r = TParse fuel r.
Proof.
  intros L N. replace fuel' with ((fuel' - fuel) + fuel)%nat by lia.
  now apply TextFuel.Text_Parse_more.
Qed.

(** At a character that is not white space, [Parse] dispatches on it. *)
Lemma Parse__at po pa raw pos c u :
  IsSpace (to_Char c) = false ->
  Text.Parse_ from_chars strtof po pa (mkReader raw pos (c :: u))
  = Text.Parse_dispatch from_chars strtof po pa (to_Char c)
      (mkReader raw pos (c :: u)).
Proof.
  intros H. unfold Text.Parse_, bind, SkipSpaces, Forward, PeekNextChar.
  cbn [unread raw_str_ Pos skip_spaces]. rewrite H. cbn [skipn].
  now rewrite Nat.add_0_r.
Qed.

(** An element is not empty and does not start with a closing bracket. *)
Lemma element_head fuel text v :
  element from_chars strtof fuel text v ->
  exists c t, text = c :: t /\ (to_Char c =? chr "]") = false.
Proof.
  intros H. destruct text as [| c t].
  - specialize (H ","%char [] 0%nat [] (or_introl eq_refl)).
    destruct fuel as [| fuel]; [discriminate |].
    rewrite Text_Parse_unfold in H. cbn [app] in H.
    rewrite Parse__at in H by reflexivity. discriminate H.
  - exists c, t. split; [reflexivity |].
    destruct (to_Char c =? chr "]") eqn:E; [| reflexivity].
    apply Z.eqb_eq in E.
    specialize (H ","%char [] 0%nat [] (or_introl eq_refl)).
    destruct fuel as [| fuel]; [discriminate |].
    rewrite Text_Parse_unfold in H. cbn [app] in H.
    rewrite Parse__at in H by (rewrite E; reflexivity).
    rewrite E in H. discriminate H.
Qed.

Lemma GetNextNonSpaceChar_at {B} (k : Z -> M B) c raw pos rest :
  IsSpace (to_Char c) = false ->
  bind GetNextNonSpaceChar k (mkReader raw pos (c :: rest))
  = k (to_Char c) (mkReader raw (pos + 1) rest).
Proof.
  intros H. unfold GetNextNonSpaceChar, bind, SkipSpaces, GetNextChar, Forward.
  cbn [unread raw_str_ Pos skip_spaces]. rewrite H. cbn [skipn unread Pos].
  now rewrite Nat.add_0_r.
Qed.

Lemma TLoop_closing fuel data raw pos rest :
  TLoop (S fuel) data (mkReader raw pos ("]"%char :: rest))
  = Ok (JsonArray data) (mkReader raw (pos + 1) rest).
Proof. reflexivity. Qed.

(** The loop of [ParseArray] over one or more elements, closed by a bracket
    or by a comma and a bracket. *)
Lemma TLoop_elements fuel es :
  forall e F acc raw pos rest closing,
    Forall (fun e => element from_chars strtof fuel (fst e) (snd e))
           (e :: es) ->
    (length (e :: es) + S fuel <= F)%nat ->
    closing = lit "]" \/ closing = lit ",]" ->
    TLoop F acc
      (mkReader raw pos (Text.comma_joined fst (e :: es) ++ closing ++ rest))
    = Ok (JsonArray (acc ++ map snd (e :: es)))
         (mkReader raw
            (pos + length (Text.comma_joined fst (e :: es)) + length closing)
            rest).
Proof.
  induction es as [| e' es IH]; intros [text v] F acc raw pos rest closing
    Hes HF Hc; inversion Hes as [| ? ? He Hes']; subst; cbn [fst snd] in He;
    (destruct F as [| F]; [cbn in HF; lia |]);
    cbn [length] in HF;
    destruct (element_head _ _ _ He) as (c0 & t & Et & Hc0);
    rewrite Text_ParseArray_loop_unfold; unfold Text.ParseArray_turn.
  - cbn [Text.comma_joined fst map snd].
    destruct Hc as [-> | ->]; cbn [app lit String.list_ascii_of_string].
    + erewrite peek_head by (rewrite Et; reflexivity). rewrite Hc0.
      erewrite bind_Ok.
      2: { rewrite Text_Parse_le with (fuel := fuel);
           [apply He; now right | lia | rewrite He by (now right); discriminate]. }
      rewrite GetNextNonSpaceChar_at by reflexivity.
      settle_markers. reflexivity.
    + erewrite peek_head by (rewrite Et; reflexivity). rewrite Hc0.
      erewrite bind_Ok.
      2: { rewrite Text_Parse_le with (fuel := fuel);
           [apply He; now left | lia | rewrite He by (now left); discriminate]. }
      rewrite GetNextNonSpaceChar_at by reflexivity.
      settle_markers. cbn [negb].
      destruct F as [| F]; [lia |]. rewrite TLoop_closing.
      do 2 f_equal. cbn [length]. lia.
  - change (Text.comma_joined fst ((text, v) :: e' :: es))
      with (text ++ ","%char :: Text.comma_joined fst (e' :: es)).
    rewrite <- app_assoc. cbn [app].
    erewrite peek_head by (rewrite Et; reflexivity). rewrite Hc0.
    erewrite bind_Ok.
    2: { rewrite Text_Parse_le with (fuel := fuel);
         [apply He; now left | lia | rewrite He by (now left); discriminate]. }
    rewrite GetNextNonSpaceChar_at by reflexivity.
    settle_markers. cbn [negb].
    rewrite (IH e' F) by (assumption || (cbn [length]; lia)).
    cbn [map snd]. rewrite <- app_assoc. cbn [app].
    do 2 f_equal. rewrite length_app. cbn [length]. lia.
Qed.

(** [Load] of a bracketed, comma-separated run of one or more elements. *)
Lemma Load_elements fuel e es closing k :
  Forall (fun e => element from_chars strtof fuel (fst e) (snd e)) (e :: es) ->
  closing = lit "]" \/ closing = lit ",]" ->
  let text := "["%char :: Text.comma_joined fst (e :: es) ++ closing in
  Text.Load from_chars strtof (k + S (length (e :: es) + S fuel)) text
  = Ok (JsonArray (map snd (e :: es))) (mkReader text (length text) []).
Proof.
  intros Hes Hc text. unfold Text.Load, reader.
  rewrite Nat.add_succ_r, Text_Parse_unfold.
  unfold text at 2. rewrite Parse__at by reflexivity.
  change (Text.Parse_dispatch from_chars strtof ?po ?pa (to_Char "["%char))
    with pa.
  unfold Text.ParseArray. unfold text at 2. rewrite consecutive_cons.
  pose proof (TLoop_elements fuel es e (k + (length (e :: es) + S fuel))%nat
                [] text 1%nat [] closing Hes ltac:(lia) Hc) as H.
  rewrite app_nil_r in H. cbn [app] in H.
  change (0 + 1)%nat with 1%nat. rewrite H.
  do 2 f_equal. unfold text. cbn [length]. rewrite length_app. lia.
Qed.

End TextArray.

(** C10. Let [e1, ..., en], [n >= 1], be texts the reader reads as the
    values [v1, ..., vn] when a comma or a closing bracket follows. Then
    the text reader reads the input [[e1,...,en,]], with a comma after the
    last element, as the array of [v1, ..., vn], the same array it reads
    from [[e1,...,en]]; in both cases the whole input is consumed. *)
Theorem C10_trailing_comma :
  forall from_chars strtof fuel e es k,
    Forall (fun e => element from_chars strtof fuel (fst e) (snd e))
           (e :: es) ->
    let body := Text.comma_joined fst (e :: es) in
    let trailing := "["%char :: body ++ lit ",]" in
    let plain := "["%char :: body ++ lit "]" in
    let enough := (k + S (length (e :: es) + S fuel))%nat in
    Text.Load from_chars strtof enough trailing
    = Ok (JsonArray (map snd (e :: es)))
         (mkReader trailing (length trailing) [])
    /\ Text.Load from_chars strtof enough plain
       = Ok (JsonArray (map snd (e :: es))) (mkReader plain (length plain) []).
Proof.
  intros fc sf fuel e es k H body trailing plain enough. split.
  - apply (Load_elements fc sf fuel e es (lit ",]") k H). now right.
  - apply (Load_elements fc sf fuel e es (lit "]") k H). now left.
Qed.

Lemma C10_witness :
  let none : buffer -> option Z := fun _ => None in
  let zero : buffer -> Z := fun _ => 0 in
  Text.Load none zero 5 (lit "[1,true,]")
  = Ok (JsonArray [JsonInteger 1; JsonBoolean true])
       (mkReader (lit "[1,true,]") 9 [])
  /\ Text.Load none zero 5 (lit "[1,true]")
     = Ok (JsonArray [JsonInteger 1; JsonBoolean true])
          (mkReader (lit "[1,true]") 8 []).
Proof.
  intros none zero.
  apply (C10_trailing_comma none zero 1 (lit "1", JsonInteger 1)
           [(lit "true", JsonBoolean true)] 0).
  apply Forall_cons; [| apply Forall_cons; [| apply Forall_nil]];
    intros c raw pos rest [-> | ->]; cbn; unfold Forward, ret;
    cbn [Pos unread raw_str_ skipn]; do 2 f_equal; lia.
Defined.

(** ** Decimal integers, written and read *)

Lemma signed_eq_mod w a b :
  a mod 2 ^ w = b mod 2 ^ w -> signed w a = signed w b.
Proof. unfold signed. now intros ->. Qed.

Lemma signed_mod_same w a : 0 < w -> signed w a mod 2 ^ w = a mod 2 ^ w.
Proof.
  intros Hw. unfold signed.
  assert (0 < 2 ^ w) by (apply Z.pow_pos_nonneg; lia).
  destruct (a mod 2 ^ w <? 2 ^ (w - 1)).
  - apply Z.mod_mod. lia.
  - rewrite <- (Z.mod_add _ 1) by lia.
    replace (a mod 2 ^ w - 2 ^ w + 1 * 2 ^ w) with (a mod 2 ^ w) by lia.
    apply Z.mod_mod. lia.
Qed.

Lemma wrap64_congr a b : (a - b) mod 2 ^ 64 = 0 -> wrap64 a = wrap64 b.
Proof.
  intros H. apply signed_eq_mod.
  replace a with (b + (a - b)) by lia.
  rewrite Z.add_mod, H, Z.add_0_r, Z.mod_mod by lia. reflexivity.
Qed.

Lemma wrap64_diff a : (wrap64 a - a) mod 2 ^ 64 = 0.
Proof.
  rewrite Zminus_mod. unfold wrap64. rewrite signed_mod_same by lia.
  now rewrite Z.sub_diag.
Qed.

Lemma wrap64_small a : - 2 ^ 63 <= a < 2 ^ 63 -> wrap64 a = a.
Proof.
  intros H. unfold wrap64. rewrite <- (signed_mod 64 a) at 2 by lia.
  apply signed_eq_mod. symmetry. apply Z.mod_mod. lia.
Qed.

Lemma horner_linear D a :
  horner D a = a * 10 ^ Z.of_nat (length D) + horner D 0.
Proof.
  revert a. induction D as [| c D IH]; intros a; cbn [horner length].
  - simpl. lia.
  - rewrite IH, (IH (0 * 10 + _)), Nat2Z.inj_succ, Z.pow_succ_r by lia. ring.
Qed.

Lemma horner_app D1 D2 a : horner (D1 ++ D2) a = horner D2 (horner D1 a).
Proof. revert a. induction D1; intros; cbn [app horner]; auto. Qed.

Lemma horner64_wrap D a : horner64 D (wrap64 a) = wrap64 (horner D a).
Proof.
  revert a. induction D as [| c D IH]; intros a; cbn [horner64 horner].
  - reflexivity.
  - rewrite IH. apply wrap64_congr.
    rewrite horner_linear, (horner_linear D (a * 10 + _)).
    match goal with
    | |- (?x * ?p + ?h - (?y * ?p + ?h)) mod _ = 0 =>
        replace (x * p + h - (y * p + h)) with ((x - y) * p) by ring
    end.
    rewrite Z.mul_mod by lia.
    replace (wrap64 a * 10 + (to_Char c - chr "0")
             - (a * 10 + (to_Char c - chr "0")))
      with ((wrap64 a - a) * 10) by ring.
    rewrite (Z.mul_mod (wrap64 a - a)), wrap64_diff by lia. reflexivity.
Qed.

Lemma horner64_0 D : horner64 D 0 = wrap64 (horner D 0).
Proof. exact (horner64_wrap D 0). Qed.

Lemma scan_digits_spec D a c rest :
  forallb is_digit D = true -> is_digit c = false ->
  Text.scan_digits (D ++ c :: rest) a = (horner64 D a, c :: rest, length D).
Proof.
  revert a. induction D as [| d D IH]; intros a HD Hc.
  - cbn [app Text.scan_digits horner64 length]. unfold is_digit in Hc.
    now rewrite Hc.
  - cbn [forallb] in HD. apply andb_prop in HD as [Hd HD].
    cbn [app Text.scan_digits horner64 length]. unfold is_digit in Hd.
    rewrite Hd, IH by assumption. reflexivity.
Qed.

Lemma to_Char_digit d : 0 <= d < 10 -> to_Char (digit_char d) = 48 + d.
Proof.
  intros H.
  assert (C : d = 0 \/ d = 1 \/ d = 2 \/ d = 3 \/ d = 4 \/ d = 5 \/ d = 6
              \/ d = 7 \/ d = 8 \/ d = 9) by lia.
  repeat destruct C as [-> | C]; try subst d; reflexivity.
Qed.

Lemma is_digit_digit d : 0 <= d < 10 -> is_digit (digit_char d) = true.
Proof.
  intros H. unfold is_digit. rewrite to_Char_digit by assumption.
  change (chr "0") with 48. change (chr "9") with 57.
  apply andb_true_intro. split; apply Z.leb_le; lia.
Qed.

Lemma decimal_digits_S fuel n acc :
  decimal_digits (S fuel) n acc
  = if n / 10 =? 0 then digit_char (n mod 10) :: acc
    else decimal_digits fuel (n / 10) (digit_char (n mod 10) :: acc).
Proof. reflexivity. Qed.

(** [decimal_digits] puts the digits of [n] in front of [acc]. *)
Lemma decimal_digits_spec fuel n acc :
  0 <= n < 10 ^ Z.of_nat (S fuel) ->
  exists D,
    decimal_digits (S fuel) n acc = D ++ acc /\ D <> [] /\
    forallb is_digit D = true /\ horner D 0 = n.
Proof.
  revert n acc. induction fuel as [| fuel IH]; intros n acc Hn.
  - change (10 ^ Z.of_nat 1) with 10 in Hn.
    exists [digit_char n]. rewrite decimal_digits_S.
    rewrite (Z.div_small n 10), (Z.mod_small n 10) by lia.
    cbn [Z.eqb app forallb horner]. rewrite is_digit_digit, to_Char_digit by lia.
    repeat split; try easy. change (chr "0") with 48. lia.
  - rewrite decimal_digits_S.
    assert (Hm : 0 <= n mod 10 < 10) by (apply Z.mod_pos_bound; lia).
    destruct (Z.eqb_spec (n / 10) 0) as [E | E].
    + exists [digit_char (n mod 10)].
      cbn [app forallb horner]. rewrite is_digit_digit, to_Char_digit by lia.
      repeat split; try easy. change (chr "0") with 48.
      pose proof (Z.div_mod n 10 ltac:(lia)). lia.
    + destruct (IH (n / 10) (digit_char (n mod 10) :: acc)) as (D & ED & _ & FD & HD).
      { split; [apply Z.div_pos; lia |].
        apply Z.div_lt_upper_bound; [lia |].
        rewrite (Nat2Z.inj_succ (S fuel)), Z.pow_succ_r in Hn by lia. lia. }
      exists (D ++ [digit_char (n mod 10)]).
      rewrite ED, <- app_assoc. split; [reflexivity |].
      split; [now destruct D |].
      rewrite forallb_app, FD, horner_app, HD. cbn [forallb horner].
      rewrite is_digit_digit, to_Char_digit by lia.
      split; [reflexivity |]. change (chr "0") with 48.
      pose proof (Z.div_mod n 10 ltac:(lia)). lia.
Qed.

Section TextNumber.
Variable from_chars : buffer -> option Z.
Variable strtof : buffer -> Z.

Lemma is_digit_range c : is_digit c = true -> 48 <= to_Char c <= 57.
Proof.
  unfold is_digit. change (chr "0") with 48. change (chr "9") with 57.
  intros H. apply andb_prop in H as [L U]. apply Z.leb_le in L, U. lia.
Qed.




Lemma Parse_dispatch_digit po pa c :
  48 <= c <= 57 ->
  Text.Parse_dispatch from_chars strtof po pa c
  = Text.ParseNumber from_chars strtof.
Proof.
  intros H. unfold Text.Parse_dispatch, isdigit.
  change (chr "{") with 123. change (chr "[") with 91.
  change (chr "0") with 48. change (chr "9") with 57.
  rewrite (proj2 (Z.eqb_neq c (-1))), (proj2 (Z.eqb_neq c 123)),
    (proj2 (Z.eqb_neq c 91)) by lia.
  rewrite (proj2 (Z.leb_le 48 c)), (proj2 (Z.leb_le c 57)) by lia.
  cbn [andb]. now rewrite orb_true_r.
Qed.

Lemma digit_not_space c : 48 <= c <= 57 -> IsSpace c = false.
Proof.
  intros H. unfold IsSpace.
  change (chr " ") with 32. change (chr "010") with 10.
  change (chr "013") with 13. change (chr "009") with 9.
  now rewrite !(proj2 (Z.eqb_neq c _)) by lia.
Qed.

End TextNumber.

(** ** Rendering of arrays *)


Lemma comma_joined_map {A B} (f : B -> buffer) (g : A -> B) l :
  Text.comma_joined f (map g l) = Text.comma_joined (fun x => f (g x)) l.
Proof.
  induction l as [| x [| y l] IH]; try reflexivity.
  change (f (g x) ++ ","%char :: Text.comma_joined f (map g (y :: l))
          = f (g x) ++ ","%char
              :: Text.comma_joined (fun x => f (g x)) (y :: l)).
  now rewrite IH.
Qed.

(** ** Equality is reflexive up to NaN, and symmetric *)

Lemma equal_forallb {A} (eq : A -> A -> bool) (f : A -> bool) l :
  Forall (fun x => eq x x = f x) l -> equal eq l l = forallb f l.
Proof. induction 1 as [| x l H _ IH]; simpl; [reflexivity |]. now rewrite H, IH. Qed.

Lemma eq64_diag v :
  Float.eq64 v v = negb (Float.is_nan (Float.of_bits64 v)).
Proof.
  destruct (Float.is_nan (Float.of_bits64 v)) eqn:E.
  - unfold Float.eq64. now destruct (Float.of_bits64 v).
  - now apply eq64_refl.
Qed.

Lemma Value_eq_diag d : forall swapped, Value_eq swapped d d = nan_free d.
Proof.
  induction d as [| b | i | f | s | vec IH | obj IH | t vec] using Json_ind;
    intros swapped; cbn [Value_eq nan_free].
  - reflexivity.
  - destruct swapped; apply Bool.eqb_reflx.
  - destruct swapped; apply Z.eqb_refl.
  - destruct swapped; apply JsonNumber_eq_refl.
  - destruct swapped; apply buffer_eqb_refl.
  - rewrite Nat.eqb_refl. cbn [negb]. apply equal_forallb.
    apply Forall_forall. rewrite Forall_forall in IH. intros x Hx.
    now apply IH.
  - rewrite Nat.eqb_refl. cbn [andb]. apply equal_forallb.
    apply Forall_forall. rewrite Forall_forall in IH. intros x Hx.
    rewrite IH by assumption. rewrite buffer_eqb_refl. now destruct swapped.
  - assert (E : ElemType_eqb t t = true) by now destruct t.
    rewrite E. cbn [andb].
    assert (H : JsonTypedArray_eq t vec vec
                = nan_free (JsonTypedArray t vec)).
    { unfold JsonTypedArray_eq. rewrite Nat.eqb_refl. cbn [negb nan_free].
      destruct t;
        try (apply equal_refl, Forall_forall; intros; apply Z.eqb_refl).
      - apply equal_refl, Forall_forall. intros. apply F32_elem_eq_refl.
      - apply equal_forallb, Forall_forall. intros. apply eq64_diag. }
    cbn [nan_free] in H. now destruct swapped.
Qed.

(** X1. A document is [==] to itself exactly when none of its [F64Array]s holds
    a NaN: [JsonNumber] and [F32Array] compare NaN with NaN as equal,
    [F64Array] compares with [==] on [double]. *)
Theorem X1_equal_to_itself : forall d, Json_eq d d = nan_free d.
Proof. intros d. apply Value_eq_diag. Qed.

Lemma SFeqb_sym x y : SFeqb x y = SFeqb y x.
Proof.
  assert (H : forall x y, SFeqb x y = true -> SFeqb y x = true).
  { clear. intros x y H.
    destruct x as [s | s | | s m e], y as [s' | s' | | s' m' e'];
      try discriminate H;
      try (destruct s, s'; try discriminate H; reflexivity);
      try (destruct s; discriminate H);
      try (destruct s'; discriminate H).
    apply SFeqb_finite_inv in H as (-> & -> & ->). now apply SFeqb_refl. }
  destruct (SFeqb x y) eqn:E1, (SFeqb y x) eqn:E2; try reflexivity.
  - apply H in E1. congruence.
  - apply H in E2. congruence.
Qed.

Lemma sub32_is_zero_sym a b :
  Float.sub32_is_zero a b = Float.sub32_is_zero b a.
Proof.
  unfold Float.sub32_is_zero. rewrite !SFeqb_zero.
  pose proof (of_bits32_valid a) as Va. pose proof (of_bits32_valid b) as Vb.
  destruct (Float.is_finite (Float.of_bits32 a)) eqn:Fa;
    destruct (Float.is_finite (Float.of_bits32 b)) eqn:Fb.
  - rewrite !SFsub_zero by assumption. apply SFeqb_sym.
  - destruct (Float.of_bits32 a) as [s | s | | s m e]; try discriminate Fa;
      destruct (Float.of_bits32 b) as [s' | s' | | s' m' e'];
      try discriminate Fb; try reflexivity;
      destruct s, s'; reflexivity.
  - destruct (Float.of_bits32 a) as [s | s | | s m e]; try discriminate Fa;
      destruct (Float.of_bits32 b) as [s' | s' | | s' m' e'];
      try discriminate Fb; try reflexivity;
      destruct s, s'; reflexivity.
  - destruct (Float.of_bits32 a) as [s | s | | s m e]; try discriminate Fa;
      destruct (Float.of_bits32 b) as [s' | s' | | s' m' e'];
      try discriminate Fb; try reflexivity;
      destruct s, s'; reflexivity.
Qed.

Lemma JsonNumber_eq_sym a b : JsonNumber_eq a b = JsonNumber_eq b a.
Proof.
  unfold JsonNumber_eq. rewrite (sub32_is_zero_sym a b).
  unfold Float.isinf32, Float.isnan32.
  pose proof (SFsub_zero (Float.of_bits32 b) (Float.of_bits32 a)
                (of_bits32_valid b) (of_bits32_valid a)) as Hb.
  unfold Float.sub32_is_zero. rewrite SFeqb_zero.
  destruct (Float.of_bits32 a) as [s | s | | s m e];
    destruct (Float.of_bits32 b) as [s' | s' | | s' m' e'];
    cbn [Float.is_inf Float.is_nan]; try reflexivity;
    try (destruct s, s'; reflexivity);
    try (destruct s; reflexivity); try (destruct s'; reflexivity).
Qed.

(** The element test of [F32Array] takes its cases in another order and
    subtracts the other way round, and still is the test of [Number]. *)
Lemma F32_elem_eq_Number v a : F32_elem_eq v a = JsonNumber_eq v a.
Proof.
  unfold F32_elem_eq, JsonNumber_eq. rewrite (sub32_is_zero_sym a v).
  unfold Float.isinf32, Float.isnan32.
  destruct (Float.of_bits32 v); reflexivity.
Qed.
Lemma buffer_eqb_sym a b : buffer_eqb a b = buffer_eqb b a.
Proof.
  revert b. induction a as [| x a IH]; destruct b as [| y b]; simpl; auto.
  now rewrite IH, Ascii.eqb_sym.
Qed.

Lemma equal_flip {A B} (f : A -> B -> bool) (g : B -> A -> bool) xs :
  Forall (fun x => forall y, f x y = g y x) xs ->
  forall ys, equal f xs ys = equal g ys xs.
Proof.
  induction 1 as [| x xs H _ IH]; destruct ys as [| y ys]; simpl; auto.
  now rewrite H, IH.
Qed.

Lemma equal_ext {A B} (f g : A -> B -> bool) xs :
  Forall (fun x => forall y, f x y = g x y) xs ->
  forall ys, equal f xs ys = equal g xs ys.
Proof.
  induction 1 as [| x xs H _ IH]; destruct ys as [| y ys]; simpl; auto.
  now rewrite H, IH.
Qed.

Lemma ElemType_eqb_eq t t' : ElemType_eqb t t' = true -> t = t'.
Proof. destruct t, t'; simpl; congruence. Qed.

Lemma ElemType_eqb_sym t t' : ElemType_eqb t t' = ElemType_eqb t' t.
Proof. now destruct t, t'. Qed.

Lemma JsonTypedArray_eq_sym t xs ys :
  JsonTypedArray_eq t xs ys = JsonTypedArray_eq t ys xs.
Proof.
  unfold JsonTypedArray_eq. rewrite (Nat.eqb_sym (length xs)).
  destruct (Nat.eqb (length ys) (length xs)); cbn [negb]; [| reflexivity].
  destruct t;
    try (apply equal_flip, Forall_forall; intros; apply Z.eqb_sym).
  - apply equal_flip, Forall_forall. intros x _ y.
    now rewrite !F32_elem_eq_Number, JsonNumber_eq_sym.
  - apply equal_flip, Forall_forall. intros x _ y. apply SFeqb_sym.
Qed.

(** The two readings of the operands give the same comparison. *)
Lemma Value_eq_swapped x :
  forall y swapped, Value_eq swapped x y = Value_eq (negb swapped) x y.
Proof.
  induction x as [| b | i | f | s | vec IH | obj IH | t vec] using Json_ind;
    intros y swapped; destruct y as [| b' | i' | f' | s' | vec' | obj' | t' vec'];
    cbn [Value_eq]; try reflexivity.
  - destruct swapped, b, b'; reflexivity.
  - destruct swapped; cbn [negb]; apply Z.eqb_sym.
  - destruct swapped; cbn [negb]; apply JsonNumber_eq_sym.
  - destruct swapped; cbn [negb]; apply buffer_eqb_sym.
  - destruct (Nat.eqb (length vec) (length vec')); cbn [negb]; [| reflexivity].
    apply equal_ext. rewrite Forall_forall in IH |- *.
    intros x Hx y. apply IH, Hx.
  - f_equal. apply equal_ext. rewrite Forall_forall in IH |- *.
    intros x Hx y. rewrite (IH x Hx).
    destruct swapped; cbn [negb]; f_equal; apply buffer_eqb_sym.
  - destruct (ElemType_eqb t t') eqn:E; cbn [andb]; [| reflexivity].
    apply ElemType_eqb_eq in E as <-.
    destruct swapped; cbn [negb]; apply JsonTypedArray_eq_sym.
Qed.

(** Exchanging the operands exchanges the two readings. *)
Lemma Value_eq_flip x :
  forall y swapped, Value_eq swapped x y = Value_eq (negb swapped) y x.
Proof.
  induction x as [| b | i | f | s | vec IH | obj IH | t vec] using Json_ind;
    intros y swapped; destruct y as [| b' | i' | f' | s' | vec' | obj' | t' vec'];
    cbn [Value_eq]; try reflexivity.
  - now destruct swapped.
  - now destruct swapped.
  - now destruct swapped.
  - now destruct swapped.
  - rewrite (Nat.eqb_sym (length vec)).
    destruct (Nat.eqb (length vec') (length vec)); cbn [negb]; [| reflexivity].
    apply equal_flip. rewrite Forall_forall in IH |- *.
    intros x Hx y. rewrite (IH x Hx). reflexivity.
  - rewrite (Nat.eqb_sym (length obj)). f_equal.
    apply equal_flip. rewrite Forall_forall in IH |- *.
    intros x Hx y. rewrite (IH x Hx). now destruct swapped.
  - rewrite (ElemType_eqb_sym t). now destruct swapped.
Qed.

(** X2. [==] on documents is symmetric, although [JsonArray::operator==] and
    the typed arrays hand their operands to the element comparison the
    other way round. *)
Theorem X2_equality_symmetric : forall x y, Json_eq x y = Json_eq y x.
Proof.
  intros x y. unfold Json_eq.
  rewrite (Value_eq_flip x y false). symmetry. apply Value_eq_swapped.
Qed.

(** X3. Two [F32Array]s are [==] exactly when the [Array]s of the same values
    as [Number]s are. *)
Theorem X3_F32Array_as_Numbers :
  forall xs ys,
    Json_eq (JsonTypedArray F32 xs) (JsonTypedArray F32 ys)
    = Json_eq (JsonArray (map JsonNumber xs)) (JsonArray (map JsonNumber ys)).
Proof.
  intros xs ys. unfold Json_eq. cbn [Value_eq ElemType_eqb andb negb].
  unfold JsonTypedArray_eq. rewrite !length_map.
  destruct (Nat.eqb (length xs) (length ys)); cbn [negb]; [| reflexivity].
  revert ys. induction xs as [| x xs IH]; destruct ys as [| y ys];
    cbn [map equal]; try reflexivity.
  rewrite IH. cbn [Value_eq]. f_equal.
  now rewrite F32_elem_eq_Number, JsonNumber_eq_sym.
Qed.

(** ** Strings of the text reader *)

Lemma byte_val_range a : 0 <= byte_val a < 256.
Proof.
  unfold byte_val. pose proof (N_ascii_bounded a). lia.
Qed.

Lemma to_Char_inj a b : to_Char a = to_Char b -> a = b.
Proof.
  unfold to_Char, signed. intros H.
  pose proof (byte_val_range a) as Ha. pose proof (byte_val_range b) as Hb.
  rewrite !Z.mod_small in H by lia.
  assert (E : byte_val a = byte_val b).
  { change (2 ^ (8 - 1)) with 128 in H. change (2 ^ 8) with 256 in H.
    destruct (byte_val a <? 128) eqn:E1, (byte_val b <? 128) eqn:E2; lia. }
  unfold byte_val in E. apply Nat2Z.inj in E || idtac.
  apply N2Z.inj in E.
  rewrite <- (ascii_N_embedding a), <- (ascii_N_embedding b). now rewrite E.
Qed.

Lemma to_Char_eqb a b : (to_Char a =? to_Char b) = Ascii.eqb a b.
Proof.
  destruct (Ascii.eqb a b) eqn:E.
  - apply Ascii.eqb_eq in E as ->. apply Z.eqb_refl.
  - apply Z.eqb_neq. intros H. apply to_Char_inj in H.
    apply Ascii.eqb_neq in E. contradiction.
Qed.

Lemma chr_eqb a b : (to_Char a =? chr b) = Ascii.eqb a b.
Proof. apply to_Char_eqb. Qed.

Ltac settle_chars :=
  repeat match goal with
         | |- context [Ascii.eqb ?a ?b] =>
             let v := eval vm_compute in (Ascii.eqb a b) in
             match v with
             | true => idtac
             | false => idtac
             end;
             change (Ascii.eqb a b) with v; cbv iota
         end.

Lemma ParseString_loop_escaped s :
  forall n str rest r,
    no_EOF s = true ->
    Text.ParseString_loop (escaped s ++ quote :: rest) n str r
    = Ok (JsonString (str ++ s)) (Forward (S (n + length (escaped s))) r).
Proof.
  induction s as [| c s IH]; intros n str rest r H.
  - cbn [escaped app length Text.ParseString_loop].
    rewrite !chr_eqb. settle_chars. rewrite app_nil_r, Nat.add_0_r.
    reflexivity.
  - cbn [no_EOF forallb] in H. apply andb_prop in H as [Hc Hs].
    cbn [escaped].
    destruct (Ascii.eqb c "013") eqn:E1;
      [apply Ascii.eqb_eq in E1 as -> |
       destruct (Ascii.eqb c "010") eqn:E2;
       [apply Ascii.eqb_eq in E2 as -> |
        destruct (Ascii.eqb c "\") eqn:E3;
        [apply Ascii.eqb_eq in E3 as -> |
         destruct (Ascii.eqb c "009") eqn:E4;
         [apply Ascii.eqb_eq in E4 as -> |
          destruct (Ascii.eqb c quote) eqn:E5;
          [apply Ascii.eqb_eq in E5 as -> |]]]]];
      cbn [lit String.list_ascii_of_string app Text.ParseString_loop];
      rewrite ?chr_eqb;
      try (settle_chars;
           rewrite (IH _ _ _ _ Hs), <- app_assoc; cbn [app length];
           do 2 f_equal; lia).
    rewrite E1, E2, E3, E5. cbn [orb].
    apply negb_true_iff in Hc. rewrite Hc.
    rewrite (IH _ _ _ _ Hs), <- app_assoc. cbn [app length orb].
    do 2 f_equal; lia.
Qed.

Section TextStrings.
Variable from_chars : buffer -> option Z.
Variable strtof : buffer -> Z.

(** At a double quote [Parse] reads a string. *)
Lemma Parse_at_quote fuel raw pos u :
  Text.Parse from_chars strtof (S fuel) (mkReader raw pos (quote :: u))
  = Text.ParseString (mkReader raw pos (quote :: u)).
Proof.
  rewrite Text_Parse_unfold, Parse__at by reflexivity. reflexivity.
Qed.

Lemma ParseString_escaped s raw pos rest :
  no_EOF s = true ->
  Text.ParseString (mkReader raw pos (quote :: escaped s ++ quote :: rest))
  = Ok (JsonString s) (mkReader raw (pos + length (escaped s) + 2) rest).
Proof.
  intros H. unfold Text.ParseString. rewrite consecutive_cons.
  cbn [unread]. rewrite ParseString_loop_escaped by assumption.
  unfold Forward. cbn [raw_str_ Pos unread app Nat.add].
  f_equal. f_equal; [lia |].
  change (quote :: rest) with ([quote] ++ rest). rewrite app_assoc.
  apply skipn_exact. rewrite length_app. cbn [length]. lia.
Qed.

Lemma plain_char_inv c :
  plain_char c = true ->
  Ascii.eqb c "\" = false /\ Ascii.eqb c quote = false /\
  (to_Char c =? EOF) = false /\ Ascii.eqb c "013" = false /\
  Ascii.eqb c "010" = false.
Proof.
  unfold plain_char. rewrite !chr_eqb. intros H.
  apply negb_true_iff in H.
  repeat match type of H with
         | (_ || _) = false => apply orb_false_elim in H as [H ?]
         end.
  auto.
Qed.

Lemma ParseString_loop_plain s :
  forall n str u r,
    plain_string s = true ->
    Text.ParseString_loop (s ++ u) n str r
    = Text.ParseString_loop u (n + length s) (str ++ s) r.
Proof.
  induction s as [| c s IH]; intros n str u r H.
  - cbn [app length]. now rewrite app_nil_r, Nat.add_0_r.
  - cbn [plain_string forallb] in H. apply andb_prop in H as [Hc Hs].
    apply plain_char_inv in Hc as (H1 & H2 & H3 & H4 & H5).
    cbn [app Text.ParseString_loop]. rewrite !chr_eqb, H1, H2, H3, H4, H5.
    cbn [orb]. rewrite (IH _ _ _ _ Hs), <- app_assoc. cbn [app length].
    f_equal. lia.
Qed.

Lemma ParseString_plain s raw pos rest :
  plain_string s = true ->
  Text.ParseString (mkReader raw pos (quote :: s ++ quote :: rest))
  = Ok (JsonString s) (mkReader raw (pos + length s + 2) rest).
Proof.
  intros H. unfold Text.ParseString. rewrite consecutive_cons.
  cbn [unread]. rewrite ParseString_loop_plain by assumption.
  cbn [Text.ParseString_loop]. rewrite !chr_eqb. settle_chars.
  unfold Forward. cbn [raw_str_ Pos unread app Nat.add].
  f_equal. f_equal; [lia |].
  change (quote :: rest) with ([quote] ++ rest). rewrite app_assoc.
  apply skipn_exact. rewrite length_app. cbn [length]. lia.
Qed.

End TextStrings.
(** X5. The reader decodes the escapes for carriage return, newline, backslash,
    tab and double quote: a string written with them, between double
    quotes, is read as the string itself, whatever follows the closing
    quote. *)
Theorem X5_string_escapes :
  forall from_chars strtof fuel s raw pos rest,
    no_EOF s = true ->
    Text.Parse from_chars strtof (S fuel)
      (mkReader raw pos (quote :: escaped s ++ quote :: rest))
    = Ok (JsonString s) (mkReader raw (pos + length (escaped s) + 2) rest).
Proof.
  intros fc sf fuel s raw pos rest H.
  rewrite Parse_at_quote. now apply ParseString_escaped.
Qed.

Lemma X5_witness :
  let s := lit "a" ++ [quote; "\"%char; "010"%char; "009"%char] ++ lit "b" in
  Text.Parse (fun _ => None) (fun _ => 0) 1
    (reader (quote :: escaped s ++ quote :: lit ","))
  = Ok (JsonString s)
       (mkReader (quote :: escaped s ++ quote :: lit ",") 12 (lit ",")).
Proof.
  intros s.
  exact (X5_string_escapes (fun _ => None) (fun _ => 0) 0 s
           (quote :: escaped s ++ quote :: lit ",") 0 (lit ",") eq_refl).
Defined.

(** X6. A [\u] escape is not decoded: the backslash, the [u] and what follows
    stay in the string as they are written. *)
Theorem X6_unicode_escape_kept :
  forall from_chars strtof fuel a b raw pos rest,
    plain_string a = true -> plain_string b = true ->
    Text.Parse from_chars strtof (S fuel)
      (mkReader raw pos (quote :: a ++ lit "\u" ++ b ++ quote :: rest))
    = Ok (JsonString (a ++ lit "\u" ++ b))
         (mkReader raw (pos + length a + length b + 4) rest).
Proof.
  intros fc sf fuel a b raw pos rest Ha Hb.
  rewrite Parse_at_quote. unfold Text.ParseString. rewrite consecutive_cons.
  cbn [unread]. rewrite ParseString_loop_plain by assumption.
  cbn [lit String.list_ascii_of_string app Text.ParseString_loop].
  rewrite !chr_eqb. settle_chars.
  rewrite ParseString_loop_plain by assumption.
  cbn [Text.ParseString_loop]. rewrite !chr_eqb. settle_chars.
  rewrite <- !app_assoc. cbn [app].
  unfold Forward. cbn [raw_str_ Pos unread Nat.add].
  f_equal. f_equal; [lia |].
  replace (a ++ "\"%char :: "u"%char :: b ++ quote :: rest)
    with ((a ++ "\"%char :: "u"%char :: b ++ [quote]) ++ rest)
    by (rewrite <- app_assoc; cbn [app]; now rewrite <- app_assoc).
  apply skipn_exact. rewrite length_app. cbn [length].
  rewrite length_app. cbn [length]. lia.
Qed.

Lemma X6_witness :
  Text.Parse (fun _ => None) (fun _ => 0) 1
    (reader (quote :: lit "x\u0041" ++ [quote]))
  = Ok (JsonString (lit "x\u0041"))
       (mkReader (quote :: lit "x\u0041" ++ [quote]) 9 []).
Proof.
  exact (X6_unicode_escape_kept (fun _ => None) (fun _ => 0) 0
           (lit "x") (lit "0041")
           (quote :: lit "x\u0041" ++ [quote]) 0 [] eq_refl eq_refl).
Defined.

(** X7. A backslash followed by any other character than [r], [n], [\], [t],
    the double quote or [u] is a syntax error, reported behind that
    character; the escapes [\b], [\f] and [\/] of JSON are among them. *)
Theorem X7_unknown_escape :
  forall from_chars strtof fuel a c raw pos rest,
    plain_string a = true ->
    existsb (Ascii.eqb c) (lit "rn\tu" ++ [quote]) = false ->
    Text.Parse from_chars strtof (S fuel)
      (mkReader raw pos (quote :: a ++ "\"%char :: c :: rest))
    = Error "Unknown escape" (mkReader raw (pos + length a + 3) rest).
Proof.
  intros fc sf fuel a c raw pos rest Ha Hc.
  cbn [lit String.list_ascii_of_string app existsb] in Hc.
  repeat match type of Hc with
         | (_ || _) = false => apply orb_false_elim in Hc as [? Hc]
         end.
  rewrite Parse_at_quote. unfold Text.ParseString. rewrite consecutive_cons.
  cbn [unread]. rewrite ParseString_loop_plain by assumption.
  cbn [Text.ParseString_loop]. rewrite !chr_eqb. settle_chars.
  rewrite H, H0, H1, H2, H3, H4.
  unfold Forward. cbn [raw_str_ Pos unread Nat.add].
  f_equal. f_equal; [lia |].
  replace (a ++ "\"%char :: c :: rest)
    with ((a ++ ["\"%char; c]) ++ rest)
    by (rewrite <- app_assoc; reflexivity).
  apply skipn_exact. rewrite length_app. cbn [length]. lia.
Qed.

Lemma X7_witness :
  Text.Parse (fun _ => None) (fun _ => 0) 1
    (reader (quote :: lit "a\b" ++ [quote]))
  = Error "Unknown escape" (mkReader (quote :: lit "a\b" ++ [quote]) 4 [quote]).
Proof.
  exact (X7_unknown_escape (fun _ => None) (fun _ => 0) 0 (lit "a") "b"%char
           (quote :: lit "a\b" ++ [quote]) 0 [quote] eq_refl eq_refl).
Defined.

(** X8. A string has to close before the line ends and before the buffer ends:
    a carriage return or a newline inside it, and the end of the buffer,
    are syntax errors. *)
Theorem X8_string_must_close :
  forall from_chars strtof fuel a raw pos,
    plain_string a = true ->
    (forall c rest,
        c = "013"%char \/ c = "010"%char ->
        Text.Parse from_chars strtof (S fuel)
          (mkReader raw pos (quote :: a ++ c :: rest))
        = Expect (chr quote) (to_Char c)
            (mkReader raw (pos + length a + 2) rest))
    /\ Text.Parse from_chars strtof (S fuel) (mkReader raw pos (quote :: a))
       = Expect (chr quote) EOF (mkReader raw (pos + length a + 1) []).
Proof.
  intros fc sf fuel a raw pos Ha. split.
  - intros c rest Hc.
    rewrite Parse_at_quote. unfold Text.ParseString. rewrite consecutive_cons.
    cbn [unread]. rewrite ParseString_loop_plain by assumption.
    cbn [Text.ParseString_loop]. rewrite !chr_eqb.
    assert (E : Forward (S (0 + length a))
                  (mkReader raw (pos + 1) (a ++ c :: rest))
                = mkReader raw (pos + length a + 2) rest).
    { unfold Forward. cbn [raw_str_ Pos unread Nat.add].
      f_equal; [lia |].
      replace (a ++ c :: rest) with ((a ++ [c]) ++ rest)
        by (rewrite <- app_assoc; reflexivity).
      apply skipn_exact. rewrite length_app. cbn [length]. lia. }
    destruct Hc as [-> | ->]; settle_chars; cbn [orb];
      rewrite ?orb_true_r; now rewrite E.
  - rewrite Parse_at_quote. unfold Text.ParseString. rewrite consecutive_cons.
    cbn [unread].
    replace (Text.ParseString_loop a) with (Text.ParseString_loop (a ++ []))
      by now rewrite app_nil_r.
    rewrite ParseString_loop_plain by assumption.
    cbn [Text.ParseString_loop]. unfold Forward.
    cbn [raw_str_ Pos unread Nat.add].
    rewrite skipn_all.
    now replace (pos + 1 + length a)%nat with (pos + length a + 1)%nat by lia.
Qed.

Lemma X8_witness :
  Text.Parse (fun _ => None) (fun _ => 0) 1
    (reader (quote :: lit "ab" ++ "010"%char :: lit "c"))
  = Expect (chr quote) (to_Char "010")
      (mkReader (quote :: lit "ab" ++ "010"%char :: lit "c") 4 (lit "c"))
  /\ Text.Parse (fun _ => None) (fun _ => 0) 1 (reader (quote :: lit "ab"))
     = Expect (chr quote) EOF (mkReader (quote :: lit "ab") 3 []).
Proof.
  destruct (X8_string_must_close (fun _ => None) (fun _ => 0) 0 (lit "ab")
              (quote :: lit "ab" ++ "010"%char :: lit "c") 0 eq_refl)
    as [H _].
  destruct (X8_string_must_close (fun _ => None) (fun _ => 0) 0 (lit "ab")
              (quote :: lit "ab") 0 eq_refl)
    as [_ H'].
  split; [exact (H "010"%char (lit "c") (or_intror eq_refl)) | exact H'].
Defined.
(** ** Numbers of the text reader *)

Lemma delimited_deref rest :
  delimited rest = true ->
  existsb (Z.eqb (Text.deref rest)) [0; 44; 93; 125; 32; 10; 13; 9] = true.
Proof.
  destruct rest as [| c rest]; [reflexivity |].
  unfold delimited, IsSpace. cbn [Text.deref existsb]. intros H.
  repeat match type of H with
         | (_ || _) = true => apply orb_true_iff in H as [H | H]
         end;
    try (apply Ascii.eqb_eq in H as ->; reflexivity);
    apply Z.eqb_eq in H; rewrite H; reflexivity.
Qed.

Lemma deref_neq rest x :
  delimited rest = true ->
  existsb (Z.eqb x) [0; 44; 93; 125; 32; 10; 13; 9] = false ->
  (Text.deref rest =? x) = false.
Proof.
  intros H Hx. apply delimited_deref in H.
  apply Z.eqb_neq. intros <-. congruence.
Qed.

Lemma delimited_not_digit rest :
  delimited rest = true ->
  match rest with [] => True | c :: _ => is_digit c = false end.
Proof.
  intros H. pose proof (delimited_deref rest H) as E.
  destruct rest as [| c rest]; [exact I |].
  cbn [Text.deref existsb] in E. unfold is_digit.
  change (chr "0") with 48. change (chr "9") with 57.
  repeat match type of E with
         | (_ || _) = true => apply orb_true_iff in E as [E | E]
         end; try discriminate E;
    apply Z.eqb_eq in E; rewrite E; reflexivity.
Qed.

Lemma scan_digits_stop D rest a :
  forallb is_digit D = true ->
  match rest with [] => True | c :: _ => is_digit c = false end ->
  Text.scan_digits (D ++ rest) a = (horner64 D a, rest, length D).
Proof.
  intros HD Hr. destruct rest as [| c rest].
  - rewrite app_nil_r. revert a.
    induction D as [| d D IH]; intros a; [reflexivity |].
    cbn [forallb] in HD. apply andb_prop in HD as [Hd HD].
    cbn [Text.scan_digits horner64 length]. unfold is_digit in Hd.
    now rewrite Hd, IH.
  - now apply scan_digits_spec.
Qed.

Ltac settle_rest H :=
  repeat match goal with
         | |- context [Z.eqb (Text.deref ?rest) ?x] =>
             rewrite (deref_neq rest x H eq_refl)
         end.

Section TextNumbers.
Variable from_chars : buffer -> option Z.
Variable strtof : buffer -> Z.

(** [ParseNumber] at a run of digits that ends where the value ends. *)
Lemma ParseNumber_run raw pos d D rest :
  is_digit d = true -> forallb is_digit D = true ->
  delimited rest = true ->
  Text.ParseNumber from_chars strtof (mkReader raw pos (d :: D ++ rest))
  = Ok (JsonInteger (horner64 (d :: D) 0))
       (mkReader raw (pos + length (d :: D)) rest).
Proof.
  intros Hd HD Hr. pose proof (is_digit_range d Hd) as R.
  pose proof (delimited_not_digit rest Hr) as Nr.
  unfold Text.ParseNumber. cbn [unread Text.deref tl].
  change (chr "N") with 78. change (chr "-") with 45.
  change (chr "+") with 43. change (chr "I") with 73.
  change (chr "0") with 48.
  rewrite (proj2 (Z.eqb_neq (to_Char d) 78)) by lia.
  rewrite (proj2 (Z.eqb_neq (to_Char d) 45)) by lia.
  rewrite (proj2 (Z.eqb_neq (to_Char d) 43)) by lia.
  cbn [Text.deref].
  rewrite (proj2 (Z.eqb_neq (to_Char d) 73)) by lia.
  destruct (Z.eqb_spec (to_Char d) 48) as [E | E].
  - cbn [tl]. rewrite scan_digits_stop by assumption.
    cbn [horner64]. rewrite E. change (wrap64 (0 * 10 + (48 - chr "0"))) with 0.
    settle_rest Hr. cbn [orb].
    unfold Forward. cbn [unread raw_str_ Pos Nat.add skipn length].
    rewrite (skipn_exact (length D) D _ eq_refl). reflexivity.
  - cbv iota beta. change (d :: D ++ rest) with ((d :: D) ++ rest).
    rewrite scan_digits_stop
      by (assumption || (cbn [forallb]; now rewrite Hd, HD)).
    settle_rest Hr. cbn [orb].
    unfold Forward. cbn [unread raw_str_ Pos Nat.add].
    rewrite (skipn_exact (length (d :: D)) (d :: D) _ eq_refl). reflexivity.
Qed.

(** The same behind a minus sign, which need not have a digit after it. *)
Lemma ParseNumber_negative raw pos D rest :
  forallb is_digit D = true -> delimited rest = true ->
  Text.ParseNumber from_chars strtof
    (mkReader raw pos ("-"%char :: D ++ rest))
  = Ok (JsonInteger (wrap64 (- horner64 D 0)))
       (mkReader raw (pos + S (length D)) rest).
Proof.
  intros HD Hr. pose proof (delimited_not_digit rest Hr) as Nr.
  unfold Text.ParseNumber. cbn [unread Text.deref tl].
  settle_markers. cbn [Text.deref tl].
  destruct D as [| d D].
  - cbn [app]. settle_rest Hr.
    replace (Text.scan_digits rest 0) with (0, rest, 0%nat)
      by (symmetry; apply (scan_digits_stop [] rest 0 eq_refl Nr)).
    settle_rest Hr. cbn [orb horner64 length].
    unfold Forward. cbn [unread raw_str_ Pos Nat.add skipn]. reflexivity.
  - cbn [forallb] in HD. apply andb_prop in HD as [Hd HD].
    pose proof (is_digit_range d Hd) as R.
    cbn [app Text.deref]. change (chr "I") with 73. change (chr "0") with 48.
    rewrite (proj2 (Z.eqb_neq (to_Char d) 73)) by lia.
    destruct (Z.eqb_spec (to_Char d) 48) as [E | E].
    + cbn [tl]. rewrite scan_digits_stop by assumption.
      cbn [horner64]. rewrite E.
      change (wrap64 (0 * 10 + (48 - chr "0"))) with 0.
      settle_rest Hr. cbn [orb].
      unfold Forward. cbn [unread raw_str_ Pos Nat.add skipn length].
      rewrite (skipn_exact (length D) D _ eq_refl). reflexivity.
    + cbv iota beta. change (d :: D ++ rest) with ((d :: D) ++ rest).
      rewrite scan_digits_stop
        by (assumption || (cbn [forallb]; now rewrite Hd, HD)).
      settle_rest Hr. cbn [orb].
      unfold Forward. cbn [unread raw_str_ Pos Nat.add skipn].
      rewrite (skipn_exact (length (d :: D)) (d :: D) _ eq_refl). reflexivity.
Qed.

Lemma Parse_at_digit fuel raw pos d u :
  is_digit d = true ->
  Text.Parse from_chars strtof (S fuel) (mkReader raw pos (d :: u))
  = Text.ParseNumber from_chars strtof (mkReader raw pos (d :: u)).
Proof.
  intros Hd. pose proof (is_digit_range d Hd) as R.
  rewrite Text_Parse_unfold, Parse__at by now apply digit_not_space.
  now rewrite Parse_dispatch_digit.
Qed.

Lemma Parse_at_minus fuel raw pos u :
  Text.Parse from_chars strtof (S fuel) (mkReader raw pos ("-"%char :: u))
  = Text.ParseNumber from_chars strtof (mkReader raw pos ("-"%char :: u)).
Proof. rewrite Text_Parse_unfold, Parse__at by reflexivity. reflexivity. Qed.

End TextNumbers.
Lemma horner_zeros k D : horner (repeat "0"%char k ++ D) 0 = horner D 0.
Proof. induction k as [| k IH]; [reflexivity | exact IH]. Qed.

Lemma is_digit_zeros k : forallb is_digit (repeat "0"%char k) = true.
Proof. induction k as [| k IH]; [reflexivity | exact IH]. Qed.

Lemma horner_nonneg D a :
  forallb is_digit D = true -> 0 <= a -> 0 <= horner D a.
Proof.
  revert a. induction D as [| d D IH]; intros a H Ha; [exact Ha |].
  cbn [forallb] in H. apply andb_prop in H as [Hd HD].
  pose proof (is_digit_range d Hd). cbn [horner]. change (chr "0") with 48.
  apply IH; [assumption | lia].
Qed.

(** X9. A run of decimal digits is read as the [Integer] it spells; zeros in
    front of it are accepted and change nothing. *)
Theorem X9_leading_zeros :
  forall from_chars strtof fuel k D raw pos rest,
    D <> [] -> forallb is_digit D = true -> horner D 0 < 2 ^ 63 ->
    delimited rest = true ->
    Text.Parse from_chars strtof (S fuel)
      (mkReader raw pos (repeat "0"%char k ++ D ++ rest))
    = Ok (JsonInteger (horner D 0)) (mkReader raw (pos + k + length D) rest).
Proof.
  intros fc sf fuel k D raw pos rest ND HD HV Hr.
  assert (F : forallb is_digit (repeat "0"%char k ++ D) = true)
    by now rewrite forallb_app, is_digit_zeros.
  assert (N : repeat "0"%char k ++ D <> [])
    by (destruct k; [exact ND | discriminate]).
  rewrite app_assoc.
  destruct (repeat "0"%char k ++ D) as [| d D'] eqn:E; [easy |].
  cbn [forallb] in F. apply andb_prop in F as [Fd FD].
  cbn [app]. rewrite Parse_at_digit, ParseNumber_run by assumption.
  rewrite horner64_0, <- E, horner_zeros.
  rewrite wrap64_small by (pose proof (horner_nonneg D 0 HD); lia).
  rewrite length_app, repeat_length. do 2 f_equal. lia.
Qed.

Lemma X9_witness :
  Text.Parse (fun _ => None) (fun _ => 0) 1 (reader (lit "0012,"))
  = Ok (JsonInteger 12) (mkReader (lit "0012,") 4 (lit ",")).
Proof.
  exact (X9_leading_zeros (fun _ => None) (fun _ => 0) 0 2 (lit "12")
           (lit "0012,") 0 (lit ",") ltac:(discriminate) eq_refl eq_refl
           eq_refl).
Defined.

(** X10. A minus sign makes the digits behind it a negative [Integer], and it
    needs no digit: a minus sign on its own is read as [Integer] 0. *)
Theorem X10_minus_sign :
  forall from_chars strtof fuel D raw pos rest,
    forallb is_digit D = true -> horner D 0 < 2 ^ 63 ->
    delimited rest = true ->
    Text.Parse from_chars strtof (S fuel)
      (mkReader raw pos ("-"%char :: D ++ rest))
    = Ok (JsonInteger (- horner D 0)) (mkReader raw (pos + S (length D)) rest).
Proof.
  intros fc sf fuel D raw pos rest HD HV Hr.
  rewrite Parse_at_minus, ParseNumber_negative by assumption.
  pose proof (horner_nonneg D 0 HD).
  rewrite horner64_0, (wrap64_small (horner D 0)), wrap64_small by lia.
  reflexivity.
Qed.

Lemma X10_witness :
  Text.Parse (fun _ => None) (fun _ => 0) 1 (reader (lit "-"))
  = Ok (JsonInteger 0) (mkReader (lit "-") 1 []).
Proof.
  exact (X10_minus_sign (fun _ => None) (fun _ => 0) 0 [] (lit "-") 0 []
           eq_refl eq_refl eq_refl).
Defined.
Lemma deref_not_digit rest :
  delimited rest = true ->
  (chr "0" <=? Text.deref rest) && (Text.deref rest <=? chr "9") = false.
Proof.
  intros H. apply delimited_deref in H. cbn [existsb] in H.
  change (chr "0") with 48. change (chr "9") with 57.
  repeat match type of H with
         | (_ || _) = true => apply orb_true_iff in H as [H | H]
         end; try discriminate H;
    apply Z.eqb_eq in H; rewrite H; reflexivity.
Qed.

(** X11. An exponent needs a digit. Where none follows the [e], the syntax
    error is reported at the position the number starts at: the cursor has
    not moved yet. *)
Theorem X11_exponent_needs_digit :
  forall from_chars strtof fuel d D e raw pos rest,
    is_digit d = true -> forallb is_digit D = true ->
    e = "e"%char \/ e = "E"%char ->
    delimited rest = true ->
    Text.Parse from_chars strtof (S fuel)
      (mkReader raw pos (d :: D ++ e :: rest))
    = Error "Expecting digit" (mkReader raw pos (d :: D ++ e :: rest)).
Proof.
  intros fc sf fuel d D e raw pos rest Hd HD He Hr.
  pose proof (is_digit_range d Hd) as R.
  assert (Ne : is_digit e = false) by now destruct He as [-> | ->].
  rewrite Parse_at_digit by assumption.
  unfold Text.ParseNumber. cbn [unread Text.deref tl].
  change (chr "N") with 78. change (chr "-") with 45.
  change (chr "+") with 43. change (chr "I") with 73.
  change (chr "0") with 48 at 1.
  rewrite (proj2 (Z.eqb_neq (to_Char d) 78)) by lia.
  rewrite (proj2 (Z.eqb_neq (to_Char d) 45)) by lia.
  rewrite (proj2 (Z.eqb_neq (to_Char d) 43)) by lia.
  cbn [Text.deref].
  rewrite (proj2 (Z.eqb_neq (to_Char d) 73)) by lia.
  destruct (Z.eqb_spec (to_Char d) 48) as [E | E].
  - cbn [tl]. rewrite scan_digits_spec by assumption.
    cbn [Text.deref tl].
    destruct He as [-> | ->]; settle_markers; cbn [orb];
      settle_rest Hr; cbn [orb]; rewrite deref_not_digit by assumption;
      reflexivity.
  - cbv iota beta. change (d :: D ++ e :: rest) with ((d :: D) ++ e :: rest).
    rewrite scan_digits_spec
      by (assumption || (cbn [forallb]; now rewrite Hd, HD)).
    cbn [Text.deref tl].
    destruct He as [-> | ->]; settle_markers; cbn [orb];
      settle_rest Hr; cbn [orb]; rewrite deref_not_digit by assumption;
      reflexivity.
Qed.

Lemma X11_witness :
  Text.Parse (fun _ => None) (fun _ => 0) 1 (reader (lit "12e"))
  = Error "Expecting digit" (reader (lit "12e")).
Proof.
  exact (X11_exponent_needs_digit (fun _ => None) (fun _ => 0) 0
           "1"%char (lit "2") "e"%char (lit "12e") 0 []
           eq_refl eq_refl (or_introl eq_refl) eq_refl).
Defined.

(** X12. A literal with a fraction is a [Number], never an [Integer]: its
    characters, and nothing else, go to [from_chars]; when that reports an
    error, [strtof] gets the buffer from the start of the literal on. *)
Theorem X12_fraction_is_a_Number :
  forall from_chars strtof fuel d A B raw pos rest,
    is_digit d = true -> forallb is_digit A = true ->
    forallb is_digit B = true -> delimited rest = true ->
    let literal := d :: A ++ "."%char :: B in
    Text.Parse from_chars strtof (S fuel)
      (mkReader raw pos (literal ++ rest))
    = Ok (JsonNumber match from_chars literal with
                     | Some f => f
                     | None => strtof (literal ++ rest)
                     end)
         (mkReader raw (pos + length literal) rest).
Proof.
  intros fc sf fuel d A B raw pos rest Hd HA HB Hr literal.
  pose proof (is_digit_range d Hd) as R.
  pose proof (delimited_not_digit rest Hr) as Nr.
  assert (EL : literal ++ rest = d :: A ++ "."%char :: B ++ rest).
  { unfold literal. cbn [app]. now rewrite <- app_assoc. }
  assert (S1 : forall n, n = length literal ->
                 firstn n (d :: A ++ "."%char :: B ++ rest) = literal).
  { intros n ->. rewrite <- EL. now apply firstn_exact. }
  assert (S2 : forall n, n = length literal ->
                 skipn n (d :: A ++ "."%char :: B ++ rest) = rest).
  { intros n ->. rewrite <- EL. now apply skipn_exact. }
  assert (LL : length literal = S (length A + S (length B))).
  { unfold literal. cbn [length]. rewrite length_app. reflexivity. }
  rewrite EL. clearbody literal.
  rewrite Parse_at_digit by assumption.
  unfold Text.ParseNumber. cbn [unread Text.deref tl].
  change (chr "N") with 78. change (chr "-") with 45.
  change (chr "+") with 43. change (chr "I") with 73.
  change (chr "0") with 48 at 1.
  rewrite (proj2 (Z.eqb_neq (to_Char d) 78)) by lia.
  rewrite (proj2 (Z.eqb_neq (to_Char d) 45)) by lia.
  rewrite (proj2 (Z.eqb_neq (to_Char d) 43)) by lia.
  cbn [Text.deref].
  rewrite (proj2 (Z.eqb_neq (to_Char d) 73)) by lia.
  destruct (Z.eqb_spec (to_Char d) 48) as [E | E].
  - cbn [tl]. rewrite scan_digits_spec by (assumption || reflexivity).
    cbn [Text.deref tl]. settle_markers.
    rewrite scan_digits_stop by assumption.
    settle_rest Hr. cbn [orb]. unfold Forward. cbn [unread raw_str_ Pos].
    rewrite S1, S2 by lia. do 2 f_equal. lia.
  - cbv iota beta.
    change (d :: A ++ "."%char :: B ++ rest)
      with ((d :: A) ++ "."%char :: B ++ rest) at 1.
    rewrite scan_digits_spec
      by (reflexivity || (cbn [forallb]; now rewrite Hd, HA)).
    cbn [Text.deref tl]. settle_markers.
    rewrite scan_digits_stop by assumption.
    settle_rest Hr. cbn [orb]. unfold Forward. cbn [unread raw_str_ Pos].
    rewrite S1, S2 by (cbn [length]; lia). do 2 f_equal. cbn [length]. lia.
Qed.

Lemma X12_witness :
  Text.Parse (fun s => if buffer_eqb s (lit "1.0") then Some 0x3F800000
                       else None)
    (fun _ => 0) 1 (reader (lit "1.0"))
  = Ok (JsonNumber 0x3F800000) (mkReader (lit "1.0") 3 []).
Proof.
  exact (X12_fraction_is_a_Number
           (fun s => if buffer_eqb s (lit "1.0") then Some 0x3F800000
                     else None)
           (fun _ => 0) 0 "1"%char [] (lit "0") (lit "1.0") 0 []
           eq_refl eq_refl eq_refl eq_refl).
Defined.
(** ** Keywords and white space of the text reader *)

(** X13. The reader knows the three special values of [float] by the names
    [NaN], [Infinity] and [-Infinity], whatever follows them. *)
Theorem X13_special_values :
  forall from_chars strtof fuel raw pos rest,
    Text.Parse from_chars strtof (S fuel)
      (mkReader raw pos (lit "NaN" ++ rest))
    = Ok (JsonNumber Float.quiet_NaN) (mkReader raw (pos + 3) rest)
    /\ Text.Parse from_chars strtof (S fuel)
         (mkReader raw pos (lit "Infinity" ++ rest))
       = Ok (JsonNumber Float.infinity) (mkReader raw (pos + 8) rest)
    /\ Text.Parse from_chars strtof (S fuel)
         (mkReader raw pos (lit "-Infinity" ++ rest))
       = Ok (JsonNumber Float.neg_infinity) (mkReader raw (pos + 9) rest)
    /\ Float.isnan32 Float.quiet_NaN = true
    /\ Float.of_bits32 Float.infinity = S754_infinity false
    /\ Float.of_bits32 Float.neg_infinity = S754_infinity true.
Proof.
  intros fc sf fuel raw pos rest.
  cbn [lit String.list_ascii_of_string app].
  repeat split; try (vm_compute; reflexivity);
    rewrite Text_Parse_unfold, Parse__at by reflexivity;
    cbv - [Nat.add]; do 2 f_equal; lia.
Qed.
Lemma consecutive_cases {B} c (k : Z -> M B) raw pos u :
  bind (GetConsecutiveChar c) k (mkReader raw pos u)
  = match u with
    | [] =>
        if -1 =? chr c then k (-1) (mkReader raw pos [])
        else Expect (chr c) (-1) (mkReader raw pos [])
    | a :: u' =>
        if Ascii.eqb a c then k (to_Char a) (mkReader raw (pos + 1) u')
        else Expect (chr c) (to_Char a) (mkReader raw (pos + 1) u')
    end.
Proof.
  destruct u as [| a u].
  - unfold GetConsecutiveChar. unfold bind at 1 2. unfold GetNextChar.
    cbn [unread]. now destruct (-1 =? chr c).
  - unfold GetConsecutiveChar. unfold bind at 1 2. unfold GetNextChar.
    cbn [unread]. unfold chr. rewrite to_Char_eqb.
    unfold Forward. cbn [raw_str_ Pos unread skipn].
    now destruct (Ascii.eqb a c).
Qed.

Lemma next_cases {B} (k : Z -> M B) raw pos u :
  bind GetNextChar k (mkReader raw pos u)
  = match u with
    | [] => k (-1) (mkReader raw pos [])
    | a :: u' => k (to_Char a) (mkReader raw (pos + 1) u')
    end.
Proof. now destruct u. Qed.

(** X14. The keywords [true], [false] and [null] are read as their values,
    whatever follows them, and nothing else that starts with [t], [f] or
    [n] is read at all. *)
Theorem X14_keywords :
  forall from_chars strtof fuel raw pos u,
    let Parse := Text.Parse from_chars strtof (S fuel) in
    Parse (mkReader raw pos (lit "true" ++ u))
    = Ok (JsonBoolean true) (mkReader raw (pos + 4) u)
    /\ Parse (mkReader raw pos (lit "false" ++ u))
       = Ok (JsonBoolean false) (mkReader raw (pos + 5) u)
    /\ Parse (mkReader raw pos (lit "null" ++ u))
       = Ok JsonNull (mkReader raw (pos + 4) u)
    /\ (buffer_eqb (firstn 3 u) (lit "rue") = false ->
        exists e, Parse (mkReader raw pos ("t"%char :: u)) = Fail e)
    /\ (buffer_eqb (firstn 4 u) (lit "alse") = false ->
        exists e, Parse (mkReader raw pos ("f"%char :: u)) = Fail e)
    /\ (buffer_eqb (firstn 3 u) (lit "ull") = false ->
        exists e, Parse (mkReader raw pos ("n"%char :: u)) = Fail e).
Proof.
  intros fc sf fuel raw pos u Parse. unfold Parse.
  assert (T : forall u,
             Text.Parse fc sf (S fuel) (mkReader raw pos ("t"%char :: u))
             = Text.ParseBoolean (mkReader raw pos ("t"%char :: u))).
  { intros. rewrite Text_Parse_unfold, Parse__at by reflexivity.
    reflexivity. }
  assert (F : forall u,
             Text.Parse fc sf (S fuel) (mkReader raw pos ("f"%char :: u))
             = Text.ParseBoolean (mkReader raw pos ("f"%char :: u))).
  { intros. rewrite Text_Parse_unfold, Parse__at by reflexivity.
    reflexivity. }
  assert (N : forall u,
             Text.Parse fc sf (S fuel) (mkReader raw pos ("n"%char :: u))
             = Text.ParseNull (mkReader raw pos ("n"%char :: u))).
  { intros. rewrite Text_Parse_unfold, Parse__at by reflexivity.
    reflexivity. }
  cbn [lit String.list_ascii_of_string app].
  rewrite !T, !F, !N. clear T F N.
  unfold Text.ParseBoolean, Text.ParseNull.
  rewrite !GetNextNonSpaceChar_at by reflexivity. settle_markers.
  repeat split.
  - rewrite !consecutive_cons. unfold ret. do 2 f_equal. lia.
  - rewrite !consecutive_cons. unfold ret. do 2 f_equal. lia.
  - rewrite !next_cons. cbn [map equal]. unfold ret. cbn. do 2 f_equal. lia.
  - intros E.
    destruct u as [| a [| b [| c u]]];
      rewrite ?consecutive_cases; try (eexists; reflexivity);
      cbn [firstn lit String.list_ascii_of_string buffer_eqb] in E;
      destruct (Ascii.eqb a "r"); try (eexists; reflexivity);
      rewrite ?consecutive_cases; try (eexists; reflexivity);
      cbn [andb] in E;
      destruct (Ascii.eqb b "u"); try (eexists; reflexivity);
      rewrite ?consecutive_cases; try (eexists; reflexivity);
      cbn [andb] in E;
      destruct (Ascii.eqb c "e"); try (eexists; reflexivity);
      discriminate E.
  - intros E.
    destruct u as [| a [| b [| c [| d u]]]];
      rewrite ?consecutive_cases; try (eexists; reflexivity);
      cbn [firstn lit String.list_ascii_of_string buffer_eqb] in E;
      destruct (Ascii.eqb a "a"); try (eexists; reflexivity);
      rewrite ?consecutive_cases; try (eexists; reflexivity);
      cbn [andb] in E;
      destruct (Ascii.eqb b "l"); try (eexists; reflexivity);
      rewrite ?consecutive_cases; try (eexists; reflexivity);
      cbn [andb] in E;
      destruct (Ascii.eqb c "s"); try (eexists; reflexivity);
      rewrite ?consecutive_cases; try (eexists; reflexivity);
      cbn [andb] in E;
      destruct (Ascii.eqb d "e"); try (eexists; reflexivity);
      discriminate E.
  - intros E.
    destruct u as [| a [| b [| c u]]];
      rewrite ?next_cases; cbn [map equal lit String.list_ascii_of_string];
      rewrite ?andb_false_r; cbn [negb]; try (eexists; reflexivity).
    cbn [firstn buffer_eqb lit String.list_ascii_of_string] in E.
    unfold chr. rewrite !to_Char_eqb. settle_chars. cbn [andb].
    rewrite E. cbn [negb]. eexists; reflexivity.
Qed.

Lemma X14_witness :
  (exists e, Text.Parse (fun _ => None) (fun _ => 0) 1 (reader (lit "trve"))
             = Fail e)
  /\ (exists e, Text.Parse (fun _ => None) (fun _ => 0) 1 (reader (lit "fals"))
                = Fail e)
  /\ (exists e, Text.Parse (fun _ => None) (fun _ => 0) 1 (reader (lit "nil"))
                = Fail e).
Proof.
  destruct (X14_keywords (fun _ => None) (fun _ => 0) 0 (lit "trve") 0 (lit "rve"))
    as (_ & _ & _ & H1 & _).
  destruct (X14_keywords (fun _ => None) (fun _ => 0) 0 (lit "fals") 0 (lit "als"))
    as (_ & _ & _ & _ & H2 & _).
  destruct (X14_keywords (fun _ => None) (fun _ => 0) 0 (lit "nil") 0 (lit "il"))
    as (_ & _ & _ & _ & _ & H3).
  split; [exact (H1 eq_refl) | split; [exact (H2 eq_refl) | exact (H3 eq_refl)]].
Defined.
Lemma skip_spaces_app ws u :
  whitespace_only ws = true ->
  skip_spaces (ws ++ u) = (length ws + skip_spaces u)%nat.
Proof.
  induction ws as [| c ws IH]; [reflexivity |].
  cbn [whitespace_only forallb]. intros H. apply andb_prop in H as [Hc Hw].
  cbn [app skip_spaces length]. rewrite Hc. cbn [Nat.add]. f_equal.
  now apply IH.
Qed.

Lemma SkipSpaces_app {B} (k : M B) ws raw pos u :
  whitespace_only ws = true ->
  bind SkipSpaces (fun _ => k) (mkReader raw pos (ws ++ u))
  = bind SkipSpaces (fun _ => k) (mkReader raw (pos + length ws) u).
Proof.
  intros H. unfold bind, SkipSpaces, Forward. cbn [unread raw_str_ Pos].
  rewrite skip_spaces_app by assumption.
  replace (skipn (length ws + skip_spaces u) (ws ++ u))
    with (skipn (skip_spaces u) u).
  - now rewrite Nat.add_assoc.
  - rewrite Nat.add_comm, <- skipn_skipn.
    now rewrite (skipn_exact (length ws) ws u eq_refl).
Qed.

Lemma Text_Parse_white_space from_chars strtof fuel ws raw pos u :
  whitespace_only ws = true ->
  Text.Parse from_chars strtof fuel (mkReader raw pos (ws ++ u))
  = Text.Parse from_chars strtof fuel (mkReader raw (pos + length ws) u).
Proof.
  intros H. destruct fuel as [| fuel]; [reflexivity |].
  rewrite !Text_Parse_unfold. unfold Text.Parse_.
  now apply SkipSpaces_app.
Qed.

(** X15. White space in front of a value is skipped: the reader answers as it
    does where the white space ends, be it with a value or with an
    error. *)
Theorem X15_leading_white_space :
  forall from_chars strtof fuel ws raw pos u,
    whitespace_only ws = true ->
    Text.Parse from_chars strtof fuel (mkReader raw pos (ws ++ u))
    = Text.Parse from_chars strtof fuel (mkReader raw (pos + length ws) u).
Proof. intros. now apply Text_Parse_white_space. Qed.

Lemma X15_witness :
  Text.Parse (fun _ => None) (fun _ => 0) 1
    (reader (" "%char :: "010"%char :: lit "7"))
  = Text.Parse (fun _ => None) (fun _ => 0) 1
      (mkReader (" "%char :: "010"%char :: lit "7") 2 (lit "7")).
Proof.
  exact (X15_leading_white_space (fun _ => None) (fun _ => 0) 1
           [" "%char; "010"%char] (" "%char :: "010"%char :: lit "7") 0
           (lit "7") eq_refl).
Defined.

(** X16. White space is not skipped behind an opening bracket before the
    reader looks for the closing one: an empty array with white space
    between its brackets is a syntax error, reported at the closing
    bracket. *)
Theorem X16_space_in_empty_array :
  forall from_chars strtof fuel c ws raw pos rest,
    whitespace_only (c :: ws) = true ->
    Text.Parse from_chars strtof (S (S (S fuel)))
      (mkReader raw pos ("["%char :: c :: ws ++ "]"%char :: rest))
    = Error "Unknown construct"
        (mkReader raw (pos + 1 + length (c :: ws)) ("]"%char :: rest)).
Proof.
  intros fc sf fuel c ws raw pos rest H.
  rewrite Text_Parse_unfold, Parse__at by reflexivity.
  change (Text.Parse_dispatch fc sf ?po ?pa (to_Char "["%char)) with pa.
  unfold Text.ParseArray. rewrite consecutive_cons.
  rewrite Text_ParseArray_loop_unfold. unfold Text.ParseArray_turn.
  rewrite peek_cons.
  assert (Hc : (to_Char c =? chr "]") = false).
  { cbn [whitespace_only forallb] in H. apply andb_prop in H as [Hc _].
    unfold IsSpace in Hc. change (chr "]") with 93.
    change (chr " ") with 32 in Hc. change (chr "010") with 10 in Hc.
    change (chr "013") with 13 in Hc. change (chr "009") with 9 in Hc.
    apply Z.eqb_neq. intros E. rewrite E in Hc. discriminate Hc. }
  rewrite Hc.
  change (c :: ws ++ "]"%char :: rest) with ((c :: ws) ++ "]"%char :: rest).
  unfold bind at 1.
  rewrite Text_Parse_white_space by assumption.
  rewrite Text_Parse_unfold, Parse__at by reflexivity.
  reflexivity.
Qed.

Lemma X16_witness :
  Text.Parse (fun _ => None) (fun _ => 0) 3 (reader (lit "[ ]"))
  = Error "Unknown construct" (mkReader (lit "[ ]") 2 (lit "]")).
Proof.
  exact (X16_space_in_empty_array (fun _ => None) (fun _ => 0) 0 " "%char []
           (lit "[ ]") 0 [] eq_refl).
Defined.
(** ** The readers keep the objects in order *)

Lemma buffer_ltb_total a b :
  buffer_ltb a b = false -> buffer_ltb b a = false -> a = b.
Proof.
  revert b. induction a as [| x a IH]; destruct b as [| y b];
    cbn [buffer_ltb]; try discriminate; [reflexivity |].
  destruct (Z.ltb_spec (byte_val x) (byte_val y)); [discriminate |].
  destruct (Z.ltb_spec (byte_val y) (byte_val x)); [discriminate |].
  intros H1 H2. f_equal; [| now apply IH].
  assert (E : byte_val x = byte_val y) by lia.
  unfold byte_val in E. apply N2Z.inj in E.
  rewrite <- (ascii_N_embedding x), <- (ascii_N_embedding y). now rewrite E.
Qed.

Section SortedMaps.
Context {V : Type}.

Lemma map_sorted_cons k (v : V) m :
  map_sorted ((k, v) :: m) = true <-> below_keys k m /\ map_sorted m = true.
Proof.
  cbn [map_sorted]. destruct m as [| [k' v'] m]; cbn [below_keys].
  - tauto.
  - rewrite andb_true_iff. tauto.
Qed.

Lemma map_assign_below x k (v : V) m :
  buffer_ltb x k = true -> below_keys x m -> below_keys x (map_assign k v m).
Proof.
  intros Hx Hm. destruct m as [| [k' v'] m]; [exact Hx |].
  cbn [map_assign].
  destruct (buffer_ltb k k'); [exact Hx |].
  destruct (buffer_ltb k' k); [exact Hm | exact Hx].
Qed.

Lemma map_emplace_below x k (v : V) m :
  buffer_ltb x k = true -> below_keys x m -> below_keys x (map_emplace k v m).
Proof.
  intros Hx Hm. destruct m as [| [k' v'] m]; [exact Hx |].
  cbn [map_emplace].
  destruct (buffer_ltb k k'); [exact Hx |].
  destruct (buffer_ltb k' k); exact Hm.
Qed.

Lemma map_assign_sorted k (v : V) m :
  map_sorted m = true -> map_sorted (map_assign k v m) = true.
Proof.
  induction m as [| [k' v'] m IH]; intros H; [reflexivity |].
  apply map_sorted_cons in H as [Hb Hs]. cbn [map_assign].
  destruct (buffer_ltb k k') eqn:E1.
  - apply map_sorted_cons. split; [exact E1 |].
    apply map_sorted_cons. now split.
  - destruct (buffer_ltb k' k) eqn:E2.
    + apply map_sorted_cons. split; [| now apply IH].
      now apply map_assign_below.
    + apply map_sorted_cons. split; [| exact Hs].
      now rewrite (buffer_ltb_total k k' E1 E2).
Qed.

Lemma map_emplace_sorted k (v : V) m :
  map_sorted m = true -> map_sorted (map_emplace k v m) = true.
Proof.
  induction m as [| [k' v'] m IH]; intros H; [reflexivity |].
  pose proof H as H'. apply map_sorted_cons in H as [Hb Hs].
  cbn [map_emplace].
  destruct (buffer_ltb k k') eqn:E1.
  - apply map_sorted_cons. split; [exact E1 | exact H'].
  - destruct (buffer_ltb k' k) eqn:E2; [| exact H'].
    apply map_sorted_cons. split; [| now apply IH].
    now apply map_emplace_below.
Qed.

Lemma map_assign_forallb (f : buffer * V -> bool) k v m :
  forallb f m = true -> f (k, v) = true ->
  forallb f (map_assign k v m) = true.
Proof.
  intros Hm Hv. induction m as [| [k' v'] m IH]; cbn [map_assign forallb].
  - now rewrite Hv.
  - cbn [forallb] in Hm. apply andb_prop in Hm as [H1 H2].
    destruct (buffer_ltb k k'); [| destruct (buffer_ltb k' k)];
      cbn [forallb]; rewrite ?Hv, ?H1, ?H2, ?IH; auto.
Qed.
End SortedMaps.

Lemma yields_bind_eq {A B} (P : B -> Prop) (c : M A) k :
  (forall a r r', c r = Ok a r' -> yields P (k a)) -> yields P (bind c k).
Proof.
  intros Hk r b r' E. unfold bind in E.
  destruct (c r) as [a r1 | e |] eqn:Ec; try discriminate E.
  exact (Hk a _ _ Ec _ _ _ E).
Qed.

Lemma ParseString_loop_String u :
  forall n str r a r',
    Text.ParseString_loop u n str r = Ok a r' -> exists s, a = JsonString s.
Proof.
  assert (H : forall k u, (length u <= k)%nat ->
              forall n str r a r',
                Text.ParseString_loop u n str r = Ok a r' ->
                exists s, a = JsonString s).
  { clear u. induction k as [| k IH]; intros u L n str r a r' E.
    - destruct u; [discriminate E | cbn [length] in L; lia].
    - destruct u as [| c u]; [discriminate E |].
      cbn [length] in L. cbn [Text.ParseString_loop] in E.
      destruct (to_Char c =? chr "\").
      + destruct u as [| c' u]; [discriminate E |]. cbn [length] in L.
        repeat match type of E with
               | (if ?b then _ else _) = _ => destruct b
               end;
          try discriminate E;
          (eapply (IH u); [| exact E]; lia).
      + destruct (to_Char c =? chr quote).
        * injection E as <- _. now eexists.
        * destruct ((to_Char c =? EOF) || (to_Char c =? chr "013")
                    || (to_Char c =? chr "010")); [discriminate E |].
          eapply (IH u); [| exact E]. lia. }
  now apply (H (length u)).
Qed.

Lemma ParseString_String :
  yields (fun a => exists s, a = JsonString s) Text.ParseString.
Proof.
  unfold Text.ParseString. apply yields_bind_any. intros _ r a r' E.
  now apply ParseString_loop_String in E.
Qed.
Lemma yields_Error_ {A} (P : A -> Prop) msg : yields P (Error_ msg).
Proof. intros r a r' E. discriminate E. Qed.

Lemma yields_Expect {A} (P : A -> Prop) c got : yields P (Expect c got).
Proof. intros r a r' E. discriminate E. Qed.

Ltac yields_more :=
  first [ apply yields_Error_ | apply yields_Expect | yields_step ].

Section TextSorted.
Variable from_chars : buffer -> option Z.
Variable strtof : buffer -> Z.

Lemma ParseNumber_sorted :
  yields sorted_answer (Text.ParseNumber from_chars strtof).
Proof.
  intros r a r' E. unfold Text.ParseNumber in E.
  destruct (Text.deref (unread r) =? chr "N").
  { revert E. generalize r a r'.
    change (yields sorted_answer
              (GetConsecutiveChar "N";;; GetConsecutiveChar "a";;;
               GetConsecutiveChar "N";;; ret (JsonNumber Float.quiet_NaN))).
    repeat first [yields_step | reflexivity]. }
  repeat match type of E with
         | context [if ?b then _ else _] => destruct b
         | context [Text.scan_digits ?p ?i] =>
             destruct (Text.scan_digits p i) as [[? ?] ?]
         end;
    try discriminate E;
    try (injection E as <- _; reflexivity);
    (revert E;
     match goal with
     | |- _ ?r0 = Ok _ _ -> _ => generalize r0
     end; intros r0; generalize a r'; revert r0;
     match goal with
     | |- forall r0 a r', ?c r0 = Ok a r' -> _ =>
         change (yields sorted_answer c)
     end;
     repeat first [yields_step | reflexivity]).
Qed.

Lemma ParseString_sorted : yields sorted_answer Text.ParseString.
Proof.
  intros r a r' E. apply ParseString_String in E as [s ->]. reflexivity.
Qed.

Lemma Text_Parse_sorted fuel :
  yields sorted_answer (Text.Parse from_chars strtof fuel) /\
  (forall data,
      forallb maps_sorted data = true ->
      yields sorted_answer (Text.ParseArray_loop from_chars strtof fuel data))
  /\
  (forall data,
      map_sorted data = true ->
      forallb (fun e => maps_sorted (snd e)) data = true ->
      yields sorted_answer
        (Text.ParseObject_loop from_chars strtof fuel data)).
Proof.
  induction fuel as [| fuel (IHP & IHA & IHO)].
  - repeat split; intros; apply yields_out.
  - split; [| split].
    + change (yields sorted_answer
                (Text.Parse_ from_chars strtof
                   (Text.ParseObject
                      (Text.ParseObject_loop from_chars strtof fuel))
                   (Text.ParseArray
                      (Text.ParseArray_loop from_chars strtof fuel)))).
      unfold Text.Parse_, Text.Parse_dispatch, Text.ParseObject,
        Text.ParseArray, Text.ParseBoolean, Text.ParseNull.
      repeat first [ apply ParseNumber_sorted
                   | apply ParseString_sorted
                   | apply IHA; reflexivity
                   | apply IHO; reflexivity
                   | yields_step
                   | reflexivity
                   | yields_more ].
    + intros data Hd.
      change (yields sorted_answer
                (Text.ParseArray_turn (Text.Parse from_chars strtof fuel)
                   (Text.ParseArray_loop from_chars strtof fuel) data)).
      unfold Text.ParseArray_turn.
      do 2 yields_step.
      * repeat yields_step.
      * apply (yields_bind sorted_answer); [exact IHP |].
        intros v Hv.
        assert (H : forallb maps_sorted (data ++ [v]) = true)
          by now apply forallb_snoc.
        repeat first [ apply IHA; exact H | yields_more | exact H ].
    + intros data Hs Hd.
      change (yields sorted_answer
                (Text.ParseObject_turn (Text.Parse from_chars strtof fuel)
                   (Text.ParseObject_loop from_chars strtof fuel) data)).
      unfold Text.ParseObject_turn.
      do 2 yields_more. yields_more; [yields_more |].
      yields_more; [yields_more |].
      apply (yields_bind (fun a => exists s, a = JsonString s));
        [apply ParseString_String |].
      intros key [k ->]. yields_more. yields_more; [yields_more |].
      apply (yields_bind sorted_answer); [exact IHP |].
      intros v Hv.
      assert (H1 : map_sorted (map_assign k v data) = true)
        by now apply map_assign_sorted.
      assert (H2 : forallb (fun e => maps_sorted (snd e))
                     (map_assign k v data) = true)
        by now apply map_assign_forallb.
      repeat first [ apply IHO; assumption | yields_more ].
      unfold sorted_answer. cbn [maps_sorted]. now rewrite H1, H2.
Qed.
End TextSorted.
Lemma ParseArray_counted_sorted P k :
  yields sorted_answer P ->
  forall results,
    forallb maps_sorted results = true ->
    yields sorted_answer (UBJ.ParseArray_counted P k results).
Proof.
  intros HP. induction k as [| k IH]; intros results Hr;
    cbn [UBJ.ParseArray_counted].
  - now apply yields_ret.
  - apply (yields_bind sorted_answer); [exact HP |].
    intros v Hv. apply IH. now apply forallb_snoc.
Qed.

Lemma UBJ_Parse_sorted fuel :
  yields sorted_answer (UBJ.Parse fuel) /\
  (forall results,
      forallb maps_sorted results = true ->
      yields sorted_answer (UBJ.ParseArray_loop fuel results)) /\
  (forall results,
      map_sorted results = true ->
      forallb (fun e => maps_sorted (snd e)) results = true ->
      yields sorted_answer (UBJ.ParseObject_loop fuel results)).
Proof.
  induction fuel as [| fuel (IHP & IHA & IHO)].
  - repeat split; intros; apply yields_out.
  - split; [| split].
    + change (yields sorted_answer
                (UBJ.Parse_ (UBJ.ParseObject_loop fuel [])
                   (UBJ.ParseArray (UBJ.Parse fuel)
                      (UBJ.ParseArray_loop fuel)))).
      unfold UBJ.Parse_.
      assert (HO : yields sorted_answer (UBJ.ParseObject_loop fuel []))
        by now apply IHO.
      assert (HA : yields sorted_answer
                     (UBJ.ParseArray (UBJ.Parse fuel)
                        (UBJ.ParseArray_loop fuel))).
      { unfold UBJ.ParseArray, UBJ.ParseArray_typed, UBJ.ParseTypedArray,
          UBJ.length_error.
        repeat first [ apply ParseArray_counted_sorted;
                       [exact IHP | reflexivity]
                     | apply IHA; reflexivity
                     | yields_more
                     | reflexivity ]. }
      repeat first [yields_more | reflexivity].
    + intros results Hr.
      change (yields sorted_answer
                (UBJ.ParseArray_turn (UBJ.Parse fuel)
                   (UBJ.ParseArray_loop fuel) results)).
      unfold UBJ.ParseArray_turn.
      do 2 yields_more.
      * repeat yields_more.
      * apply (yields_bind sorted_answer); [exact IHP |].
        intros v Hv. apply IHA. now apply forallb_snoc.
    + intros results Hs Hr.
      change (yields sorted_answer
                (UBJ.ParseObject_turn (UBJ.Parse fuel)
                   (UBJ.ParseObject_loop fuel) results)).
      unfold UBJ.ParseObject_turn.
      do 2 yields_more.
      * repeat yields_more. unfold sorted_answer. cbn [maps_sorted].
        now rewrite Hs, Hr.
      * yields_more.
        apply (yields_bind sorted_answer); [exact IHP |].
        intros v Hv. apply IHO.
        -- now apply map_emplace_sorted.
        -- now apply map_emplace_forallb.
Qed.

(** X17. Whatever the buffer, an object the text reader answers has its keys in
    strictly increasing order, at every depth of the document: no key
    comes twice. *)
Theorem X17_text_reader_objects_sorted :
  forall from_chars strtof fuel str d r,
    Text.Load from_chars strtof fuel str = Ok d r -> maps_sorted d = true.
Proof.
  intros fc sf fuel str d r E.
  exact (proj1 (Text_Parse_sorted fc sf fuel) _ _ _ E).
Qed.

Lemma X17_witness :
  let d := JsonObject [(lit "a", JsonInteger 2); (lit "b", JsonInteger 1)] in
  Text.Load (fun _ => None) (fun _ => 0) 4 unordered_text
  = Ok d (mkReader unordered_text 13 [])
  /\ maps_sorted d = true.
Proof.
  intros d.
  assert (E : Text.Load (fun _ => None) (fun _ => 0) 4 unordered_text
              = Ok d (mkReader unordered_text 13 []))
    by (vm_compute; reflexivity).
  split; [exact E |].
  exact (X17_text_reader_objects_sorted _ _ _ _ _ _ E).
Defined.

(** X18. Whatever the buffer, an object the binary reader answers has its
    keys in strictly increasing order, at every depth of the document: no
    key comes twice. *)
Theorem X18_binary_reader_objects_sorted :
  forall fuel str d r, UBJ.Load fuel str = Ok d r -> maps_sorted d = true.
Proof.
  intros fuel str d r E. exact (proj1 (UBJ_Parse_sorted fuel) _ _ _ E).
Qed.

Lemma X18_witness :
  let d := JsonObject [(lit "a", JsonInteger 2); (lit "b", JsonInteger 1)] in
  UBJ.Load 4 unordered_binary = Ok d (mkReader unordered_binary 26 [])
  /\ maps_sorted d = true.
Proof.
  intros d.
  assert (E : UBJ.Load 4 unordered_binary
              = Ok d (mkReader unordered_binary 26 []))
    by (vm_compute; reflexivity).
  split; [exact E |].
  exact (X18_binary_reader_objects_sorted _ _ _ _ E).
Defined.

(** ** The text codec, there and back *)

Lemma buffer_eqb_eq a b : buffer_eqb a b = true -> a = b.
Proof.
  revert b. induction a as [| x a IH]; destruct b as [| y b];
    cbn [buffer_eqb]; try discriminate; [reflexivity |].
  intros H. apply andb_prop in H as [H1 H2].
  apply Ascii.eqb_eq in H1 as ->. now rewrite (IH _ H2).
Qed.

Section Assign.
Context {V : Type}.

Lemma map_assign_last (acc : list (buffer * V)) k (v : V) :
  Forall (fun e => buffer_ltb (fst e) k = true) acc ->
  map_assign k v acc = acc ++ [(k, v)].
Proof.
  induction 1 as [| [k' v'] acc Hk _ IH]; simpl; [reflexivity |].
  simpl in Hk. rewrite (buffer_ltb_asym _ _ Hk), Hk. now rewrite IH.
Qed.

Lemma fold_assign_sorted (m acc : list (buffer * V)) :
  map_sorted (acc ++ m) = true ->
  fold_left (fun a e => map_assign (fst e) (snd e) a) m acc = acc ++ m.
Proof.
  revert acc. induction m as [| [k v] m IH]; intros acc H; cbn [fold_left].
  - now rewrite app_nil_r.
  - cbn [fst snd]. rewrite map_assign_last.
    + rewrite IH; rewrite <- app_assoc; [reflexivity | exact H].
    + exact (map_sorted_app acc (k, v) m H).
Qed.
End Assign.

Section TextRoundTrip.
Variable to_chars_float : Z -> buffer.
Variable EscapeU8 : buffer -> buffer.
Variable from_chars : buffer -> option Z.
Variable strtof : buffer -> Z.

Abbreviation TSave := (Text.Save to_chars_float EscapeU8).
Abbreviation safe := (text_safe EscapeU8).
Abbreviation reads := (reads_text to_chars_float EscapeU8 from_chars strtof).

Lemma reads_text_more fuel fuel' d :
  reads fuel d -> (fuel <= fuel')%nat -> reads fuel' d.
Proof.
  intros H L raw pos rest Hr.
  rewrite (Text_Parse_le from_chars strtof fuel fuel');
    [now apply H | exact L | rewrite H by assumption; discriminate].
Qed.

Lemma reads_text_Integer fuel i :
  in_range I64 i = true -> reads (S fuel) (JsonInteger i).
Proof.
  intros H raw pos rest Hr.
  unfold in_range in H. cbn [is_signed sizeof] in H.
  change (8 * Z.of_nat 8) with 64 in H. apply andb_prop in H as [L U].
  apply Z.leb_le in L. apply Z.ltb_lt in U.
  change (2 ^ (64 - 1)) with (2 ^ 63) in *.
  cbn [Text.Save]. unfold Text.Visit_Integer.
  unfold to_chars_int64, to_string_int, to_string_unsigned.
  destruct (Z.ltb_spec i 0) as [N | N].
  - destruct (decimal_digits_spec 19 (- i) []) as (D & ED & ND & FD & HD);
      [change (10 ^ Z.of_nat 20) with 100000000000000000000; lia |].
    rewrite ED, app_nil_r. cbn [app].
    rewrite Parse_at_minus, ParseNumber_negative by assumption.
    rewrite horner64_0, HD. cbn [length]. do 2 f_equal.
    rewrite <- (wrap64_small i) at 2 by lia. apply wrap64_congr.
    replace (- wrap64 (- i) - i) with (- (wrap64 (- i) - - i)) by ring.
    rewrite <- Z.sub_0_l, Zminus_mod, wrap64_diff. reflexivity.
  - destruct (decimal_digits_spec 19 i []) as (D & ED & ND & FD & HD);
      [change (10 ^ Z.of_nat 20) with 100000000000000000000; lia |].
    rewrite ED, app_nil_r. destruct D as [| d D]; [easy |].
    cbn [forallb] in FD. apply andb_prop in FD as [Fd FD].
    cbn [app]. rewrite Parse_at_digit, ParseNumber_run by assumption.
    rewrite horner64_0, HD, wrap64_small by lia. reflexivity.
Qed.

Lemma reads_text_String fuel s :
  unescaped EscapeU8 s = true -> reads (S fuel) (JsonString s).
Proof.
  intros H raw pos rest Hr. unfold unescaped in H.
  apply andb_prop in H as [Hp He]. apply buffer_eqb_eq in He.
  cbn [Text.Save]. unfold Text.Visit_String. rewrite He.
  rewrite <- !app_assoc. cbn [app].
  rewrite Parse_at_quote, ParseString_plain by assumption.
  do 2 f_equal. cbn [length]. rewrite length_app. cbn [length]. lia.
Qed.

Lemma reads_text_keyword fuel d :
  d = JsonNull \/ (exists b, d = JsonBoolean b) -> reads (S fuel) d.
Proof.
  intros [-> | [[|] ->]] raw pos rest Hr;
    cbn [Text.Save lit String.list_ascii_of_string app length];
    rewrite Text_Parse_unfold, Parse__at by reflexivity;
    cbv - [Nat.add]; do 2 f_equal; lia.
Qed.


Lemma SkipSpaces_at {B} (k : M B) c raw pos u :
  IsSpace (to_Char c) = false ->
  bind SkipSpaces (fun _ => k) (mkReader raw pos (c :: u))
  = k (mkReader raw pos (c :: u)).
Proof.
  intros H. unfold bind, SkipSpaces, Forward.
  cbn [unread raw_str_ Pos skip_spaces]. rewrite H. cbn [skipn].
  now rewrite Nat.add_0_r.
Qed.

Abbreviation member := (written_member to_chars_float EscapeU8).
Abbreviation OLoop := (Text.ParseObject_loop from_chars strtof).

(** One turn of the loop of [ParseObject] over a member that a comma or a
    closing brace follows. *)
Lemma ParseObject_turn_member fuel again data k v c raw pos rest :
  unescaped EscapeU8 k = true -> reads fuel v ->
  c = ","%char \/ c = "}"%char ->
  Text.ParseObject_turn (Text.Parse from_chars strtof fuel) again data
    (mkReader raw pos (member (k, v) ++ c :: rest))
  = (if Ascii.eqb c "}" then ret (JsonObject (map_assign k v data))
     else again (map_assign k v data))
      (mkReader raw (pos + length (member (k, v)) + 1) rest).
Proof.
  intros Hk Hv Hc. unfold unescaped in Hk.
  apply andb_prop in Hk as [Hp He]. apply buffer_eqb_eq in He.
  assert (Hd : delimited (c :: rest) = true) by now destruct Hc as [-> | ->].
  unfold written_member, Text.Visit_String. cbn [fst snd]. rewrite He.
  rewrite <- !app_assoc. cbn [app].
  unfold Text.ParseObject_turn.
  rewrite SkipSpaces_at by reflexivity. rewrite peek_cons.
  settle_markers. cbn [negb].
  change (to_Char quote =? -1) with false. cbv iota.
  erewrite bind_Ok by (apply ParseString_plain; exact Hp).
  rewrite GetNextNonSpaceChar_at by reflexivity. settle_markers. cbn [negb].
  erewrite bind_Ok by (apply Hv; exact Hd).
  rewrite GetNextNonSpaceChar_at by now destruct Hc as [-> | ->].
  assert (EP : (pos + length k + 2 + 1 + length (TSave v) + 1
                = pos + length (quote :: k ++ quote :: ":"%char :: TSave v)
                  + 1)%nat).
  { cbn [length]. rewrite length_app. cbn [length]. lia. }
  rewrite EP.
  destruct Hc as [-> | ->]; settle_markers; reflexivity.
Qed.


Lemma Text_ParseObject_loop_unfold fuel data r :
  OLoop (S fuel) data r
  = Text.ParseObject_turn (Text.Parse from_chars strtof fuel) (OLoop fuel)
      data r.
Proof. reflexivity. Qed.

(** The loop of [ParseObject] over one or more members: closed by a brace
    it answers the object, and behind a comma it goes on. *)
Lemma ParseObject_loop_members fuel es :
  forall e F acc raw pos u,
    Forall (fun e => unescaped EscapeU8 (fst e) = true /\ reads fuel (snd e))
           (e :: es) ->
    (length (e :: es) + fuel <= F)%nat ->
    let text := Text.comma_joined member (e :: es) in
    let data := fold_left (fun a e => map_assign (fst e) (snd e) a)
                  (e :: es) acc in
    OLoop F acc (mkReader raw pos (text ++ "}"%char :: u))
    = Ok (JsonObject data) (mkReader raw (pos + length text + 1) u)
    /\ OLoop F acc (mkReader raw pos (text ++ ","%char :: u))
       = OLoop (F - length (e :: es)) data
           (mkReader raw (pos + length text + 1) u).
Proof.
  induction es as [| e' es IH]; intros [k v] F acc raw pos u Hes HF;
    inversion Hes as [| ? ? [Hk Hv] Hes']; subst; cbn [fst snd] in Hk, Hv;
    (destruct F as [| F]; [cbn in HF; lia |]);
    cbn [length] in HF;
    assert (Hv' : reads F v) by (apply (reads_text_more fuel); [exact Hv | lia]);
    cbv zeta.
  - cbn [Text.comma_joined fold_left fst snd length Nat.sub].
    rewrite Nat.sub_0_r, !Text_ParseObject_loop_unfold.
    rewrite !ParseObject_turn_member by (auto; fail).
    split; reflexivity.
  - change (Text.comma_joined member ((k, v) :: e' :: es))
      with (member (k, v) ++ ","%char :: Text.comma_joined member (e' :: es)).
    rewrite <- !app_assoc. cbn [app].
    rewrite !Text_ParseObject_loop_unfold.
    rewrite !ParseObject_turn_member by (auto; fail).
    settle_chars.
    destruct (IH e' F (map_assign k v acc) raw
                (pos + length (member (k, v)) + 1)%nat u Hes'
                ltac:(cbn [length]; lia)) as [H1 H2].
    cbv zeta in H1, H2. rewrite H1, H2.
    cbn [fold_left fst snd]. rewrite length_app.
    cbn [length Nat.sub].
    split; do 2 f_equal; lia.
Qed.


Lemma member_head e es :
  exists t, Text.comma_joined member (e :: es) = quote :: t.
Proof.
  destruct es as [| e' es]; cbn [Text.comma_joined]; unfold written_member,
    Text.Visit_String; cbn [app]; eexists; reflexivity.
Qed.

Lemma reads_text_Array fuel vec :
  Forall (reads fuel) vec ->
  reads (S (length vec + S fuel)) (JsonArray vec).
Proof.
  intros Hv raw pos rest Hr. cbn [Text.Save]. unfold Text.WriteArray.
  cbn [app]. rewrite Text_Parse_unfold, Parse__at by reflexivity.
  change (Text.Parse_dispatch from_chars strtof ?po ?pa (to_Char "["%char))
    with pa.
  unfold Text.ParseArray. rewrite consecutive_cons.
  destruct vec as [| d vec].
  - cbn [Text.comma_joined app length Nat.add]. rewrite TLoop_closing.
    do 2 f_equal. lia.
  - pose (es := map (fun d => (TSave d, d)) (d :: vec)).
    assert (E1 : Text.comma_joined TSave (d :: vec)
                 = Text.comma_joined fst es).
    { unfold es. now rewrite comma_joined_map. }
    assert (E2 : map snd es = d :: vec).
    { unfold es. rewrite map_map. cbn [snd]. apply map_id. }
    assert (He : Forall (fun e => element from_chars strtof fuel
                                   (fst e) (snd e)) es).
    { unfold es. apply Forall_forall. intros e He.
      apply in_map_iff in He as (x & <- & Hx). cbn [fst snd].
      rewrite Forall_forall in Hv. intros c raw' pos' rest' Hc.
      apply (Hv x Hx). now destruct Hc as [-> | ->]. }
    rewrite E1, <- app_assoc.
    change es with ((TSave d, d) :: map (fun d => (TSave d, d)) vec) in *.
    rewrite (TLoop_elements from_chars strtof fuel _ _ _ [] raw (pos + 1)%nat
               rest (lit "]") He);
      [| cbn [length]; rewrite length_map; apply Nat.le_refl | now left].
    cbn [app] in E2 |- *. rewrite E2. do 2 f_equal.
    cbn [length]. rewrite length_app. cbn [length].
    change (length (lit "]")) with 1%nat. lia.
Qed.

Lemma reads_text_Object fuel obj :
  map_sorted obj = true ->
  Forall (fun e => unescaped EscapeU8 (fst e) = true /\ reads fuel (snd e))
         obj ->
  reads (S (length obj + S fuel)) (JsonObject obj).
Proof.
  intros Hs Ho raw pos rest Hr. cbn [Text.Save]. cbn [app].
  rewrite Text_Parse_unfold, Parse__at by reflexivity.
  change (Text.Parse_dispatch from_chars strtof ?po ?pa (to_Char "{"%char))
    with po.
  unfold Text.ParseObject. rewrite consecutive_cons.
  destruct obj as [| e es].
  - cbn [Text.comma_joined app length Nat.add].
    rewrite SkipSpaces_at by reflexivity. rewrite peek_cons. settle_markers.
    rewrite consecutive_cons. unfold ret. do 2 f_equal. lia.
  - change (fun value : buffer * Json =>
              Text.Visit_String EscapeU8 (fst value)
              ++ ":"%char :: TSave (snd value)) with member.
    destruct (member_head e es) as [t Et].
    assert (EX : Text.comma_joined member (e :: es) ++ "}"%char :: rest
                 = quote :: t ++ "}"%char :: rest) by now rewrite Et.
    rewrite <- app_assoc. cbn [app]. rewrite EX.
    rewrite SkipSpaces_at by reflexivity. rewrite peek_cons. settle_markers.
    rewrite <- EX.
    destruct (ParseObject_loop_members fuel es e (length (e :: es) + S fuel)
                [] raw (pos + 1)%nat rest Ho ltac:(lia)) as [H _].
    cbv zeta in H. rewrite H.
    rewrite fold_assign_sorted by exact Hs. cbn [app].
    do 2 f_equal. cbn [length]. rewrite length_app. cbn [length]. lia.
Qed.

Lemma reads_text_all d :
  safe d = true ->
  forall fuel, (text_fuel_of d <= fuel)%nat -> reads fuel d.
Proof.
  induction d as [| b | i | f | s | vec IH | obj IH | t vec] using Json_ind;
    intros Hd fuel HF; cbn [text_safe] in Hd; try discriminate Hd;
    cbn [text_fuel_of] in HF.
  - destruct fuel as [| fuel]; [lia |]. apply reads_text_keyword. now left.
  - destruct fuel as [| fuel]; [lia |]. apply reads_text_keyword.
    right. now exists b.
  - destruct fuel as [| fuel]; [lia |]. now apply reads_text_Integer.
  - destruct fuel as [| fuel]; [lia |]. now apply reads_text_String.
  - apply (reads_text_more
             (S (length vec + S (max_of text_fuel_of vec)))); [| exact HF].
    apply reads_text_Array. rewrite forallb_forall in Hd.
    rewrite Forall_forall in IH |- *. intros x Hx.
    apply IH; [exact Hx | now apply Hd |]. now apply max_of_ge.
  - apply andb_prop in Hd as [Hs Hd].
    apply (reads_text_more
             (S (length obj
                 + S (max_of (fun e => text_fuel_of (snd e)) obj))));
      [| exact HF].
    apply reads_text_Object; [exact Hs |]. rewrite forallb_forall in Hd.
    rewrite Forall_forall in IH |- *. intros x Hx.
    specialize (Hd x Hx). apply andb_prop in Hd as [Hk Hv].
    split; [exact Hk |]. apply IH; [exact Hx | exact Hv |].
    exact (max_of_ge (fun e => text_fuel_of (snd e)) obj x Hx).
Qed.

Lemma text_safe_writable d :
  safe d = true -> Text.writable d = true.
Proof.
  induction d as [| b | i | f | s | vec IH | obj IH | t vec] using Json_ind;
    intros Hd; cbn [text_safe] in Hd; try discriminate Hd;
    cbn [Text.writable]; try reflexivity.
  - rewrite forallb_forall in Hd |- *. rewrite Forall_forall in IH.
    intros x Hx. now apply IH, Hd.
  - apply andb_prop in Hd as [_ Hd].
    rewrite forallb_forall in Hd |- *. rewrite Forall_forall in IH.
    intros x Hx. specialize (Hd x Hx). apply andb_prop in Hd as [_ Hv].
    now apply IH.
Qed.

End TextRoundTrip.
(** X19. The text codec, there and back. Let [d] be built from [Null],
    [Boolean], [Integer], [String], [Array] and [Object], its strings plain
    and left as they are by [EscapeU8], its maps ordered by their keys.
    Then the text writer has a rendering of [d], and the text reader reads
    that rendering back as [d] itself, consuming all of it. *)
Theorem X19_text_round_trip :
  forall to_chars_float EscapeU8 from_chars strtof d k,
    text_safe EscapeU8 d = true ->
    let text := Text.Save to_chars_float EscapeU8 d in
    Text.Dump to_chars_float EscapeU8 d = Some text
    /\ Text.Load from_chars strtof (k + text_fuel_of d) text
       = Ok d (mkReader text (length text) []).
Proof.
  intros tcf esc fc sf d k Hd text. split.
  - unfold Text.Dump. now rewrite (text_safe_writable esc d Hd).
  - pose proof (reads_text_all tcf esc fc sf d Hd (k + text_fuel_of d)%nat
                  ltac:(lia) text 0%nat [] eq_refl) as H.
    rewrite app_nil_r in H. exact H.
Qed.

Lemma X19_witness :
  let text := Text.Save (fun _ => []) (fun s => s) text_sample in
  Text.Dump (fun _ => []) (fun s => s) text_sample = Some text
  /\ Text.Load (fun _ => None) (fun _ => 0) (text_fuel_of text_sample) text
     = Ok text_sample (mkReader text (length text) []).
Proof.
  exact (X19_text_round_trip (fun _ => []) (fun s => s) (fun _ => None)
           (fun _ => 0) text_sample 0 eq_refl).
Defined.

(** X20. An object takes no comma behind its last member, unlike an array: the
    text of one or more members followed by a comma and the closing brace
    is a syntax error, reported at the brace, where the reader expects the
    double quote of a key. *)
Theorem X20_object_trailing_comma :
  forall to_chars_float EscapeU8 from_chars strtof e es k,
    text_safe EscapeU8 (JsonObject (e :: es)) = true ->
    let body := Text.comma_joined (written_member to_chars_float EscapeU8)
                  (e :: es) in
    let text := "{"%char :: body ++ lit ",}" in
    Text.Load from_chars strtof (k + text_fuel_of (JsonObject (e :: es))) text
    = Expect (chr quote) (chr "}")
        (mkReader text (length text - 1) (lit "}")).
Proof.
  intros tcf esc fc sf e es k Hd body text.
  cbn [text_safe] in Hd. apply andb_prop in Hd as [_ Hd].
  set (m := max_of (fun e => text_fuel_of (snd e)) (e :: es)).
  assert (Ho : Forall (fun e => unescaped esc (fst e) = true /\
                                reads_text tcf esc fc sf m (snd e))
                      (e :: es)).
  { rewrite forallb_forall in Hd. apply Forall_forall. intros x Hx.
    specialize (Hd x Hx). apply andb_prop in Hd as [Hk Hv].
    split; [exact Hk |]. apply reads_text_all; [exact Hv |].
    exact (max_of_ge (fun e => text_fuel_of (snd e)) (e :: es) x Hx). }
  unfold Text.Load, reader. cbn [text_fuel_of]. fold m.
  rewrite Nat.add_succ_r, Text_Parse_unfold.
  unfold text at 2. rewrite Parse__at by reflexivity.
  change (Text.Parse_dispatch fc sf ?po ?pa (to_Char "{"%char)) with po.
  unfold Text.ParseObject. unfold text at 2. rewrite consecutive_cons.
  destruct (member_head tcf esc e es) as [t Et]. fold body in Et.
  assert (EX : body ++ lit ",}" = quote :: t ++ lit ",}") by now rewrite Et.
  rewrite EX, SkipSpaces_at by reflexivity. rewrite peek_cons.
  settle_markers. rewrite <- EX.
  destruct (ParseObject_loop_members tcf esc fc sf m es e
              (k + (length (e :: es) + S m))%nat [] text 1%nat (lit "}") Ho
              ltac:(lia)) as [_ H].
  cbv zeta in H. fold body in H. cbn [lit String.list_ascii_of_string] in H |- *.
  change (0 + 1)%nat with 1%nat. rewrite H.
  replace (k + (length (e :: es) + S m) - length (e :: es))%nat
    with (S (k + m)) by lia.
  rewrite Text_ParseObject_loop_unfold. unfold Text.ParseObject_turn.
  cbn [lit String.list_ascii_of_string].
  rewrite SkipSpaces_at by reflexivity. rewrite peek_cons.
  settle_markers. cbn [negb].
  change (to_Char "}"%char =? -1) with false. cbv iota.
  f_equal. f_equal. unfold text. cbn [length]. rewrite length_app.
  cbn [length lit String.list_ascii_of_string]. lia.
Qed.

Lemma X20_witness :
  let text := lit "{" ++ [quote] ++ lit "a" ++ [quote] ++ lit ":1,}" in
  Text.Load (fun _ => None) (fun _ => 0) 3 text
  = Expect (chr quote) (chr "}") (mkReader text 7 (lit "}")).
Proof.
  exact (X20_object_trailing_comma (fun _ => []) (fun s => s) (fun _ => None)
           (fun _ => 0) (lit "a", JsonInteger 1) [] 0 eq_refl).
Defined.

(** X21. In text a typed array is not told from the [Array] of its elements:
    for every kind but [F64Array] the text writer renders the typed array
    and the [Array] that boxes each element character for character the
    same. *)
Theorem X21_typed_array_text :
  forall to_chars_float EscapeU8 t vec,
    t <> F64 ->
    Text.Save to_chars_float EscapeU8 (JsonTypedArray t vec)
    = Text.Save to_chars_float EscapeU8 (reboxed t vec).
Proof.
  intros tcf esc t vec Ht. unfold reboxed.
  cbn [Text.Save]. unfold Text.WriteArray. rewrite comma_joined_map.
  destruct t; try reflexivity. now elim Ht.
Qed.

Lemma X21_witness :
  Text.Save (fun _ => []) (fun s => s) (JsonTypedArray U8 [1; 2; 255])
  = Text.Save (fun _ => []) (fun s => s)
      (JsonArray [JsonInteger 1; JsonInteger 2; JsonInteger 255]).
Proof.
  exact (X21_typed_array_text (fun _ => []) (fun s => s) U8 [1; 2; 255]
           ltac:(discriminate)).
Defined.

(** ** More of the binary codec *)

(** X22. A dump is self-delimiting: two dumps that start the same buffer are
    dumps of the same document and leave the same rest. So different
    documents never have the same dump. *)
Theorem X22_binary_dump_self_delimiting :
  forall d1 d2 rest1 rest2,
    well_formed d1 = true -> UBJ.writable d1 = true ->
    well_formed d2 = true -> UBJ.writable d2 = true ->
    UBJ.Save d1 ++ rest1 = UBJ.Save d2 ++ rest2 ->
    d1 = d2 /\ rest1 = rest2.
Proof.
  intros d1 d2 rest1 rest2 F1 W1 F2 W2 E.
  pose (fuel := Nat.max (fuel_of d1) (fuel_of d2)).
  pose proof (reads_back_all d1 F1 W1 fuel (Nat.le_max_l _ _) [] 0%nat rest1)
    as H1.
  pose proof (reads_back_all d2 F2 W2 fuel (Nat.le_max_r _ _) [] 0%nat rest2)
    as H2.
  rewrite E, H2 in H1. injection H1 as -> _ ->. now split.
Qed.

Lemma X22_witness :
  let d := JsonArray [JsonInteger 5; JsonString (lit "x")] in
  well_formed d = true /\ UBJ.writable d = true /\
  UBJ.Save d ++ lit "Z" = UBJ.Save d ++ lit "Z" /\
  d = d /\ lit "Z" = lit "Z".
Proof.
  intros d.
  destruct (X22_binary_dump_self_delimiting d d (lit "Z") (lit "Z")
              eq_refl eq_refl eq_refl eq_refl eq_refl) as [H1 H2].
  exact (conj eq_refl (conj eq_refl (conj eq_refl (conj H1 H2)))).
Defined.


Lemma UBJ_ParseArray_loop_unfold fuel results r :
  UBJ.ParseArray_loop (S fuel) results r
  = UBJ.ParseArray_turn (UBJ.Parse fuel) (UBJ.ParseArray_loop fuel) results r.
Proof. reflexivity. Qed.

(** A dump starts with a marker, which is none of the closing bracket and
    the two signs of a typed and of a counted array. *)
Lemma Save_head d :
  exists c t,
    UBJ.Save d = c :: t /\ (to_Char c =? chr "]") = false /\
    (to_Char c =? chr "$") = false /\ (to_Char c =? chr "#") = false.
Proof.
  destruct d as [| b | i | f | s | vec | obj | t vec]; cbn [UBJ.Save app];
    try (do 2 eexists; split; [reflexivity | repeat split; reflexivity]).
  - destruct b; do 2 eexists; (split; [reflexivity | repeat split; reflexivity]).
  - unfold UBJ.Visit_Integer.
    repeat match goal with
           | |- context [if ?b then _ else _] => destruct b
           end;
      do 2 eexists; (split; [reflexivity | repeat split; reflexivity]).
  - destruct t; unfold UBJ.WriteTypedArray, Text.WriteArray;
      cbn [UBJ.type_marker app];
      do 2 eexists; (split; [reflexivity | repeat split; reflexivity]).
Qed.

(** The uncounted loop of [ParseArray] over the dumps of [vec], closed by
    a bracket. *)
Lemma UBJ_ParseArray_loop_spec m vec :
  Forall (reads_back m) vec ->
  forall fuel acc raw pos rest,
    (length vec + S m <= fuel)%nat ->
    UBJ.ParseArray_loop fuel acc
      (mkReader raw pos (flat_map UBJ.Save vec ++ "]"%char :: rest))
    = Ok (JsonArray (acc ++ vec))
         (mkReader raw (pos + length (flat_map UBJ.Save vec) + 1) rest).
Proof.
  induction 1 as [| d vec Hd _ IH]; intros fuel acc raw pos rest HF;
    (destruct fuel as [| fuel]; [cbn in HF; lia |]);
    rewrite UBJ_ParseArray_loop_unfold; unfold UBJ.ParseArray_turn.
  - cbn [flat_map app length]. rewrite peek_cons. settle_markers.
    rewrite consecutive_cons. unfold ret.
    now rewrite app_nil_r, Nat.add_0_r.
  - cbn [flat_map length] in *. rewrite <- app_assoc.
    destruct (Save_head d) as (c & t & Ed & Hc & _).
    erewrite peek_head by (rewrite Ed; reflexivity). rewrite Hc.
    erewrite bind_Ok
      by (apply (reads_back_more m); [exact Hd | lia]).
    rewrite IH by lia. rewrite <- app_assoc. cbn [app].
    do 2 f_equal. rewrite length_app. lia.
Qed.

(** X24. The reader takes an array without a count as well, closed by a bracket,
    and answers the array it answers for the counted layout the writer
    uses: the two layouts are read as the same document. *)
Theorem X24_uncounted_array :
  forall vec fuel raw pos rest,
    forallb well_formed vec = true -> forallb UBJ.writable vec = true ->
    UBJ.Parse (fuel + S (length vec + S (max_of fuel_of vec)))
      (mkReader raw pos
         ("["%char :: flat_map UBJ.Save vec ++ "]"%char :: rest))
    = Ok (JsonArray vec)
         (mkReader raw (pos + length (flat_map UBJ.Save vec) + 2) rest).
Proof.
  intros vec fuel raw pos rest F W.
  assert (H : Forall (reads_back (max_of fuel_of vec)) vec).
  { rewrite forallb_forall in F, W. apply Forall_forall. intros x Hx.
    apply reads_back_all; auto. now apply max_of_ge. }
  rewrite Nat.add_succ_r, Parse_unfold, marker_array. unfold UBJ.ParseArray.
  assert (E : exists c t,
             flat_map UBJ.Save vec ++ "]"%char :: rest = c :: t /\
             (to_Char c =? chr "$") = false /\
             (to_Char c =? chr "#") = false).
  { destruct vec as [| d vec].
    - do 2 eexists. split; [reflexivity | split; reflexivity].
    - destruct (Save_head d) as (c & t & Ed & _ & H1 & H2).
      cbn [flat_map]. rewrite Ed. cbn [app]. do 2 eexists.
      split; [reflexivity | now split]. }
  destruct E as (c & t & E & H1 & H2).
  erewrite peek_head by (cbn [unread]; rewrite E; reflexivity).
  rewrite H1, H2.
  rewrite UBJ_ParseArray_loop_spec with (m := max_of fuel_of vec)
    by (assumption || lia).
  do 2 f_equal. lia.
Qed.

Lemma X24_witness :
  let vec := [JsonInteger 5; JsonArray [JsonNull]; JsonString (lit "x")] in
  UBJ.Parse 7 (reader ("["%char :: flat_map UBJ.Save vec ++ lit "]"))
  = Ok (JsonArray vec)
       (mkReader ("["%char :: flat_map UBJ.Save vec ++ lit "]") 27 []).
Proof.
  intros vec.
  exact (X24_uncounted_array vec 0
           ("["%char :: flat_map UBJ.Save vec ++ lit "]") 0 []
           eq_refl eq_refl).
Defined.
Lemma marker_U po pa raw pos u :
  UBJ.Parse_ po pa (mkReader raw pos ("U"%char :: u))
  = (i <- UBJ.ReadPrimitive U8 ;; ret (JsonInteger i))
      (mkReader raw (pos + 1) u).
Proof. reflexivity. Qed.

(** X25. The width an integer is written at is not part of its value: behind
    the type code of any of the five integer types that have one, the
    reader reads a value of that type back as the [Integer] of that value.
    So the reader takes every integer at every width that holds it, not
    only at the width the writer picks. *)
Theorem X25_integer_at_any_width :
  forall t m v fuel raw pos rest,
    UBJ.type_marker t = Some m -> t <> F32 -> t <> F64 ->
    in_range t v = true ->
    UBJ.Parse (S fuel) (mkReader raw pos (m :: WritePrimitive t v ++ rest))
    = Ok (JsonInteger v) (mkReader raw (pos + 1 + sizeof t) rest).
Proof.
  intros t m v fuel raw pos rest Hm H32 H64 Hv. rewrite Parse_unfold.
  destruct t; try discriminate Hm; try (now elim H32); try (now elim H64);
    injection Hm as <-;
    rewrite ?marker_i, ?marker_U, ?marker_I, ?marker_l, ?marker_L;
    erewrite bind_Ok by (now apply ReadPrimitive_WritePrimitive);
    reflexivity.
Qed.

Lemma X25_witness :
  UBJ.Parse 1 (reader ("L"%char :: WritePrimitive I64 5))
  = Ok (JsonInteger 5) (mkReader ("L"%char :: WritePrimitive I64 5) 9 [])
  /\ UBJ.Save (JsonInteger 5) = "i"%char :: WritePrimitive I8 5.
Proof.
  split; [| reflexivity].
  pose proof (X25_integer_at_any_width I64 "L"%char 5 0
                ("L"%char :: WritePrimitive I64 5) 0 [] eq_refl
                ltac:(discriminate) ltac:(discriminate) eq_refl) as H.
  rewrite app_nil_r in H. exact H.
Defined.

(** X26. A byte that is no marker is a syntax error, reported behind the byte:
    the binary reader has consumed the marker when it looks at it. The
    marker [H] of a high-precision number is known and refused. *)
Theorem X26_unknown_marker :
  forall c fuel raw pos u,
    to_Char c <> EOF ->
    existsb (Ascii.eqb c) known_markers = false ->
    UBJ.Parse (S fuel) (mkReader raw pos (c :: u))
    = Error "Unknown construct" (mkReader raw (pos + 1) u)
    /\ UBJ.Parse (S fuel) (mkReader raw pos ("H"%char :: u))
       = Fail (Fatal (lit "High precision number is not supported.")).
Proof.
  intros c fuel raw pos u Hc Hk. unfold EOF in Hc. split; [| reflexivity].
  rewrite Parse_unfold. unfold UBJ.Parse_. rewrite peek_cons.
  rewrite (proj2 (Z.eqb_neq _ _) Hc). rewrite next_cons.
  unfold known_markers in Hk.
  cbn [lit String.list_ascii_of_string existsb] in Hk.
  repeat match type of Hk with
         | (_ || _) = false => apply orb_false_elim in Hk as [? Hk]
         end.
  rewrite !chr_eqb.
  repeat match goal with
         | H : Ascii.eqb c _ = false |- _ => rewrite H; clear H
         end.
  reflexivity.
Qed.

Lemma X26_witness :
  UBJ.Parse 1 (reader (lit " Z"))
  = Error "Unknown construct" (mkReader (lit " Z") 1 (lit "Z")).
Proof.
  exact (proj1 (X26_unknown_marker " "%char 0 (lit " Z") 0 (lit "Z")
                  ltac:(discriminate) eq_refl)).
Defined.

Lemma byte_of_to_Char c : byte_of (to_Char c) = c.
Proof.
  unfold byte_of, to_Char, signed. pose proof (byte_val_range c) as R.
  rewrite (Z.mod_small (byte_val c)) by (change (2 ^ 8) with 256; lia).
  change (2 ^ (8 - 1)) with 128. change (2 ^ 8) with 256.
  assert (E : (if byte_val c <? 128 then byte_val c else byte_val c - 256)
              mod 256 = byte_val c).
  { destruct (Z.ltb_spec (byte_val c) 128).
    - apply Z.mod_small. lia.
    - replace (byte_val c - 256) with (byte_val c + (-1) * 256) by ring.
      rewrite Z.mod_add by lia. apply Z.mod_small. lia. }
  rewrite E. unfold byte_val. rewrite N2Z.id. apply ascii_N_embedding.
Qed.

(** X27. A typed array of a type the reader has no code for is refused once its
    count is read, with the type code in the message. The unsigned types
    of 16, 32 and 64 bits have no code, so no buffer holds a typed array of
    them. *)
Theorem X27_unsupported_typed_array :
  forall c n fuel raw pos rest,
    existsb (Ascii.eqb c) known_types = false ->
    in_range I64 n = true ->
    UBJ.Parse (S fuel)
      (mkReader raw pos
         (lit "[$" ++ c :: lit "#L" ++ WritePrimitive I64 n ++ rest))
    = Fail (Fatal ("`"%char :: c :: "`"%char
                   :: lit " is not supported for typed array.")).
Proof.
  intros c n fuel raw pos rest Hc Hn.
  cbn [lit String.list_ascii_of_string app].
  rewrite Parse_unfold, marker_array. unfold UBJ.ParseArray.
  rewrite peek_cons. settle_markers. unfold UBJ.ParseArray_typed.
  rewrite !next_cons, !consecutive_cons.
  erewrite bind_Ok by (now apply ReadPrimitive_WritePrimitive).
  unfold known_types in Hc.
  cbn [lit String.list_ascii_of_string existsb] in Hc.
  repeat match type of Hc with
         | (_ || _) = false => apply orb_false_elim in Hc as [? Hc]
         end.
  rewrite !chr_eqb.
  repeat match goal with
         | H : Ascii.eqb c _ = false |- _ => rewrite H; clear H
         end.
  unfold raise. now rewrite byte_of_to_Char.
Qed.

Lemma X27_witness :
  UBJ.Parse 1 (reader (lit "[$u#L" ++ WritePrimitive I64 0))
  = Fail (Fatal (lit "`u` is not supported for typed array.")).
Proof.
  pose proof (X27_unsupported_typed_array "u"%char 0 0
                (lit "[$u#L" ++ WritePrimitive I64 0) 0 [] eq_refl eq_refl)
    as H.
  rewrite app_nil_r in H. exact H.
Defined.



(** ** The report of a syntax error *)

Lemma portion_app a b : portion (a ++ b) = portion a ++ portion b.
Proof.
  induction a as [| c a IH]; [reflexivity |].
  cbn [app portion]. now rewrite IH, app_assoc.
Qed.

(** The excerpt takes one more character for each newline and NUL. *)
Lemma portion_length a :
  length (portion a) = (length a + length (filter spelled_out a))%nat.
Proof.
  induction a as [| c a IH]; [reflexivity |].
  cbn [portion filter]. rewrite length_app, IH. unfold spelled_out.
  destruct (Ascii.eqb c "010"); [cbn; lia |].
  destruct (Ascii.eqb c "000"); cbn; lia.
Qed.

Lemma portion_plain a : filter spelled_out a = [] -> portion a = a.
Proof.
  induction a as [| c a IH]; [reflexivity |].
  cbn [portion filter]. unfold spelled_out.
  destruct (Ascii.eqb c "010"); [discriminate |].
  destruct (Ascii.eqb c "000"); [discriminate |].
  intros H. cbn [orb app]. now rewrite IH.
Qed.

(** X29. Away from the start of the buffer, the report of [Error] ends in two
    lines. The first is the excerpt: the characters of the buffer up to
    eight to either side of the cursor, a newline and a NUL spelled out
    with two characters each. The second is the marker line: one sign for
    each character of the buffer the excerpt shows, so it is shorter than
    the excerpt by the number of newlines and NULs shown. Its caret is the
    sign of the character before the cursor, not of the character at the
    reported position. That character is printed as many places to the
    right of the caret as newlines and NULs are shown before it: the caret
    stands under it when there is none. *)
Theorem X29_error_caret :
  forall msg r,
    (1 <= Pos r <= length (raw_str_ r))%nat ->
    let beg := (Pos r - kExtend)%nat in
    let end_ := Nat.min (length (raw_str_ r)) (Pos r + kExtend) in
    let raw_portion := firstn (end_ - beg) (skipn beg (raw_str_ r)) in
    let before := firstn (Pos r - 1 - beg) raw_portion in
    let marker := repeat "~"%char (Pos r - 1 - beg) ++ lit "^"
                  ++ repeat "~"%char (end_ - Pos r) in
    Error_what msg r
    = msg ++ lit ", around character position: "
          ++ to_string_unsigned (Z.of_nat (Pos r)) ++ [newline]
          ++ lit "    " ++ portion raw_portion ++ [newline]
          ++ lit "    " ++ marker
    /\ length marker = length raw_portion
    /\ length (portion raw_portion)
       = (length marker + length (filter spelled_out raw_portion))%nat
    /\ nth_error marker (Pos r - 1 - beg) = Some "^"%char
    /\ exists c after,
         nth_error (raw_str_ r) (Pos r - 1) = Some c
         /\ portion raw_portion
            = portion before ++ portion [c] ++ portion after
         /\ length (portion before)
            = (Pos r - 1 - beg + length (filter spelled_out before))%nat
         /\ (filter spelled_out raw_portion = [] ->
             nth_error (portion raw_portion) (Pos r - 1 - beg) = Some c).
Proof.
  intros msg r H beg end_ raw_portion before marker.
  assert (Eend : (if (length (raw_str_ r) <=? Pos r + kExtend)%nat
                  then length (raw_str_ r) else (Pos r + kExtend)%nat)
                 = end_).
  { unfold end_. destruct (Nat.leb_spec (length (raw_str_ r))
                             (Pos r + kExtend)); lia. }
  assert (Hb : (beg <= Pos r - 1)%nat) by (unfold beg, kExtend; lia).
  assert (He : (Pos r <= end_ <= length (raw_str_ r))%nat)
    by (unfold end_, kExtend; lia).
  assert (Lm : length marker = length raw_portion).
  { unfold marker, raw_portion.
    rewrite !length_app, !repeat_length, length_firstn, length_skipn.
    cbn [length lit String.list_ascii_of_string]. lia. }
  assert (Lr : length raw_portion = (end_ - beg)%nat).
  { unfold raw_portion. rewrite length_firstn, length_skipn. lia. }
  assert (Hn : nth_error raw_portion (Pos r - 1 - beg)
               = nth_error (raw_str_ r) (Pos r - 1)).
  { unfold raw_portion. rewrite nth_error_firstn.
    replace (Pos r - 1 - beg <? end_ - beg)%nat with true
      by (symmetry; apply Nat.ltb_lt; lia).
    rewrite nth_error_skipn. f_equal. lia. }
  split; [| split; [| split; [| split]]].
  - unfold Error_what.
    replace (Nat.eqb (Pos r) 0) with false
      by (symmetry; apply Nat.eqb_neq; lia).
    rewrite Eend. fold beg. fold raw_portion. unfold marker, newline.
    now rewrite <- !app_assoc.
  - exact Lm.
  - rewrite Lm. apply portion_length.
  - unfold marker. rewrite nth_error_app2 by (rewrite repeat_length; lia).
    now rewrite repeat_length, Nat.sub_diag.
  - destruct (nth_error raw_portion (Pos r - 1 - beg)) as [c |] eqn:Ec.
    2: { apply nth_error_None in Ec. lia. }
    destruct (nth_error_split raw_portion (Pos r - 1 - beg) Ec)
      as (l1 & l2 & E & L1).
    assert (Eb : before = l1).
    { unfold before. rewrite E. now apply firstn_exact. }
    exists c, l2. split; [now symmetry |]. split; [| split].
    + rewrite Eb, E at 1. rewrite portion_app.
      change (c :: l2) with ([c] ++ l2). now rewrite portion_app.
    + rewrite portion_length, Eb, L1. reflexivity.
    + intros P. rewrite portion_plain by exact P. exact Ec.
Qed.

Lemma X29_witness :
  let raw := lit "[1," ++ newline :: lit "2,}" in
  let r := mkReader raw 6 (lit "}") in
  Error_what (lit "Unknown construct") r
  = lit "Unknown construct, around character position: 6"
    ++ [newline] ++ lit "    [1,\n2,}" ++ [newline]
    ++ lit "    ~~~~~^~"
  /\ length (lit "[1,\n2,}") = (length (lit "~~~~~^~") + 1)%nat
  /\ nth_error (lit "~~~~~^~") 5 = Some "^"%char
  /\ nth_error raw 5 = Some ","%char
  /\ nth_error (lit "[1,\n2,}") 6 = Some ","%char.
Proof.
  intros raw r.
  destruct (X29_error_caret (lit "Unknown construct") r ltac:(cbn; lia))
    as (H1 & _ & H3 & H4 & c & after & Hc & Hp & Hl & _).
  split; [exact H1 |]. split; [exact H3 |]. split; [exact H4 |].
  assert (E : c = ","%char) by (cbn in Hc; congruence).
  split; [rewrite E in Hc; exact Hc |].
  change (lit "[1,\n2,}")
    with (portion (firstn (Nat.min (length (raw_str_ r)) (Pos r + kExtend)
                           - (Pos r - kExtend))
                     (skipn (Pos r - kExtend) (raw_str_ r)))).
  rewrite Hp, nth_error_app2 by (rewrite Hl; cbn; lia).
  rewrite Hl, E. reflexivity.
Defined.

(** ** Equality is transitive *)

Lemma SFeqb_trans x y z :
  SFeqb x y = true -> SFeqb y z = true -> SFeqb x z = true.
Proof.
  intros H1 H2.
  destruct x as [s | s | | s m e], y as [s' | s' | | s' m' e'];
    try discriminate H1;
    try (destruct s, s'; discriminate H1);
    try (destruct s; discriminate H1); try (destruct s'; discriminate H1);
    destruct z as [s'' | s'' | | s'' m'' e''];
    try discriminate H2;
    try (destruct s', s''; discriminate H2);
    try (destruct s'; discriminate H2); try (destruct s''; discriminate H2);
    try reflexivity.
  - destruct s, s', s''; try discriminate H1; try discriminate H2;
      reflexivity.
  - apply SFeqb_finite_inv in H1 as (-> & -> & ->). exact H2.
Qed.

Lemma sub32_zero_SFeqb a b :
  Float.is_finite (Float.of_bits32 a) = true ->
  Float.sub32_is_zero a b = SFeqb (Float.of_bits32 a) (Float.of_bits32 b).
Proof.
  intros H. unfold Float.sub32_is_zero.
  rewrite SFeqb_zero. apply SFsub_zero; auto using of_bits32_valid.
Qed.

Lemma SFeqb_finite_r x y :
  Float.is_finite x = true -> SFeqb x y = true -> Float.is_finite y = true.
Proof.
  destruct x as [s | s | | s m e], y as [s' | s' | | s' m' e'];
    try discriminate; try reflexivity;
    try (destruct s; discriminate); try (destruct s, s'; discriminate).
Qed.

Lemma float_kinds x :
  Float.is_nan x && Float.is_inf x = false /\
  Float.is_nan x && Float.is_finite x = false /\
  Float.is_inf x && Float.is_finite x = false.
Proof. now destruct x. Qed.

Lemma JsonNumber_eq_trans a b c :
  JsonNumber_eq a b = true -> JsonNumber_eq b c = true ->
  JsonNumber_eq a c = true.
Proof.
  rewrite !JsonNumber_eq_cases.
  unfold Float.isnan32, Float.isinf32.
  destruct (float_kinds (Float.of_bits32 b)) as (K1 & K2 & K3).
  intros [[A B] | [[A B] | [A B]]] [[B' C] | [[B' C] | [B' C]]].
  - left. now split.
  - rewrite B, B' in K1. discriminate K1.
  - rewrite B, B' in K2. discriminate K2.
  - rewrite B, B' in K1. discriminate K1.
  - right. left. now split.
  - rewrite B, B' in K3. discriminate K3.
  - rewrite sub32_zero_SFeqb in B by assumption.
    pose proof (SFeqb_finite_r _ _ A B) as Fb.
    rewrite B', Fb in K2. discriminate K2.
  - rewrite sub32_zero_SFeqb in B by assumption.
    pose proof (SFeqb_finite_r _ _ A B) as Fb.
    rewrite B', Fb in K3. discriminate K3.
  - right; right. split; [exact A |].
    rewrite sub32_zero_SFeqb in B, C |- * by assumption.
    exact (SFeqb_trans _ _ _ B C).
Qed.

Lemma buffer_eqb_trans a b c :
  buffer_eqb a b = true -> buffer_eqb b c = true -> buffer_eqb a c = true.
Proof.
  intros H1 H2. apply buffer_eqb_eq in H1, H2. subst. apply buffer_eqb_refl.
Qed.

Lemma equal_trans {A} (f : A -> A -> bool) xs :
  Forall (fun x => forall y z, f x y = true -> f y z = true -> f x z = true)
         xs ->
  forall ys zs,
    equal f xs ys = true -> equal f ys zs = true -> equal f xs zs = true.
Proof.
  induction 1 as [| x xs H _ IH]; intros [| y ys] [| z zs] H1 H2;
    cbn [equal] in *; try discriminate; [reflexivity |].
  apply andb_prop in H1 as [H1 H1']. apply andb_prop in H2 as [H2 H2'].
  now rewrite (H y z H1 H2), (IH ys zs H1' H2').
Qed.

Lemma equal_trans_all {A} (f : A -> A -> bool) :
  (forall x y z, f x y = true -> f y z = true -> f x z = true) ->
  forall xs ys zs,
    equal f xs ys = true -> equal f ys zs = true -> equal f xs zs = true.
Proof.
  intros Hf xs. apply equal_trans, Forall_forall. intros x _. apply Hf.
Qed.

Lemma Z_eqb_trans x y z :
  (x =? y) = true -> (y =? z) = true -> (x =? z) = true.
Proof. intros H1 H2. apply Z.eqb_eq in H1, H2. subst. apply Z.eqb_refl. Qed.

Lemma JsonTypedArray_eq_trans t xs ys zs :
  JsonTypedArray_eq t xs ys = true -> JsonTypedArray_eq t ys zs = true ->
  JsonTypedArray_eq t xs zs = true.
Proof.
  unfold JsonTypedArray_eq.
  destruct (Nat.eqb_spec (length xs) (length ys)) as [E1 | ];
    [| discriminate];
    destruct (Nat.eqb_spec (length ys) (length zs)) as [E2 | ];
    [| discriminate].
  replace (Nat.eqb (length xs) (length zs)) with true
    by (symmetry; apply Nat.eqb_eq; congruence).
  cbn [negb]. intros H1 H2.
  destruct t;
    try exact (equal_trans_all Z.eqb Z_eqb_trans _ _ _ H2 H1).
  - revert H1 H2. apply equal_trans_all. intros x y z.
    rewrite !F32_elem_eq_Number. apply JsonNumber_eq_trans.
  - exact (equal_trans_all Float.eq64
             (fun x y z => SFeqb_trans _ _ _) _ _ _ H2 H1).
Qed.

Lemma Value_eq_trans x :
  forall y z swapped,
    Value_eq swapped x y = true -> Value_eq swapped y z = true ->
    Value_eq swapped x z = true.
Proof.
  induction x as [| b | i | f | s | vec IH | obj IH | t vec] using Json_ind;
    intros y z swapped H1 H2;
    destruct y as [| b' | i' | f' | s' | vec' | obj' | t' vec'];
    try discriminate H1;
    destruct z as [| b'' | i'' | f'' | s'' | vec'' | obj'' | t'' vec''];
    try discriminate H2; cbn [Value_eq] in *.
  - reflexivity.
  - destruct swapped, b, b', b''; try discriminate; reflexivity.
  - destruct swapped; apply Z.eqb_eq in H1, H2; subst; apply Z.eqb_refl.
  - destruct swapped.
    + rewrite JsonNumber_eq_sym in H1, H2 |- *.
      exact (JsonNumber_eq_trans _ _ _ H1 H2).
    + exact (JsonNumber_eq_trans _ _ _ H1 H2).
  - destruct swapped.
    + exact (buffer_eqb_trans _ _ _ H1 H2).
    + rewrite buffer_eqb_sym in H1, H2 |- *.
      exact (buffer_eqb_trans _ _ _ H1 H2).
  - destruct (Nat.eqb_spec (length vec) (length vec')) as [E1 |];
      [| discriminate H1].
    destruct (Nat.eqb_spec (length vec') (length vec'')) as [E2 |];
      [| discriminate H2].
    replace (Nat.eqb (length vec) (length vec'')) with true
      by (symmetry; apply Nat.eqb_eq; congruence).
    cbn [negb] in *. revert H1 H2. apply equal_trans.
    rewrite Forall_forall in IH |- *. intros x Hx y z. now apply IH.
  - apply andb_prop in H1 as [L1 H1]. apply andb_prop in H2 as [L2 H2].
    apply Nat.eqb_eq in L1, L2.
    replace (Nat.eqb (length obj) (length obj'')) with true
      by (symmetry; apply Nat.eqb_eq; congruence).
    cbn [andb]. revert H1 H2. apply equal_trans.
    rewrite Forall_forall in IH |- *. intros x Hx y z Hy Hz.
    apply andb_prop in Hy as [K1 V1]. apply andb_prop in Hz as [K2 V2].
    rewrite (IH x Hx _ _ _ V1 V2), andb_true_r.
    destruct swapped.
    + rewrite buffer_eqb_sym in K1, K2 |- *.
      exact (buffer_eqb_trans _ _ _ K1 K2).
    + exact (buffer_eqb_trans _ _ _ K1 K2).
  - apply andb_prop in H1 as [T1 H1]. apply andb_prop in H2 as [T2 H2].
    apply ElemType_eqb_eq in T1, T2. subst t' t''.
    replace (ElemType_eqb t t) with true by now destruct t.
    cbn [andb]. destruct swapped.
    + rewrite JsonTypedArray_eq_sym in H1, H2 |- *.
      exact (JsonTypedArray_eq_trans _ _ _ _ H1 H2).
    + exact (JsonTypedArray_eq_trans _ _ _ _ H1 H2).
Qed.

(** X4. [==] on documents is transitive. With symmetry, it is an equivalence
    on the documents that are equal to themselves. *)
Theorem X4_equality_transitive :
  forall x y z,
    Json_eq x y = true -> Json_eq y z = true -> Json_eq x z = true.
Proof. intros x y z. apply Value_eq_trans. Qed.

Lemma X4_witness :
  Json_eq (JsonArray [JsonNumber 0; JsonNumber Float.infinity])
          (JsonArray [JsonNumber 0; JsonNumber Float.neg_infinity]) = true.
Proof.
  apply (X4_equality_transitive _
           (JsonArray [JsonNumber (2 ^ 31); JsonNumber Float.infinity]));
    vm_compute; reflexivity.
Defined.

(** ** Typed arrays through the text codec *)

(** *** The decimal literals of a [float] *)









Section FloatLiteral.
Variable from_chars : buffer -> option Z.
Variable strtof : buffer -> Z.

End FloatLiteral.

Section TextDegrade.
Variable to_chars_float : Z -> buffer.
Variable EscapeU8 : buffer -> buffer.
Variable from_chars : buffer -> option Z.
Variable strtof : buffer -> Z.







End TextDegrade.


